(** * cligent: session drivers, NDJSON framer and permission mapping

    A shallow embedding of the parts of the cligent TypeScript sources that
    carry the lifecycle guarantees of the event stream:

    - [src/adapters/ndjson.ts]  ([chunkToString], [parseLine], [parseNDJSON]);
    - [src/events.ts]           ([createEvent], [generateSessionId],
                                 [isAgentEvent]);
    - [src/registry.ts]         ([AdapterRegistry]);
    - [src/engine.ts]           ([raceAbort], [makeSynthDone], [makeSynthError],
                                 [runAgent], [runParallel]);
    - [src/adapters/codex.ts]   ([mapPermissionsToCodexOptions],
                                 [parseItemCompleted], [CodexAdapter.run]);
    - [src/adapters/gemini.ts]  ([GeminiAdapter.run] and its helpers,
                                 [mapPermissionsToGeminiToolConfig]).

    The registry is modelled twice: as the finite map the drivers look
    adapters up in, and as the class with the insertion order of its [Map]
    ([register], [get], [list], [unregister]); [src/events.ts] also gives
    [isAgentEvent].

    Conventions.  A JavaScript string is the list of its UTF-16 code units.
    [Date.now()] and [randomUUID()] are oracles read through a counter that is
    threaded through the drivers, so that the order of the reads is the order
    of the calls in the source.  An async generator is the list of events it
    yields together with the way it completes; the call that should return
    it may throw instead.  A cancellation token trips at a logical instant;
    the instants of a driver are the points at which the state of the token
    decides what the driver does.  [JSON.parse], [String] and
    [buf.toString('utf8')] are parameters of the framer; [Js.utf8_decode] is
    the decoder where a statement is about bytes. *)

From Stdlib Require Import ZArith NArith List Ascii String Bool Lia Sorted.
From Equations Require Import Equations.
From stdpp Require Import base option list gmap.

Set Default Proof Using "Type".
Set Warnings "-register-all".
Local Open Scope Z_scope.

(* ===================================================================== *)
(** * JavaScript strings *)
(* ===================================================================== *)

Module Js.

(** One UTF-16 code unit. *)
Definition code_unit := N.

(** A string value: its code units in order. *)
Abbreviation jsstring := (list N).

(** An ASCII literal of the source as a string value. *)
Definition lit (s : string) : jsstring :=
  map N_of_ascii (list_ascii_of_string s).

Definition CR : code_unit := 13%N.
Definition LF : code_unit := 10%N.

(** ECMAScript [WhiteSpace] and [LineTerminator] code points, the set that
    [String.prototype.trim] strips. *)
Definition is_white_space (c : code_unit) : bool :=
  existsb (N.eqb c)
    [ 9; 10; 11; 12; 13; 32; 160; 5760;
      8192; 8193; 8194; 8195; 8196; 8197; 8198; 8199; 8200; 8201; 8202;
      8232; 8233; 8239; 8287; 12288; 65279 ]%N.

Fixpoint trimStart (s : jsstring) : jsstring :=
  match s with
  | c :: s' => if is_white_space c then trimStart s' else s
  | [] => []
  end.

Definition trimEnd (s : jsstring) : jsstring := rev (trimStart (rev s)).

(** [s.trim()] *)
Definition trim (s : jsstring) : jsstring := trimEnd (trimStart s).

(** Relative index resolution shared by [slice]'s two arguments. *)
Definition clamp_index (len k : Z) : Z :=
  if k <? 0 then Z.max (len + k) 0 else Z.min k len.

(** [s.slice(from, to)] *)
Definition slice (s : jsstring) (from to : Z) : jsstring :=
  let len := Z.of_nat (length s) in
  let a := clamp_index len from in
  let b := clamp_index len to in
  take (Z.to_nat (b - a)) (drop (Z.to_nat a) s).

(** [s.slice(from)] *)
Definition slice_from (s : jsstring) (from : Z) : jsstring :=
  slice s from (Z.of_nat (length s)).

(** [s.endsWith(c)] for a one-unit search string. *)
Definition endsWith (s : jsstring) (c : code_unit) : bool :=
  match last s with
  | Some d => N.eqb d c
  | None => false
  end.

(** [s.indexOf(c)] for a one-unit search string: the first position of [c],
    or [-1]. *)
Fixpoint indexOf (s : jsstring) (c : code_unit) : Z :=
  match s with
  | [] => -1
  | d :: s' =>
      if N.eqb d c then 0
      else let i := indexOf s' c in if i =? -1 then -1 else i + 1
  end.

(** [s.toLowerCase()] on the ASCII range.  The source only compares the
    result with ASCII status words; outside ASCII the one unit whose lower
    case is an ASCII letter is the Kelvin sign (to [k]), and the one status
    word with a [k], [ok], maps to the default status. *)
Definition toLowerCase (s : jsstring) : jsstring :=
  map (fun c => if ((65 <=? c) && (c <=? 90))%N then (c + 32)%N else c) s.

(** ** [buf.toString('utf8')]

    The decoder reads a byte at a time.  A sequence in progress is kept as
    the code point bits read so far, the number of continuation bytes still
    due and the range the next byte must lie in; a byte that cannot continue
    the sequence closes it as U+FFFD and is read again as a first byte; a
    sequence still in progress at the end of the bytes is closed as U+FFFD.
    Each [Buffer] is decoded on its own, from the initial state. *)
Record Utf8Pending := {
  bits : N;
  due : nat;
  lower : N;
  upper : N;
}.

Definition REPLACEMENT : code_unit := 65533%N.

(** The code units of a code point: itself, or a surrogate pair. *)
Definition utf16 (cp : N) : list code_unit :=
  if (cp <? 65536)%N then [cp]
  else [(55296 + (cp - 65536) / 1024)%N; (56320 + (cp - 65536) mod 1024)%N].

(** A byte read as the first of a sequence. *)
Definition utf8_lead (b : N) : list code_unit * option Utf8Pending :=
  if (b <=? 127)%N then ([b], None)
  else if ((194 <=? b) && (b <=? 223))%N then
    ([], Some {| bits := N.land b 31; due := 1; lower := 128; upper := 191 |})
  else if ((224 <=? b) && (b <=? 239))%N then
    ([], Some {| bits := N.land b 15; due := 2;
                 lower := if (b =? 224)%N then 160%N else 128%N;
                 upper := if (b =? 237)%N then 159%N else 191%N |})
  else if ((240 <=? b) && (b <=? 244))%N then
    ([], Some {| bits := N.land b 7; due := 3;
                 lower := if (b =? 240)%N then 144%N else 128%N;
                 upper := if (b =? 244)%N then 143%N else 191%N |})
  else ([REPLACEMENT], None).

Definition utf8_step (st : option Utf8Pending) (b : N)
    : list code_unit * option Utf8Pending :=
  match st with
  | None => utf8_lead b
  | Some p =>
      if ((lower p <=? b) && (b <=? upper p))%N then
        let cp := (bits p * 64 + N.land b 63)%N in
        match due p with
        | S (S n) =>
            ([], Some {| bits := cp; due := S n; lower := 128; upper := 191 |})
        | _ => (utf16 cp, None)
        end
      else
        let (out, st') := utf8_lead b in (REPLACEMENT :: out, st')
  end.

Fixpoint utf8_decode_from (st : option Utf8Pending) (bytes : list N)
    : list code_unit :=
  match bytes with
  | [] => match st with Some _ => [REPLACEMENT] | None => [] end
  | b :: rest =>
      let (out, st') := utf8_step st b in out ++ utf8_decode_from st' rest
  end.

Definition utf8_decode (bytes : list N) : list code_unit :=
  utf8_decode_from None bytes.

(** Values that [JSON.parse] produces and that event payloads carry.  A
    number that is not finite is kept apart because [Number.isFinite] is the
    only question the source asks about a number. *)
Inductive number :=
| Finite (z : Z)
| NonFinite.

Inductive value :=
| Undefined
| Null
| Bool (b : bool)
| Num (n : number)
| Str (s : jsstring)
| Arr (items : list value)
| Obj (fields : list (jsstring * value)).

(** What a [throw] carries: an [Error] object with its [message], or any
    other value, kept as the text [String(err)] renders. *)
Inductive thrown :=
| ErrorObject (message : jsstring)
| NonError (rendering : jsstring).

(** [err instanceof Error ? err.message : String(err)] *)
Definition error_text (err : thrown) : jsstring :=
  match err with
  | ErrorObject m => m
  | NonError r => r
  end.

End Js.

Import Js.

(* ===================================================================== *)
(** * The NDJSON line framer ([src/adapters/ndjson.ts]) *)
(* ===================================================================== *)

Module Ndjson.

Inductive NDJSONParseResult :=
| Ok (data : value)
| Fail (error : jsstring) (raw : jsstring).

(** What a [Readable] hands to [for await]: a string, a [Buffer], a
    [Uint8Array], or anything else. *)
Inductive Chunk :=
| StringChunk (s : jsstring)
| BufferChunk (bytes : list N)
| Uint8ArrayChunk (bytes : list N)
| OtherChunk (v : value).

(** A finite readable stream: the chunks it delivers, then either the end of
    the stream or an error raised by the stream itself. *)
Record Readable := {
  chunks : list Chunk;
  failure : option thrown;
}.

Section Framer.

(** [JSON.parse]: the parsed value, or what it throws. *)
Variable JSON_parse : jsstring -> value + thrown.
(** [buf.toString('utf8')] *)
Variable utf8_toString : list N -> jsstring.
(** [String(v)] *)
Variable String_of : value -> jsstring.

Definition chunkToString (chunk : Chunk) : jsstring :=
  match chunk with
  | StringChunk s => s
  | BufferChunk b => utf8_toString b
  | Uint8ArrayChunk b => utf8_toString b
  | OtherChunk v => String_of v
  end.

Definition parseLine (rawLine : jsstring) : option NDJSONParseResult :=
  let line := if endsWith rawLine CR then slice rawLine 0 (-1) else rawLine in
  if (length (trim line) =? 0)%nat then None
  else
    match JSON_parse line with
    | inl data => Some (Ok data)
    | inr error =>
        Some (Fail
                match error with
                | ErrorObject message => message
                | NonError _ => lit "Failed to parse NDJSON line"
                end
                line)
    end.

Lemma indexOf_range (s : jsstring) (c : code_unit) :
  indexOf s c = -1 \/ 0 <= indexOf s c < Z.of_nat (length s).
Proof.
  induction s as [|d s IH]; simpl; [by left|].
  destruct (N.eqb d c); [right; lia|].
  destruct (Z.eqb_spec (indexOf s c) (-1)); [by left|right; lia].
Qed.

Lemma length_slice_from (s : jsstring) (i : Z) :
  0 <= i -> length (slice_from s i) = (length s - Z.to_nat i)%nat.
Proof.
  intros Hi. unfold slice_from, slice, clamp_index.
  destruct (Z.ltb_spec i 0); [lia|].
  destruct (Z.ltb_spec (Z.of_nat (length s)) 0); [lia|].
  rewrite length_take, length_drop. lia.
Qed.

Definition inspect {A} (a : A) : {b | a = b} := exist _ a eq_refl.

(** The inner [while (true)] of [parseNDJSON]: cut complete lines off the
    front of the buffer, yield what [parseLine] makes of each, and leave the
    unterminated rest in the buffer. *)
Equations? drain (buffer : jsstring) : list NDJSONParseResult * jsstring
  by wf (length buffer) lt :=
drain buffer with inspect (indexOf buffer LF) := {
  | exist _ newlineIndex Hidx =>
      if Z.eq_dec newlineIndex (-1) then ([], buffer)
      else
        let line := slice buffer 0 newlineIndex in
        let (out, rest) := drain (slice_from buffer (newlineIndex + 1)) in
        (match parseLine line with
         | Some parsed => parsed :: out
         | None => out
         end, rest)
}.
Proof.
  destruct (indexOf_range buffer LF) as [?|?]; [congruence|].
  rewrite length_slice_from by lia. lia.
Qed.

(** The [for await] over the chunks, threading the buffer. *)
Fixpoint feed (buffer : jsstring) (cs : list Chunk)
  : list NDJSONParseResult * jsstring :=
  match cs with
  | [] => ([], buffer)
  | chunk :: cs' =>
      let (out, buffer') := drain (buffer ++ chunkToString chunk) in
      let (out', buffer'') := feed buffer' cs' in
      (out ++ out', buffer'')
  end.

(** [parseNDJSON(stream)]: the results it yields, and the exception that
    leaves the generator when the stream itself fails. *)
Definition parseNDJSON (stream : Readable)
  : list NDJSONParseResult * option thrown :=
  let (out, buffer) := feed [] (chunks stream) in
  match failure stream with
  | Some err => (out, Some err)
  | None =>
      (out ++
         (if (0 <? length buffer)%nat
          then match parseLine buffer with
               | Some parsed => [parsed]
               | None => []
               end
          else []),
       None)
  end.

End Framer.

End Ndjson.

(* ===================================================================== *)
(** * Events ([src/types.ts], [src/events.ts]) *)
(* ===================================================================== *)

Module Events.

Inductive DoneStatus :=
| success
| error
| interrupted
| max_turns
| max_budget.

#[global] Instance DoneStatus_eq_dec : EqDecision DoneStatus.
Proof. solve_decision. Defined.

Inductive ToolResultStatus :=
| tool_success
| tool_error
| tool_denied.

Record Usage := {
  inputTokens : Z;
  outputTokens : Z;
  toolUses : Z;
  totalCostUsd : option Z;
}.

(** The payload shapes of [types.ts].  [ExtensionPayload] is the [unknown]
    payload of a namespaced event. *)
Inductive Payload :=
| InitPayload (model cwd : jsstring) (tools : list jsstring)
    (capabilities : option value)
| TextPayload (content : jsstring)
| TextDeltaPayload (delta : jsstring)
| ThinkingPayload (summary : jsstring)
| ErrorPayload (code : option jsstring) (message : jsstring)
    (recoverable : bool)
| PermissionRequestPayload (toolName toolUseId : jsstring) (input : value)
    (reason : option jsstring)
| ToolUsePayload (toolName toolUseId : jsstring) (input : value)
    (description : option jsstring)
| ToolResultPayload (toolUseId toolName : jsstring)
    (status : ToolResultStatus) (output : value) (durationMs : option Z)
| DonePayload (status : DoneStatus) (result : option jsstring)
    (usage : Usage) (durationMs : Z)
| ExtensionPayload (v : value).

(** [BaseEvent & { payload }].  The [type] tag is a free string: the nine
    canonical names or a namespaced extension. *)
Record AgentEvent := {
  type : jsstring;
  agent : jsstring;
  timestamp : Z;
  sessionId : jsstring;
  metadata : option value;
  payload : Payload;
}.

Inductive PermissionLevel :=
| allow
| ask
| deny.

Record PermissionPolicy := {
  fileWrite : option PermissionLevel;
  shellExecute : option PermissionLevel;
  networkAccess : option PermissionLevel;
}.

(** An [AbortSignal], seen through the only thing the sources read from it:
    whether [aborted] is true at a given instant.  The signal is one-shot; it
    trips at instant [tripsAt], or never. *)
Record AbortSignal := {
  tripsAt : option nat;
}.

Definition aborted (signal : AbortSignal) (instant : nat) : bool :=
  match tripsAt signal with
  | Some t => (t <=? instant)%nat
  | None => false
  end.

(** [signal?.aborted] *)
Definition opt_aborted (signal : option AbortSignal) (instant : nat) : bool :=
  match signal with
  | Some s => aborted s instant
  | None => false
  end.

Record AgentOptions := {
  cwd : option jsstring;
  model : option jsstring;
  permissions : option PermissionPolicy;
  maxTurns : option Z;
  maxBudgetUsd : option Z;
  resume : option jsstring;
  abortSignal : option AbortSignal;
  allowedTools : option (list jsstring);
  disallowedTools : option (list jsstring);
}.

(** [options?.abortSignal] *)
Definition signal_of (options : option AgentOptions) : option AbortSignal :=
  match options with
  | Some o => abortSignal o
  | None => None
  end.

(** ** Async generators of events

    The behaviour of an [AsyncGenerator<AgentEvent, void, void>] under
    repeated [next()]: the events it yields, then how it completes. *)
Inductive Completion :=
| Returns
| Throws (err : thrown).

Record Generator := {
  yields : list AgentEvent;
  completion : Completion;
}.

Inductive IteratorResult :=
| IterValue (event : AgentEvent)
| IterDone.

(** A settled promise of an iterator result. *)
Inductive Settled :=
| Resolved (result : IteratorResult)
| Rejected (err : thrown).

(** [gen.next()]: what the promise settles with, and the generator
    afterwards.  A generator that threw or returned stays finished. *)
Definition next (gen : Generator) : Settled * Generator :=
  match yields gen with
  | event :: rest =>
      (Resolved (IterValue event),
       {| yields := rest; completion := completion gen |})
  | [] =>
      match completion gen with
      | Returns => (Resolved IterDone, gen)
      | Throws err =>
          (Rejected err, {| yields := []; completion := Returns |})
      end
  end.

(** [AgentAdapter]: its name and what the call [run(prompt, options)] does:
    it returns the generator, or it throws.  The call of an [async *run]
    method always returns; the interface admits any function of that
    type. *)
Record AgentAdapter := {
  adapter_agent : jsstring;
  run : jsstring -> option AgentOptions -> Generator + thrown;
}.

(** ** The environment of a driver

    [clock_reads] and [uuid_reads] count the calls of [Date.now()] and
    [randomUUID()] made so far; [run_calls] records, in order, the adapters
    whose [run] has been invoked. *)
Record World := {
  clock_reads : nat;
  uuid_reads : nat;
  run_calls : list jsstring;
}.

Definition world0 : World :=
  {| clock_reads := 0; uuid_reads := 0; run_calls := [] |}.

(** A generator body under construction: it reads the environment, yields
    values of type [O], and ends with an [A]. *)
Definition Gen (O A : Type) : Type := World -> A * list O * World.

Definition ret {O A} (a : A) : Gen O A := fun w => (a, [], w).

Definition bind {O A B} (m : Gen O A) (k : A -> Gen O B) : Gen O B :=
  fun w =>
    let '(a, out1, w1) := m w in
    let '(b, out2, w2) := k a w1 in
    (b, out1 ++ out2, w2).

Definition yield {O} (o : O) : Gen O unit := fun w => (tt, [o], w).

Definition yield_all {O} (os : list O) : Gen O unit := fun w => (tt, os, w).

(** What a generator body yields, returns and leaves behind from [w]. *)
Definition events_of {O A} (m : Gen O A) (w : World) : list O :=
  snd (fst (m w)).

Definition result_of {O A} (m : Gen O A) (w : World) : A := fst (fst (m w)).

Definition world_after {O A} (m : Gen O A) (w : World) : World := snd (m w).

Declare Scope gen_scope.
Delimit Scope gen_scope with gen.
Notation "'let*' x ':=' m 'in' k" := (bind m (fun x => k))
  (at level 10, x name, m at level 100, k at level 200) : gen_scope.
Notation "m ;; k" := (bind m (fun _ => k))
  (at level 100, k at level 200, right associativity) : gen_scope.

Section Oracles.

(** The value of the [n]-th call of [Date.now()]. *)
Variable clock : nat -> Z.
(** The value of the [n]-th call of [randomUUID()]. *)
Variable uuid : nat -> jsstring.

Definition Date_now {O} : Gen O Z :=
  fun w =>
    (clock (clock_reads w), [],
     {| clock_reads := S (clock_reads w);
        uuid_reads := uuid_reads w;
        run_calls := run_calls w |}).

Definition generateSessionId {O} : Gen O jsstring :=
  fun w =>
    (uuid (uuid_reads w), [],
     {| clock_reads := clock_reads w;
        uuid_reads := S (uuid_reads w);
        run_calls := run_calls w |}).

(** [adapter.run(prompt, options)], leaving a trace of the call, whether it
    returns or throws. *)
Definition invoke {O} (adapter : AgentAdapter) (prompt : jsstring)
    (options : option AgentOptions) : Gen O (Generator + thrown) :=
  fun w =>
    (run adapter prompt options, [],
     {| clock_reads := clock_reads w;
        uuid_reads := uuid_reads w;
        run_calls := run_calls w ++ [adapter_agent adapter] |}).

(** [createEvent(type, agent, payload, sessionId?)] *)
Definition createEvent {O} (ty agent : jsstring) (payload : Payload)
    (sessionId : option jsstring) : Gen O AgentEvent :=
  (let* now := Date_now in
   let* sid := match sessionId with
               | Some s => ret s
               | None => generateSessionId
               end in
   ret {| type := ty; agent := agent; timestamp := now; sessionId := sid;
          metadata := None; payload := payload |})%gen.

End Oracles.

End Events.

Import Events.

(* ===================================================================== *)
(** * The adapter registry ([src/registry.ts]) *)
(* ===================================================================== *)

Module AdapterRegistry.

Abbreviation t := (gmap jsstring AgentAdapter).

Definition get (adapters : t) (agent : jsstring) : option AgentAdapter :=
  adapters !! agent.

Definition register (adapters : t) (adapter : AgentAdapter) : t + thrown :=
  match adapters !! adapter_agent adapter with
  | Some _ =>
      inr (ErrorObject
             (lit "Adapter already registered for agent: "
                ++ adapter_agent adapter))
  | None => inl (<[adapter_agent adapter := adapter]> adapters)
  end.

Definition unregister (adapters : t) (agent : jsstring) : bool * t :=
  (bool_decide (is_Some (adapters !! agent)), delete agent adapters).

End AdapterRegistry.

(* ===================================================================== *)
(** * The drivers ([src/engine.ts]) *)
(* ===================================================================== *)

Module Engine.

Record ParallelTask := {
  adapter : AgentAdapter;
  prompt : jsstring;
  options : option AgentOptions;
}.

(** How [runAgent] ends once its stream is consumed: normally, or with an
    exception that reaches the caller. *)
Inductive Outcome :=
| Finished
| Raised (err : thrown).

(** Instants at which the state of the signal matters to [runAgent]:
    instant [0] is the call; pull number [k] is issued at [pull_instant k],
    where [raceAbort] reads [signal.aborted]; the adapter's promise settles
    at [settle_instant k], and [Promise.race] goes to the abort promise when
    the signal has tripped by then; the driver resumes from its [await] at
    [resume_instant k], where it reads [signal.aborted] again. *)
Definition pull_instant (k : nat) : nat := 3 * k + 1.
Definition settle_instant (k : nat) : nat := 3 * k + 2.
Definition resume_instant (k : nat) : nat := 3 * k + 3.

(** [raceAbort(promise, signal)] for pull number [k]: what the [await] of the
    driver gets.  A promise that settles before the signal trips wins the
    race, also when it rejects. *)
Definition raceAbort (promise : Settled) (signal : option AbortSignal)
    (k : nat) : Settled :=
  match signal with
  | None => promise
  | Some s =>
      if aborted s (pull_instant k) then Resolved IterDone
      else if aborted s (settle_instant k) then Resolved IterDone
      else promise
  end.

(** ** State of [runParallel] *)

Record AdapterState := {
  gen : Generator;
  state_agent : jsstring;
  startTime : Z;
  state_sessionId : jsstring;
  doneYielded : bool;
}.

(** [state.sessionId = sessionId] *)
Definition set_sessionId (state : AdapterState) (sid : jsstring)
    : AdapterState :=
  {| gen := gen state; state_agent := state_agent state;
     startTime := startTime state; state_sessionId := sid;
     doneYielded := doneYielded state |}.

(** [RaceResult]: [isError] is [Rejected], with its [error]; otherwise the
    [result]. *)
Record RaceResult := {
  index : nat;
  outcome : Settled;
}.

(** What [Promise.race([...pending.values(), abortPromise])] resolves with. *)
Inductive Winner :=
| Sentinel
| Settles (raceResult : RaceResult).

(** Which promise of a race settles first is decided by the environment: the
    abort promise, or the [k]-th pending promise (counted modulo the number
    of pending promises). *)
Inductive Choice :=
| AbortFirst
| PendingFirst (k : nat).

Definition nth_pending (pending : gmap nat RaceResult) (k : nat)
    : option RaceResult :=
  snd <$> map_to_list pending !! (k mod size pending)%nat.

(** The race of one turn.  The abort promise can only win once a signal has
    tripped.  [None]: nothing ever settles. *)
Definition race (pending : gmap nat RaceResult) (abortResolved : bool)
    (choice : Choice) : option Winner :=
  match choice with
  | AbortFirst =>
      if abortResolved then Some Sentinel
      else Settles <$> nth_pending pending 0
  | PendingFirst k => Settles <$> nth_pending pending k
  end.

(** Whether some collected signal has tripped by [instant].  For
    [runParallel], instant [0] is the call and turn [n] of the loop resumes
    from its race at instant [n + 1]. *)
Definition abort_resolved (signals : list AbortSignal) (instant : nat)
    : bool :=
  existsb (fun s => aborted s instant) signals.

(** [scheduleNext(index)]: pull the generator and park the promise. *)
Definition scheduleNext (index : nat) (states : list (option AdapterState))
    (pending : gmap nat RaceResult)
    : list (option AdapterState) * gmap nat RaceResult :=
  match states !! index with
  | Some (Some state) =>
      let (settled, gen') := next (gen state) in
      (<[index := Some {| gen := gen'; state_agent := state_agent state;
                          startTime := startTime state;
                          state_sessionId := state_sessionId state;
                          doneYielded := doneYielded state |}]> states,
       <[index := {| index := index; outcome := settled |}]> pending)
  | _ => (states, pending)
  end.

(** How [runParallel] ends: its loop completes, runs out of the turns it
    was given, waits for ever or reads a state that is not there; or an
    exception reaches the caller while the tasks are started. *)
Inductive LoopEnd :=
| Completed
| OutOfFuel
| Hangs
| TypeError
| Raises (err : thrown).

Definition zeroed_usage : Usage :=
  {| inputTokens := 0; outputTokens := 0; toolUses := 0;
     totalCostUsd := None |}.

Section Drivers.

Variable clock : nat -> Z.
Variable uuid : nat -> jsstring.

Local Open Scope gen_scope.

(** [makeSynthDone(agent, status, sessionId, startTime)]: the payload, with
    its own clock read, is built before [createEvent] stamps the event. *)
Definition makeSynthDone {O} (agent : jsstring) (status : DoneStatus)
    (sessionId : jsstring) (startTime : Z) : Gen O AgentEvent :=
  let* now := Date_now clock in
  createEvent clock uuid (lit "done") agent
    (DonePayload status None zeroed_usage (now - startTime))
    (Some sessionId).

(** [makeSynthError(agent, code, message, sessionId)] *)
Definition makeSynthError {O} (agent code message sessionId : jsstring)
    : Gen O AgentEvent :=
  createEvent clock uuid (lit "error") agent
    (ErrorPayload (Some code) message false) (Some sessionId).

(** One turn of the [while (true)] of [runAgent], for pull number [k] whose
    promise is [promise].  [again] is the next turn of the loop, entered with
    the updated [lastSessionId] and [doneYielded]; every other exit is a
    [return]. *)
Definition runAgent_turn (agent : jsstring) (signal : option AbortSignal)
    (startTime : Z) (promise : Settled) (k : nat)
    (lastSessionId : jsstring) (doneYielded : bool)
    (again : jsstring -> bool -> Gen AgentEvent unit) : Gen AgentEvent unit :=
  match raceAbort promise signal k with
  | Rejected err =>
      (* Adapter threw *)
      if negb doneYielded then
        let msg := error_text err in
        let* e := makeSynthError agent (lit "ADAPTER_ERROR") msg
                    lastSessionId in
        yield e ;;
        let* d := makeSynthDone agent error lastSessionId startTime in
        yield d
      else ret tt
  | Resolved result =>
      (* Check abort after awaiting *)
      if opt_aborted signal (resume_instant k) then
        if negb doneYielded then
          let* d := makeSynthDone agent interrupted lastSessionId
                      startTime in
          yield d
        else ret tt
      else
        match result with
        | IterDone =>
            (* Generator exhausted *)
            if negb doneYielded then
              let* e := makeSynthError agent (lit "MISSING_DONE")
                          (lit "Protocol violation: adapter completed without terminal event")
                          lastSessionId in
              yield e ;;
              let* d := makeSynthDone agent error lastSessionId startTime in
              yield d
            else ret tt
        | IterValue event =>
            if doneYielded then
              (* Suppress all post-done events *)
              again lastSessionId doneYielded
            else
              yield event ;;
              if decide (type event = lit "done") then ret tt
              else again (sessionId event) false
        end
  end.

(** The [while (true)] of [runAgent] over the adapter's generator, from pull
    number [k] on.  The promise of a pull is what [next] settles with.  The
    loop goes round again only after a pull that delivered an event, so the
    recursion is on the events the generator has left; an exhausted
    generator settles with [IterDone] or a rejection, after which the turn
    returns. *)
Fixpoint runAgent_loop (agent : jsstring) (signal : option AbortSignal)
    (startTime : Z) (events : list AgentEvent) (fin : Completion) (k : nat)
    (lastSessionId : jsstring) (doneYielded : bool)
    : Gen AgentEvent unit :=
  let gen := {| yields := events; completion := fin |} in
  match events with
  | _ :: rest =>
      runAgent_turn agent signal startTime (fst (next gen)) k
        lastSessionId doneYielded
        (runAgent_loop agent signal startTime rest fin (S k))
  | [] =>
      runAgent_turn agent signal startTime (fst (next gen)) k
        lastSessionId doneYielded
        (fun _ _ => ret tt)
  end.

(** [runAgent(agent, prompt, options, registry)] *)
Definition runAgent (agent prompt : jsstring)
    (options : option AgentOptions) (registry : AdapterRegistry.t)
    : Gen AgentEvent Outcome :=
  match AdapterRegistry.get registry agent with
  | None =>
      ret (Raised (ErrorObject
                     (lit "No adapter registered for agent: " ++ agent)))
  | Some adapter =>
      let* sessionId := generateSessionId uuid in
      let* startTime := Date_now clock in
      let signal := signal_of options in
      (* Short-circuit on pre-aborted signal: never call adapter.run() *)
      if opt_aborted signal 0 then
        let* d := makeSynthDone agent interrupted sessionId startTime in
        yield d ;;
        ret Finished
      else
        let lastSessionId := sessionId in
        let* called := invoke adapter prompt options in
        match called with
        | inr err =>
            (* the call is outside the [try] *)
            ret (Raised err)
        | inl gen =>
            runAgent_loop agent signal startTime (yields gen)
              (completion gen) 0 lastSessionId false ;;
            ret Finished
        end
  end.

(** ** [runParallel] *)

(** [yieldInterruptedAndCleanup()]: the synthesized terminals of the tasks
    that are still live, in task order ([i] is the index of the head of
    [states]). *)
Fixpoint yieldInterruptedAndCleanup (i : nat)
    (states : list (option AdapterState))
    : Gen (nat * AgentEvent) (list (nat * AgentEvent)) :=
  match states with
  | [] => ret []
  | state :: rest =>
      let* mine :=
        match state with
        | Some st =>
            if negb (doneYielded st) then
              let* d := makeSynthDone (state_agent st) interrupted
                          (state_sessionId st) (startTime st) in
              ret [(i, d)]
            else ret []
        | None => ret []
        end in
      let* others := yieldInterruptedAndCleanup (S i) rest in
      ret (mine ++ others)
  end.

(** The loop of [runParallel] iterates on promises, not on a data structure:
    it is given [fuel] turns.  [loop_bound] turns are enough for every task
    list (see [EngineFacts.runParallel_sessions]). *)
Fixpoint runParallel_loop (schedule : nat -> Choice)
    (signals : list AbortSignal) (fuel : nat) (n : nat)
    (states : list (option AdapterState)) (pending : gmap nat RaceResult)
    : Gen (nat * AgentEvent) LoopEnd :=
  match fuel with
  | O => ret OutOfFuel
  | S fuel' =>
      if (size pending =? 0)%nat then ret Completed
      else
        match race pending (abort_resolved signals (S n)) (schedule n) with
        | None => ret Hangs
        | Some Sentinel =>
            let* events := yieldInterruptedAndCleanup 0 states in
            yield_all events ;;
            ret Completed
        | Some (Settles raceResult) =>
            let index := index raceResult in
            let pending := delete index pending in
            match states !! index with
            | Some (Some state) =>
                match outcome raceResult with
                | Rejected err =>
                    (* Adapter threw *)
                    (if negb (doneYielded state) then
                       let msg := error_text err in
                       let* e := makeSynthError (state_agent state)
                                   (lit "ADAPTER_ERROR") msg
                                   (state_sessionId state) in
                       yield (index, e) ;;
                       let* d := makeSynthDone (state_agent state) error
                                   (state_sessionId state)
                                   (startTime state) in
                       yield (index, d)
                     else ret tt) ;;
                    runParallel_loop schedule signals fuel' (S n)
                      (<[index := None]> states) pending
                | Resolved IterDone =>
                    (* Generator exhausted *)
                    (if negb (doneYielded state) then
                       let* e := makeSynthError (state_agent state)
                                   (lit "MISSING_DONE")
                                   (lit "Protocol violation: adapter completed without terminal event")
                                   (state_sessionId state) in
                       yield (index, e) ;;
                       let* d := makeSynthDone (state_agent state) error
                                   (state_sessionId state)
                                   (startTime state) in
                       yield (index, d)
                     else ret tt) ;;
                    runParallel_loop schedule signals fuel' (S n)
                      (<[index := None]> states) pending
                | Resolved (IterValue event) =>
                    if doneYielded state then
                      (* Suppress post-done events *)
                      let (states, pending) :=
                        scheduleNext index states pending in
                      runParallel_loop schedule signals fuel' (S n)
                        states pending
                    else
                      let state := set_sessionId state (sessionId event) in
                      let states := <[index := Some state]> states in
                      yield (index, event) ;;
                      if decide (type event = lit "done") then
                        runParallel_loop schedule signals fuel' (S n)
                          (<[index := None]> states) pending
                      else
                        let (states, pending) :=
                          scheduleNext index states pending in
                        runParallel_loop schedule signals fuel' (S n)
                          states pending
                end
            | _ => ret TypeError
            end
        end
  end.

(** The pre-abort branch: one synthesized [done] per task, in task order. *)
Fixpoint interrupt_all (i : nat) (tasks : list ParallelTask)
    : Gen (nat * AgentEvent) unit :=
  match tasks with
  | [] => ret tt
  | task :: rest =>
      let* sid := generateSessionId uuid in
      let* start := Date_now clock in
      let* d := makeSynthDone (adapter_agent (adapter task)) interrupted
                  sid start in
      yield (i, d) ;;
      interrupt_all (S i) rest
  end.

(** [tasks.map((task) => ({ gen: task.adapter.run(...), ... }))]: the
    states, or the exception of the first call that throws; the tasks after
    it are not started. *)
Fixpoint start_states {O} (tasks : list ParallelTask)
    : Gen O (list (option AdapterState) + thrown) :=
  match tasks with
  | [] => ret (inl [])
  | task :: rest =>
      let* called := invoke (adapter task) (prompt task) (options task) in
      match called with
      | inr err => ret (inr err)
      | inl g =>
          let* start := Date_now clock in
          let* sid := generateSessionId uuid in
          let* started := start_states rest in
          match started with
          | inr err => ret (inr err)
          | inl states =>
              ret (inl (Some {| gen := g;
                                state_agent := adapter_agent (adapter task);
                                startTime := start; state_sessionId := sid;
                                doneYielded := false |} :: states))
          end
      end
  end.

(** The events a call of [run] has in store: those of its generator. *)
Definition events_in_store (called : Generator + thrown) : list AgentEvent :=
  match called with
  | inl g => yields g
  | inr _ => []
  end.

(** Turns that suffice for the loop: one per event a task can deliver, one
    for its completion, for every task. *)
Definition loop_bound (tasks : list ParallelTask) : nat :=
  S (foldr (fun task acc =>
              S (length (events_in_store
                           (run (adapter task) (prompt task)
                              (options task)))) + acc)%nat
       O tasks).

(** [runParallel(tasks)].  The events are paired with the index of the task
    they belong to; the pairing is an annotation, the stream the caller sees
    is [merged]. *)
Definition runParallel (schedule : nat -> Choice)
    (tasks : list ParallelTask) : Gen (nat * AgentEvent) LoopEnd :=
  if (length tasks =? 0)%nat then ret Completed
  else if existsb (fun t => opt_aborted (signal_of (options t)) 0) tasks then
    (* Short-circuit on pre-aborted signal: never call adapter.run() *)
    interrupt_all 0 tasks ;;
    ret Completed
  else
    let* started := start_states tasks in
    match started with
    | inr err =>
        (* [tasks.map] is outside the [try] *)
        ret (Raises err)
    | inl states =>
        let pending : gmap nat RaceResult := ∅ in
        (* Collect all abort signals *)
        let signals := omap (fun t => signal_of (options t)) tasks in
        (* Start initial promises *)
        let (states, pending) :=
          foldl (fun sp i => scheduleNext i (fst sp) (snd sp))
            (states, pending) (seq 0 (length states)) in
        runParallel_loop schedule signals (loop_bound tasks) 0 states pending
    end.

Definition merged (out : list (nat * AgentEvent)) : list AgentEvent :=
  map snd out.

(** The events of the merged stream that belong to task [i]. *)
Definition projection (i : nat) (out : list (nat * AgentEvent))
    : list AgentEvent :=
  map snd (filter (fun p => fst p = i) out).

End Drivers.

End Engine.

(* ===================================================================== *)
(** * Permission mapping of the Codex adapter ([src/adapters/codex.ts]) *)
(* ===================================================================== *)

Module Codex.

Inductive CodexSandboxMode :=
| danger_full_access
| workspace_write
| read_only.

Inductive CodexApprovalPolicy :=
| never
| untrusted
| on_request.

Record CodexPermissionOptions := {
  sandboxMode : CodexSandboxMode;
  approvalPolicy : CodexApprovalPolicy;
  networkAccessEnabled : bool;
}.

(** [value ?? 'ask'] *)
Definition normalizePermissionLevel (value : option PermissionLevel)
    : PermissionLevel :=
  match value with
  | Some level => level
  | None => ask
  end.

(** [Required<PermissionPolicy>] *)
Record NormalizedPolicy := {
  n_fileWrite : PermissionLevel;
  n_shellExecute : PermissionLevel;
  n_networkAccess : PermissionLevel;
}.

Definition normalizePermissions (policy : option PermissionPolicy)
    : NormalizedPolicy :=
  {| n_fileWrite :=
       normalizePermissionLevel (policy ≫= fileWrite);
     n_shellExecute :=
       normalizePermissionLevel (policy ≫= shellExecute);
     n_networkAccess :=
       normalizePermissionLevel (policy ≫= networkAccess) |}.

Definition is_level (a b : PermissionLevel) : bool :=
  match a, b with
  | allow, allow | ask, ask | deny, deny => true
  | _, _ => false
  end.

Definition mapPermissionsToCodexOptions (policy : option PermissionPolicy)
    : CodexPermissionOptions :=
  let normalized := normalizePermissions policy in
  let sandboxMode :=
    if is_level (n_fileWrite normalized) deny
       || is_level (n_shellExecute normalized) deny
    then read_only
    else if is_level (n_fileWrite normalized) allow
            && is_level (n_shellExecute normalized) allow
    then danger_full_access
    else workspace_write in
  let allAllow :=
    is_level (n_fileWrite normalized) allow
    && is_level (n_shellExecute normalized) allow
    && is_level (n_networkAccess normalized) allow in
  let anyAsk :=
    is_level (n_fileWrite normalized) ask
    || is_level (n_shellExecute normalized) ask
    || is_level (n_networkAccess normalized) ask in
  let approvalPolicy :=
    if allAllow then never
    else if anyAsk then untrusted
    else on_request in
  let networkAccessEnabled := is_level (n_networkAccess normalized) allow in
  {| sandboxMode := sandboxMode;
     approvalPolicy := approvalPolicy;
     networkAccessEnabled := networkAccessEnabled |}.

End Codex.

(* ===================================================================== *)
(** * The Gemini adapter ([src/adapters/gemini.ts]) *)
(* ===================================================================== *)

Module Gemini.

Import Ndjson.

Definition AGENT : jsstring := lit "gemini".

Definition DEFAULT_DONE_USAGE : Usage :=
  {| inputTokens := 0; outputTokens := 0; toolUses := 0;
     totalCostUsd := None |}.

Record CloseResult := {
  code : option Z;
  signal : option jsstring;
}.

Record GeminiToolConfig := {
  tc_allowedTools : list jsstring;
  tc_disallowedTools : list jsstring;
  tc_args : list jsstring;
}.

(** The child process as [run] observes it: its [stdout], the text its
    [stderr] has delivered by the time it closes, and how [closePromise]
    settles ([close] resolves it, the process's [error] event rejects it). *)
Record ChildProcess := {
  stdout : option Readable;
  stderr : jsstring;
  closePromise : CloseResult + thrown;
}.

(** What [run] meets outside itself. *)
Record Environment := {
  createSettingsOverride : option thrown;
  spawnProcess : ChildProcess + thrown;
  process_cwd : jsstring;
}.

(** ** Reading untyped values *)

Fixpoint lookup_field (fields : list (jsstring * value)) (name : jsstring)
    : value :=
  match fields with
  | [] => Undefined
  | (k, v) :: rest => if decide (k = name) then v else lookup_field rest name
  end.

(** [v.name] (also [v?.name]): a missing property, and any property of a
    value that is not an object, reads as [undefined]. *)
Definition get (v : value) (name : string) : value :=
  match v with
  | Obj fields => lookup_field fields (lit name)
  | _ => Undefined
  end.

(** [a ?? b] *)
Definition orElse {A} (a b : option A) : option A :=
  match a with
  | Some _ => a
  | None => b
  end.

Infix "??" := orElse (at level 45, right associativity).

Definition asString (v : value) : option jsstring :=
  match v with
  | Str s => if (0 <? length s)%nat then Some s else None
  | _ => None
  end.

Definition asStringArray (v : value) : list jsstring :=
  match v with
  | Arr items =>
      omap (fun item =>
              match item with
              | Str s => if (0 <? length s)%nat then Some s else None
              | Obj _ | Arr _ => asString (get item "name")
              | _ => None
              end) items
  | _ => []
  end.

Definition asRecord (v : value) : value :=
  match v with
  | Obj _ | Arr _ => v
  | _ => Obj []
  end.

Definition asNumber (v : value) : option Z :=
  match v with
  | Num (Finite z) => Some z
  | _ => None
  end.

(** [v === true] *)
Definition is_true (v : value) : bool :=
  match v with
  | Bool true => true
  | _ => false
  end.

Definition mapDoneStatus (rawStatus : option jsstring) : DoneStatus :=
  match rawStatus with
  | None => success
  | Some [] => success
  | Some rawStatus =>
      let status := toLowerCase rawStatus in
      if bool_decide (status = lit "success")
         || bool_decide (status = lit "completed")
         || bool_decide (status = lit "ok") then success
      else if bool_decide (status = lit "interrupted")
              || bool_decide (status = lit "cancelled")
              || bool_decide (status = lit "aborted") then interrupted
      else if bool_decide (status = lit "max_turns")
              || bool_decide (status = lit "maxturns") then max_turns
      else if bool_decide (status = lit "max_budget")
              || bool_decide (status = lit "maxbudget")
              || bool_decide (status = lit "budget_exceeded") then max_budget
      else if bool_decide (status = lit "error")
              || bool_decide (status = lit "failed") then error
      else success
  end.

Definition mapUsage (rawUsage : value) : Usage :=
  match rawUsage with
  | Obj _ | Arr _ =>
      let usage := rawUsage in
      {| inputTokens :=
           default 0 (asNumber (get usage "inputTokens")
                        ?? asNumber (get usage "input_tokens"));
         outputTokens :=
           default 0 (asNumber (get usage "outputTokens")
                        ?? asNumber (get usage "output_tokens"));
         toolUses :=
           default 0 (asNumber (get usage "toolUses")
                        ?? asNumber (get usage "tool_uses"));
         totalCostUsd :=
           asNumber (get usage "totalCostUsd")
             ?? asNumber (get usage "total_cost_usd") |}
  | _ => DEFAULT_DONE_USAGE
  end.

Definition loadSessionId (message : value) : option jsstring :=
  match message with
  | Obj _ | Arr _ =>
      asString (get message "sessionId")
        ?? asString (get message "session_id")
        ?? asString (get message "threadId")
        ?? asString (get message "thread_id")
        ?? asString (get (get message "session") "id")
        ?? asString (get (get message "thread") "id")
  | _ => None
  end.

Definition toErrorPayload (message : value) : Payload :=
  let top := asRecord message in
  let nested := asRecord (get top "error") in
  let code :=
    asString (get top "code")
      ?? asString (get nested "code")
      ?? asString (get nested "type") in
  let text :=
    default (lit "Gemini CLI error")
      (asString (get top "message") ?? asString (get nested "message")) in
  let recoverable :=
    is_true (get top "recoverable")
    || is_true (get top "retryable")
    || is_true (get nested "recoverable")
    || is_true (get nested "retryable") in
  ErrorPayload code text recoverable.

Definition mapExitCodeToDoneStatus (close : CloseResult) (aborted : bool)
    : DoneStatus :=
  if aborted || bool_decide (signal close = Some (lit "SIGTERM"))
  then interrupted
  else if bool_decide (code close = Some 0) then success
  else if bool_decide (code close = Some 53) then max_turns
  else if bool_decide (code close = Some 1)
          || bool_decide (code close = Some 42) then error
  else error.

(** [buildInitPayload(sourceEvent, options, toolConfig)]; [sourceEvent] is
    [Undefined] where the source passes [undefined]. *)
Definition buildInitPayload (process_cwd : jsstring) (sourceEvent : value)
    (options : option AgentOptions) (toolConfig : GeminiToolConfig)
    : Payload :=
  let sourceTools := asStringArray (get sourceEvent "tools") in
  let tools :=
    if (0 <? length sourceTools)%nat then sourceTools
    else if (0 <? length (tc_allowedTools toolConfig))%nat
    then tc_allowedTools toolConfig
    else [] in
  InitPayload
    (default (lit "unknown")
       ((options ≫= model) ?? asString (get sourceEvent "model")))
    (default process_cwd
       ((options ≫= cwd) ?? asString (get sourceEvent "cwd")))
    tools
    (Some (Obj
       [ (lit "toolsKnown",
          Bool ((0 <? length sourceTools)%nat
                || (0 <? length (tc_allowedTools toolConfig))%nat));
         (lit "toolsSource",
          Str (if (0 <? length sourceTools)%nat then lit "stream"
               else if (0 <? length (tc_allowedTools toolConfig))%nat
               then lit "configured"
               else lit "unavailable"));
         (lit "disallowedTools",
          Arr (map Str (tc_disallowedTools toolConfig))) ])).

(** ** Tool configuration *)

(** [CAPABILITY_TOOL_GROUPS], in key order. *)
Definition CAPABILITY_TOOL_GROUPS
    : list ((PermissionPolicy -> option PermissionLevel) * list jsstring) :=
  [ (fileWrite, [lit "edit"]);
    (shellExecute, [lit "ShellTool"]);
    (networkAccess, [lit "webfetch"]) ].

(** A [Set<string>]: its elements in insertion order, without repeats. *)
Definition set_add (s : list jsstring) (x : jsstring) : list jsstring :=
  if bool_decide (x ∈ s) then s else s ++ [x].

Definition set_delete (s : list jsstring) (x : jsstring) : list jsstring :=
  filter (fun y => y ≠ x) s.

(** The order of [Array.prototype.sort] without a comparator, on strings:
    by code units. *)
Fixpoint code_unit_lt (a b : jsstring) : bool :=
  match a, b with
  | _, [] => false
  | [], _ :: _ => true
  | x :: a', y :: b' =>
      if (x <? y)%N then true
      else if (y <? x)%N then false
      else code_unit_lt a' b'
  end.

Fixpoint insert_sorted (x : jsstring) (l : list jsstring) : list jsstring :=
  match l with
  | [] => [x]
  | y :: l' => if code_unit_lt y x then y :: insert_sorted x l' else x :: l
  end.

(** [[...set].sort()] *)
Definition sort (l : list jsstring) : list jsstring :=
  foldr insert_sorted [] l.

(** [l.join(',')] *)
Fixpoint join_comma (l : list jsstring) : jsstring :=
  match l with
  | [] => []
  | [x] => x
  | x :: rest => x ++ lit "," ++ join_comma rest
  end.

Definition mapPermissionsToGeminiToolConfig
    (policy : option PermissionPolicy)
    (allowedTools disallowedTools : option (list jsstring))
    : GeminiToolConfig :=
  let level_of (capability : PermissionPolicy -> option PermissionLevel) :=
    default ask (policy ≫= capability) in
  let allowed := foldl set_add [] (default [] allowedTools) in
  let disallowed := foldl set_add [] (default [] disallowedTools) in
  let (allowed, disallowed) :=
    foldl (fun sets group =>
             match level_of (fst group) with
             | allow => (foldl set_add (fst sets) (snd group), snd sets)
             | deny => (fst sets, foldl set_add (snd sets) (snd group))
             | ask => sets
             end)
      (allowed, disallowed) CAPABILITY_TOOL_GROUPS in
  let allowed :=
    if (0 <? length allowed)%nat then foldl set_delete allowed disallowed
    else allowed in
  let allowedTools := sort allowed in
  let disallowedTools := sort disallowed in
  {| tc_allowedTools := allowedTools;
     tc_disallowedTools := disallowedTools;
     tc_args := if (0 <? length allowedTools)%nat
                then [lit "--allowed-tools"; join_comma allowedTools]
                else [] |}.

(** The [toolConfig] of [mapAgentOptionsToGeminiCommand(prompt, options)];
    the command line it also builds goes to [spawnProcess]. *)
Definition toolConfig_of (options : option AgentOptions) : GeminiToolConfig :=
  mapPermissionsToGeminiToolConfig (options ≫= permissions)
    (options ≫= allowedTools) (options ≫= disallowedTools).

(** The variables of [run] that the loop over the parse results updates. *)
Record RunState := {
  sessionId : jsstring;
  doneYielded : bool;
  initYielded : bool;
}.

Section Run.

Variable JSON_parse : jsstring -> value + thrown.
Variable utf8_toString : list N -> jsstring.
Variable String_of : value -> jsstring.
Variable clock : nat -> Z.
Variable uuid : nat -> jsstring.

Local Open Scope gen_scope.

Definition parseToolInput (v : value) : value :=
  match v with
  | Str s =>
      match JSON_parse s with
      | inl parsed => asRecord parsed
      | inr _ => Obj [(lit "raw", v)]
      end
  | _ => asRecord v
  end.

(** [a ?? b ?? c] on values: the first that is neither [undefined] nor
    [null]. *)
Fixpoint first_defined (vs : list value) (fallback : value) : value :=
  match vs with
  | [] => fallback
  | Undefined :: rest | Null :: rest => first_defined rest fallback
  | v :: _ => v
  end.

Variable env : Environment.
Variable toolConfig : GeminiToolConfig.
Variable options : option AgentOptions.
Variable startTime : Z.

(** [if (!initYielded) { yield createEvent('init', ...); initYielded = true }] *)
Definition ensure_init (sourceEvent : value) (st : RunState)
    : Gen AgentEvent RunState :=
  if negb (initYielded st) then
    let* e := createEvent clock uuid (lit "init") AGENT
                (buildInitPayload (process_cwd env) sourceEvent options
                   toolConfig)
                (Some (sessionId st)) in
    yield e ;;
    ret {| sessionId := sessionId st; doneYielded := doneYielded st;
           initYielded := true |}
  else ret st.

(** [toolUseId]: the first of the three names that holds a string, else a
    fresh id. *)
Definition toolUseId_of (message : value) : Gen AgentEvent jsstring :=
  match asString (get message "toolUseId")
          ?? asString (get message "id")
          ?? asString (get message "callId") with
  | Some id => ret id
  | None => generateSessionId uuid
  end.

(** The body of [for await (const parsed of parseNDJSON(...))]. *)
Definition on_parsed (parsed : NDJSONParseResult) (st : RunState)
    : Gen AgentEvent RunState :=
  match parsed with
  | Fail perror raw =>
      let* st := ensure_init Undefined st in
      (if negb (doneYielded st) then
         let* e := createEvent clock uuid (lit "error") AGENT
                     (ErrorPayload (Some (lit "NDJSON_PARSE_ERROR"))
                        (lit "Failed to parse NDJSON line: " ++ perror
                           ++ lit "; raw: " ++ raw)
                        true)
                     (Some (sessionId st)) in
         yield e
       else ret tt) ;;
      ret st
  | Ok data =>
      let message := asRecord data in
      let st := {| sessionId := default (sessionId st) (loadSessionId data);
                   doneYielded := doneYielded st;
                   initYielded := initYielded st |} in
      match asString (get message "type") with
      | None => ret st
      | Some eventType =>
          if decide (eventType = lit "init") then ensure_init message st
          else
            let* st := ensure_init message st in
            if doneYielded st then ret st
            else if decide (eventType = lit "message") then
              match asString (get message "content")
                      ?? asString (get message "text")
                      ?? asString (get message "message") with
              | Some content =>
                  let* e := createEvent clock uuid (lit "text") AGENT
                              (TextPayload content) (Some (sessionId st)) in
                  yield e ;;
                  ret st
              | None => ret st
              end
            else if decide (eventType = lit "tool_use") then
              let toolName :=
                default (lit "unknown_tool")
                  (asString (get message "toolName")
                     ?? asString (get message "name")) in
              let* toolUseId := toolUseId_of message in
              let* e := createEvent clock uuid (lit "tool_use") AGENT
                          (ToolUsePayload toolName toolUseId
                             (parseToolInput
                                (first_defined
                                   [get message "input"; get message "args"]
                                   (get message "arguments")))
                             None)
                          (Some (sessionId st)) in
              yield e ;;
              ret st
            else if decide (eventType = lit "tool_result") then
              let statusText :=
                toLowerCase <$> asString (get message "status") in
              let status :=
                if bool_decide (statusText = Some (lit "denied"))
                then tool_denied
                else if is_true (get message "isError")
                        || is_true (get message "is_error")
                        || bool_decide (statusText = Some (lit "error"))
                then tool_error
                else tool_success in
              let toolName :=
                default (lit "unknown_tool")
                  (asString (get message "toolName")
                     ?? asString (get message "name")) in
              let* toolUseId := toolUseId_of message in
              let* e := createEvent clock uuid (lit "tool_result") AGENT
                          (ToolResultPayload toolUseId toolName status
                             (first_defined
                                [get message "output"; get message "result";
                                 get message "content"]
                                Null)
                             (asNumber (get message "durationMs")
                                ?? asNumber (get message "duration_ms")))
                          (Some (sessionId st)) in
              yield e ;;
              ret st
            else if decide (eventType = lit "error") then
              let* e := createEvent clock uuid (lit "error") AGENT
                          (toErrorPayload message) (Some (sessionId st)) in
              yield e ;;
              ret st
            else if decide (eventType = lit "result") then
              let* durationMs :=
                match asNumber (get message "durationMs")
                        ?? asNumber (get message "duration_ms") with
                | Some d => ret d
                | None => let* now := Date_now clock in ret (now - startTime)
                end in
              let* e := createEvent clock uuid (lit "done") AGENT
                          (DonePayload
                             (mapDoneStatus (asString (get message "status")))
                             (asString (get message "result"))
                             (mapUsage (get message "usage"))
                             durationMs)
                          (Some (sessionId st)) in
              yield e ;;
              ret {| sessionId := sessionId st; doneYielded := true;
                     initYielded := initYielded st |}
            else ret st
      end
  end.

Fixpoint on_all_parsed (results : list NDJSONParseResult) (st : RunState)
    : Gen AgentEvent RunState :=
  match results with
  | [] => ret st
  | parsed :: rest =>
      let* st := on_parsed parsed st in
      on_all_parsed rest st
  end.

(** The [try] block of [run]: the variables as it leaves them, and the
    exception it is left with, if any.  [abortRequested] is the flag as it
    stands when the process has closed. *)
Definition run_try (abortRequested : bool) (st : RunState)
    : Gen AgentEvent (RunState * option thrown) :=
  match createSettingsOverride env with
  | Some err => ret (st, Some err)
  | None =>
      match spawnProcess env with
      | inr err => ret (st, Some err)
      | inl child =>
          match stdout child with
          | None =>
              ret (st,
                   Some (ErrorObject
                     (lit "Gemini CLI process does not expose stdout stream")))
          | Some stream =>
              let (results, failure) :=
                parseNDJSON JSON_parse utf8_toString String_of stream in
              let* st := on_all_parsed results st in
              match failure with
              | Some err => ret (st, Some err)
              | None =>
                  match closePromise child with
                  | inr err => ret (st, Some err)
                  | inl close =>
                      let* st := ensure_init Undefined st in
                      (if negb (doneYielded st) then
                         let status :=
                           mapExitCodeToDoneStatus close abortRequested in
                         let* now := Date_now clock in
                         let* e :=
                           createEvent clock uuid (lit "done") AGENT
                             (DonePayload status
                                (if bool_decide (status = error)
                                    && (0 <? length (trim (stderr child)))%nat
                                 then Some (trim (stderr child))
                                 else None)
                                DEFAULT_DONE_USAGE (now - startTime))
                             (Some (sessionId st)) in
                         yield e
                       else ret tt) ;;
                      ret (st, None)
                  end
              end
          end
      end
  end.

(** The [catch (error)] block of [run]. *)
Definition run_catch (abortRequested : bool) (err : thrown) (st : RunState)
    : Gen AgentEvent unit :=
  let* st := ensure_init Undefined st in
  if negb (doneYielded st) then
    if abortRequested then
      let* now := Date_now clock in
      let* e := createEvent clock uuid (lit "done") AGENT
                  (DonePayload interrupted None DEFAULT_DONE_USAGE
                     (now - startTime))
                  (Some (sessionId st)) in
      yield e
    else
      let* e := createEvent clock uuid (lit "error") AGENT
                  (ErrorPayload (Some (lit "GEMINI_STREAM_ERROR"))
                     match err with
                     | ErrorObject message => message
                     | NonError _ =>
                         lit "Gemini adapter failed while reading stream"
                     end
                     false)
                  (Some (sessionId st)) in
      yield e ;;
      let* now := Date_now clock in
      let* d := createEvent clock uuid (lit "done") AGENT
                  (DonePayload error None DEFAULT_DONE_USAGE
                     (now - startTime))
                  (Some (sessionId st)) in
      yield d
  else ret tt.

End Run.

(** The instant at which [run] has seen the process close or has caught an
    exception; instant [0] is the call.  The flag [abortRequested] is set at
    the call when the token is already tripped and by the [abort] listener
    afterwards, so at any instant it reads as the token does. *)
Definition end_instant : nat := 1.

(** [GeminiAdapter.run(prompt, options)] *)
Definition run (JSON_parse : jsstring -> value + thrown)
    (utf8_toString : list N -> jsstring) (String_of : value -> jsstring)
    (clock : nat -> Z) (uuid : nat -> jsstring)
    (env : Environment) (options : option AgentOptions)
    : Gen AgentEvent unit :=
  (let toolConfig := toolConfig_of options in
   let* startTime := Date_now clock in
   let* sid := match options ≫= resume with
               | Some r => ret r
               | None => generateSessionId uuid
               end in
   let st := {| sessionId := sid; doneYielded := false;
                initYielded := false |} in
   let abortRequested := opt_aborted (signal_of options) end_instant in
   let* r := run_try JSON_parse utf8_toString String_of clock uuid env
               toolConfig options startTime abortRequested st in
   match r with
   | (_, None) => ret tt
   | (st, Some err) =>
       run_catch clock uuid env toolConfig options startTime
         (abortRequested || opt_aborted (signal_of options) end_instant)
         err st
   end)%gen.

End Gemini.

(* ===================================================================== *)
(** * The Codex adapter ([src/adapters/codex.ts]) *)
(* ===================================================================== *)

Module CodexAdapter.

(** [codex.ts] repeats these helpers of [gemini.ts] word for word. *)
Local Abbreviation get := Gemini.get.
Local Abbreviation asString := Gemini.asString.
Local Abbreviation asStringArray := Gemini.asStringArray.
Local Abbreviation asRecord := Gemini.asRecord.
Local Abbreviation asNumber := Gemini.asNumber.
Local Abbreviation is_true := Gemini.is_true.
Local Abbreviation mapDoneStatus := Gemini.mapDoneStatus.
Local Abbreviation mapUsage := Gemini.mapUsage.
Local Abbreviation loadSessionId := Gemini.loadSessionId.
Local Abbreviation parseToolInput := Gemini.parseToolInput.
Local Abbreviation first_defined := Gemini.first_defined.
Local Infix "??" := Gemini.orElse (at level 45, right associativity).

Definition AGENT : jsstring := lit "codex".

Definition DEFAULT_DONE_USAGE : Usage :=
  {| inputTokens := 0; outputTokens := 0; toolUses := 0;
     totalCostUsd := None |}.

(** ** The SDK, as [run] meets it *)

(** What [thread.runStreamed(...)] or [thread.run(...)] returns: [null] or
    [undefined], some other value that is not async iterable, or a stream.
    A stream delivers [rawEvents] and then ends or throws; [closing] is what
    its [return()] throws, if anything, when the [for await] is left
    early. *)
Inductive StreamResult :=
| Nullish
| NotAsyncIterable
| AsyncIterable (rawEvents : list value) (ending : Completion)
    (closing : option thrown).

(** A method that is absent, or that returns or throws when called. *)
Record CodexThread := {
  runStreamed : option (StreamResult + thrown);
  thread_run : option (StreamResult + thrown);
}.

Record CodexClient := {
  startThread : CodexThread + thrown;
  resumeThread : option (CodexThread + thrown);
}.

(** [new sdk.Codex()] *)
Record CodexSdk := {
  new_Codex : CodexClient + thrown;
}.

Record Environment := {
  loadSdk : CodexSdk + thrown;
  process_cwd : jsstring;
}.

(** ** Options *)

Record CodexThreadOptions := {
  to_cwd : option jsstring;
  to_model : option jsstring;
  to_maxTurns : option Z;
  to_sandboxMode : Codex.CodexSandboxMode;
  to_approvalPolicy : Codex.CodexApprovalPolicy;
  to_networkAccessEnabled : bool;
  to_allowedTools : option (list jsstring);
  to_disallowedTools : option (list jsstring);
  to_abortSignal : option AbortSignal;
  to_signal : option AbortSignal;
}.

Record CodexRunOptions := {
  ro_signal : option AbortSignal;
  ro_abortSignal : option AbortSignal;
}.

Record MappedCodexOptions := {
  threadOptions : CodexThreadOptions;
  runOptions : CodexRunOptions;
}.

(** [mapAgentOptionsToCodexOptions(options)].  The signal handed to the SDK
    is that of a fresh controller which is aborted at once when the caller's
    token is already tripped and by a listener when it trips later: at every
    instant it reads as the caller's token does. *)
Definition mapAgentOptionsToCodexOptions (options : option AgentOptions)
    : MappedCodexOptions :=
  let permissions :=
    Codex.mapPermissionsToCodexOptions (options ≫= permissions) in
  let signal := signal_of options in
  {| threadOptions :=
       {| to_cwd := options ≫= cwd;
          to_model := options ≫= model;
          to_maxTurns := options ≫= maxTurns;
          to_sandboxMode := Codex.sandboxMode permissions;
          to_approvalPolicy := Codex.approvalPolicy permissions;
          to_networkAccessEnabled := Codex.networkAccessEnabled permissions;
          to_allowedTools := options ≫= allowedTools;
          to_disallowedTools := options ≫= disallowedTools;
          to_abortSignal := signal;
          to_signal := signal |};
     runOptions := {| ro_signal := signal; ro_abortSignal := signal |} |}.

(** ** Items *)

Inductive NormalizedItemEvent :=
| NText (content : jsstring)
| NToolUse (toolName toolUseId : jsstring) (input : value)
| NToolResult (toolName toolUseId : jsstring) (status : ToolResultStatus)
    (output : value) (durationMs : option Z)
| NFileChange (payload : value).

Definition is_tool_use_type (t : option jsstring) : bool :=
  bool_decide (t = Some (lit "tool_call"))
  || bool_decide (t = Some (lit "function_call"))
  || bool_decide (t = Some (lit "tool_use")).

Definition is_tool_result_type (t : option jsstring) : bool :=
  bool_decide (t = Some (lit "tool_result"))
  || bool_decide (t = Some (lit "function_call_result"))
  || bool_decide (t = Some (lit "tool_output")).

Definition is_file_change_type (t : option jsstring) : bool :=
  bool_decide (t = Some (lit "file_change"))
  || bool_decide (t = Some (lit "file.changed")).

Definition is_text_type (t : option jsstring) : bool :=
  bool_decide (t = Some (lit "text"))
  || bool_decide (t = Some (lit "output_text"))
  || bool_decide (t = Some (lit "message_text")).

Definition toErrorPayload (message : value) : Payload :=
  let top := asRecord message in
  let nested := asRecord (get top "error") in
  let code :=
    asString (get top "code")
      ?? asString (get nested "code")
      ?? asString (get nested "type") in
  let text :=
    default (lit "Codex SDK error")
      (asString (get top "message") ?? asString (get nested "message")) in
  let recoverable :=
    is_true (get top "recoverable")
    || is_true (get top "retryable")
    || is_true (get nested "recoverable")
    || is_true (get nested "retryable") in
  ErrorPayload code text recoverable.

(** The variables of [run] that the loop over the raw events updates;
    [doneYielded] is set only on the way out of the loop. *)
Record RunState := {
  sessionId : jsstring;
  initYielded : bool;
}.

Section Run.

Variable JSON_parse : jsstring -> value + thrown.
Variable clock : nat -> Z.
Variable uuid : nat -> jsstring.

Local Open Scope gen_scope.

Definition toolName_of (source : value) : jsstring :=
  default (lit "unknown_tool")
    (asString (get source "toolName") ?? asString (get source "name")).

Definition toolUseId_of {O} (source : value) : Gen O jsstring :=
  match asString (get source "toolUseId")
          ?? asString (get source "callId")
          ?? asString (get source "tool_call_id")
          ?? asString (get source "id") with
  | Some id => ret id
  | None => generateSessionId uuid
  end.

Definition pushToolUse {O} (source : value) : Gen O NormalizedItemEvent :=
  let* toolUseId := toolUseId_of source in
  ret (NToolUse (toolName_of source) toolUseId
         (parseToolInput JSON_parse
            (first_defined [get source "input"; get source "arguments"]
               (get source "args")))).

Definition pushToolResult {O} (source : value) : Gen O NormalizedItemEvent :=
  let statusText := toLowerCase <$> asString (get source "status") in
  let status :=
    if bool_decide (statusText = Some (lit "denied")) then tool_denied
    else if is_true (get source "isError")
            || is_true (get source "is_error")
            || bool_decide (statusText = Some (lit "error"))
    then tool_error
    else tool_success in
  let* toolUseId := toolUseId_of source in
  ret (NToolResult (toolName_of source) toolUseId status
         (first_defined
            [get source "output"; get source "result"; get source "content"]
            Null)
         (asNumber (get source "durationMs")
            ?? asNumber (get source "duration_ms"))).

(** The [for (const blockRaw of content)] of [parseItemCompleted]: the
    events of the blocks, and [hasContentTextBlock]. *)
Fixpoint parseBlocks {O} (content : list value) (hasContentTextBlock : bool)
    : Gen O (list NormalizedItemEvent * bool) :=
  match content with
  | [] => ret ([], hasContentTextBlock)
  | blockRaw :: rest =>
      let block := asRecord blockRaw in
      let blockType := asString (get block "type") in
      let* mine :=
        if is_text_type blockType then
          match asString (get block "text") with
          | Some text => ret ([NText text], true)
          | None => ret ([], hasContentTextBlock)
          end
        else if is_tool_use_type blockType then
          let* e := pushToolUse block in
          ret ([e], hasContentTextBlock)
        else if is_tool_result_type blockType then
          let* e := pushToolResult block in
          ret ([e], hasContentTextBlock)
        else if is_file_change_type blockType then
          ret ([NFileChange (first_defined [get block "file"] block)],
               hasContentTextBlock)
        else ret ([], hasContentTextBlock) in
      let* others := parseBlocks rest (snd mine) in
      ret (fst mine ++ fst others, snd others)
  end.

Definition parseItemCompleted {O} (itemRaw : value)
    : Gen O (list NormalizedItemEvent) :=
  let item := asRecord itemRaw in
  let content :=
    match get item "content" with
    | Arr items => items
    | _ => []
    end in
  let topText := asString (get item "text") in
  let itemType := asString (get item "type") in
  let hasContentBlocks := (0 <? length content)%nat in
  if negb hasContentBlocks then
    let texts :=
      match topText with
      | Some text => [NText text]
      | None => []
      end in
    let* uses :=
      if is_tool_use_type itemType then
        let* e := pushToolUse item in ret [e]
      else ret [] in
    let* results :=
      if is_tool_result_type itemType then
        let* e := pushToolResult item in ret [e]
      else ret [] in
    let changes :=
      if is_file_change_type itemType
      then [NFileChange (first_defined [get item "file"] item)]
      else [] in
    ret (texts ++ uses ++ results ++ changes)
  else
    let* blocks := parseBlocks content false in
    let (contentEvents, hasContentTextBlock) := blocks in
    ret (match topText with
         | Some text =>
             if negb hasContentTextBlock then [NText text] else []
         | None => []
         end ++ contentEvents).

Variable env : Environment.
Variable options : option AgentOptions.
Variable startTime : Z.

(** The [buildInitPayload] closure of [run]; [sourceEvent] is [Undefined]
    where the source passes nothing. *)
Definition buildInitPayload (sourceEvent : value) : Payload :=
  let hasConfiguredAllowedTools :=
    match options ≫= allowedTools with
    | Some (_ :: _) => true
    | _ => false
    end in
  let configuredAllowedTools :=
    if hasConfiguredAllowedTools then default [] (options ≫= allowedTools)
    else [] in
  let sourceSession := asRecord (get sourceEvent "session") in
  let sourceTurn := asRecord (get sourceEvent "turn") in
  let eventTools := asStringArray (get sourceEvent "tools") in
  let sessionTools := asStringArray (get sourceSession "tools") in
  let turnTools := asStringArray (get sourceTurn "tools") in
  let inferredTools :=
    if (0 <? length eventTools)%nat then eventTools
    else if (0 <? length sessionTools)%nat then sessionTools
    else turnTools in
  let tools :=
    if hasConfiguredAllowedTools then configuredAllowedTools
    else if (0 <? length inferredTools)%nat then inferredTools
    else [] in
  InitPayload
    (default (lit "unknown")
       ((options ≫= model) ?? asString (get sourceEvent "model")))
    (default (process_cwd env)
       ((options ≫= cwd) ?? asString (get sourceEvent "cwd")))
    tools
    (Some (Obj
       [ (lit "toolsKnown",
          Bool (hasConfiguredAllowedTools
                || (0 <? length inferredTools)%nat));
         (lit "toolsSource",
          Str (if hasConfiguredAllowedTools then lit "allowedTools"
               else if (0 <? length inferredTools)%nat then lit "sdk"
               else lit "unavailable")) ])).

(** [if (!initYielded) { yield createEvent('init', ...); initYielded = true }] *)
Definition ensure_init (sourceEvent : value) (st : RunState)
    : Gen AgentEvent RunState :=
  if negb (initYielded st) then
    let* e := createEvent clock uuid (lit "init") AGENT
                (buildInitPayload sourceEvent) (Some (sessionId st)) in
    yield e ;;
    ret {| sessionId := sessionId st; initYielded := true |}
  else ret st.

(** [for (const itemEvent of itemEvents) yield createEvent(...)] *)
Fixpoint yield_items (itemEvents : list NormalizedItemEvent)
    (sid : jsstring) : Gen AgentEvent unit :=
  match itemEvents with
  | [] => ret tt
  | itemEvent :: rest =>
      let* e :=
        match itemEvent with
        | NText content =>
            createEvent clock uuid (lit "text") AGENT (TextPayload content)
              (Some sid)
        | NToolUse toolName toolUseId input =>
            createEvent clock uuid (lit "tool_use") AGENT
              (ToolUsePayload toolName toolUseId input None) (Some sid)
        | NToolResult toolName toolUseId status output durationMs =>
            createEvent clock uuid (lit "tool_result") AGENT
              (ToolResultPayload toolUseId toolName status output durationMs)
              (Some sid)
        | NFileChange payload =>
            createEvent clock uuid (lit "codex:file_change") AGENT
              (ExtensionPayload payload) (Some sid)
        end in
      yield e ;;
      yield_items rest sid
  end.

(** The body of [for await (const rawEvent of runStream)]: the variables as
    it leaves them, and whether it left by [return]. *)
Definition on_event (rawEvent : value) (st : RunState)
    : Gen AgentEvent (RunState * bool) :=
  let st := {| sessionId := default (sessionId st) (loadSessionId rawEvent);
               initYielded := initYielded st |} in
  let event := asRecord rawEvent in
  let* st := ensure_init event st in
  match asString (get event "type") with
  | None => ret (st, false)
  | Some eventType =>
      if decide (eventType = lit "item.completed") then
        let* itemEvents := parseItemCompleted (get event "item") in
        yield_items itemEvents (sessionId st) ;;
        ret (st, false)
      else if bool_decide (eventType = lit "file_change")
              || bool_decide (eventType = lit "file.changed")
              || bool_decide (eventType = lit "item.file_change") then
        let payload :=
          first_defined
            [get event "file"; get event "change"; get event "item"] event in
        let* e := createEvent clock uuid (lit "codex:file_change") AGENT
                    (ExtensionPayload payload) (Some (sessionId st)) in
        yield e ;;
        ret (st, false)
      else if decide (eventType = lit "error") then
        let* e := createEvent clock uuid (lit "error") AGENT
                    (toErrorPayload event) (Some (sessionId st)) in
        yield e ;;
        ret (st, false)
      else if decide (eventType = lit "turn.completed") then
        let turn := asRecord (get event "turn") in
        let status :=
          mapDoneStatus
            (asString (get turn "status") ?? asString (get event "status")) in
        let* durationMs :=
          match asNumber (get turn "durationMs")
                  ?? asNumber (get turn "duration_ms")
                  ?? asNumber (get event "durationMs")
                  ?? asNumber (get event "duration_ms") with
          | Some d => ret d
          | None => let* now := Date_now clock in ret (now - startTime)
          end in
        let* e := createEvent clock uuid (lit "done") AGENT
                    (DonePayload status
                       (asString (get turn "result")
                          ?? asString (get event "result"))
                       (mapUsage
                          (first_defined [get turn "usage"]
                             (get event "usage")))
                       durationMs)
                    (Some (sessionId st)) in
        yield e ;;
        ret (st, true)
      else ret (st, false)
  end.

Fixpoint on_events (rawEvents : list value) (st : RunState)
    : Gen AgentEvent (RunState * bool) :=
  match rawEvents with
  | [] => ret (st, false)
  | rawEvent :: rest =>
      let* r := on_event rawEvent st in
      if snd r then ret r else on_events rest (fst r)
  end.

(** The synthesized end of a stream that was cancelled. *)
Definition yield_interrupted (st : RunState) : Gen AgentEvent unit :=
  let* now := Date_now clock in
  let* d := createEvent clock uuid (lit "done") AGENT
              (DonePayload interrupted None DEFAULT_DONE_USAGE
                 (now - startTime))
              (Some (sessionId st)) in
  yield d.

(** An error event with [recoverable: false], then [done{error}]. *)
Definition yield_failed (code message : jsstring) (st : RunState)
    : Gen AgentEvent unit :=
  let* e := createEvent clock uuid (lit "error") AGENT
              (ErrorPayload (Some code) message false)
              (Some (sessionId st)) in
  yield e ;;
  let* now := Date_now clock in
  let* d := createEvent clock uuid (lit "done") AGENT
              (DonePayload error None DEFAULT_DONE_USAGE (now - startTime))
              (Some (sessionId st)) in
  yield d.

(** What follows the loop when the stream ends without [turn.completed]. *)
Definition after_loop (aborted : bool) (st : RunState)
    : Gen AgentEvent unit :=
  let* st := ensure_init Undefined st in
  if aborted then yield_interrupted st
  else
    yield_failed (lit "MISSING_TURN_DONE")
      (lit "Protocol violation: Codex stream ended without turn.completed")
      st.

(** The [catch (error)] block of [run]. *)
Definition run_catch (aborted : bool) (err : thrown) (st : RunState)
    : Gen AgentEvent unit :=
  let* st := ensure_init Undefined st in
  if aborted then yield_interrupted st
  else
    yield_failed (lit "SDK_STREAM_ERROR")
      match err with
      | ErrorObject message => message
      | NonError _ => lit "Codex adapter failed during stream"
      end
      st.

End Run.

(** What [run] does before its [try]: load the SDK, make the client, start
    or resume the thread, ask it for its stream.  Any failure here leaves
    [run] as an exception. *)
Definition open_stream (env : Environment) (options : option AgentOptions)
    : (list value * Completion * option thrown) + thrown :=
  match loadSdk env with
  | inr _ =>
      inr (ErrorObject
             (lit "CodexAdapter requires @openai/codex-sdk. Install it to use this adapter."))
  | inl sdk =>
      match new_Codex sdk with
      | inr err => inr err
      | inl codex =>
          let thread :=
            match options ≫= resume with
            | Some (_ :: _) =>
                (* [options.resume] is a string that is not empty *)
                match resumeThread codex with
                | None =>
                    inr (ErrorObject
                           (lit "Codex SDK does not support resumeThread() in this version"))
                | Some thread => thread
                end
            | _ => startThread codex
            end in
          match thread with
          | inr err => inr err
          | inl thread =>
              let second :=
                match thread_run thread with
                | Some r => r
                | None => inl Nullish
                end in
              let runStream :=
                match runStreamed thread with
                | Some (inl Nullish) | None => second
                | Some r => r
                end in
              match runStream with
              | inr err => inr err
              | inl (AsyncIterable rawEvents ending closing) =>
                  inl (rawEvents, ending, closing)
              | inl _ =>
                  inr (ErrorObject
                         (lit "Codex thread does not provide an async event stream"))
              end
          end
      end
  end.

(** The instant at which [run] has seen its stream end; instant [0] is the
    call. *)
Definition end_instant : nat := 1.

(** [CodexAdapter.run(prompt, options)]: the events it yields, and whether
    the generator returns or throws. *)
Definition run (JSON_parse : jsstring -> value + thrown)
    (clock : nat -> Z) (uuid : nat -> jsstring)
    (env : Environment) (options : option AgentOptions)
    : Gen AgentEvent Completion :=
  (match open_stream env options with
   | inr err => ret (Throws err)
   | inl (rawEvents, ending, closing) =>
       let mapped := mapAgentOptionsToCodexOptions options in
       let* sid := match options ≫= resume with
                   | Some r => ret r
                   | None => generateSessionId uuid
                   end in
       let* startTime := Date_now clock in
       let st := {| sessionId := sid; initYielded := false |} in
       let aborted :=
         opt_aborted (to_abortSignal (threadOptions mapped)) end_instant
         || opt_aborted (to_signal (threadOptions mapped)) end_instant in
       let* r := on_events JSON_parse clock uuid env options startTime
                   rawEvents st in
       (if snd r then
          (* [return] inside the loop closes the stream *)
          match closing with
          | None => ret tt
          | Some err =>
              run_catch clock uuid env options startTime aborted err (fst r)
          end
        else
          match ending with
          | Returns =>
              after_loop clock uuid env options startTime aborted (fst r)
          | Throws err =>
              run_catch clock uuid env options startTime aborted err (fst r)
          end) ;;
       ret Returns
   end)%gen.

End CodexAdapter.

(* ===================================================================== *)
(** * The registry class, with the order of its [Map] ([src/registry.ts]) *)
(* ===================================================================== *)

(** The drivers only look adapters up, for which the finite map of
    [AdapterRegistry] is enough.  [list()] also shows the insertion order of
    the [Map] behind the class, which this model keeps: the entries in
    insertion order, each key once. *)
Module RegistryClass.

Abbreviation t := (list (jsstring * AgentAdapter)).

(** [Map.prototype.has] *)
Definition Map_has (adapters : t) (key : jsstring) : bool :=
  bool_decide (key ∈ adapters.*1).

(** [Map.prototype.get] *)
Fixpoint Map_get (adapters : t) (key : jsstring) : option AgentAdapter :=
  match adapters with
  | [] => None
  | (k, v) :: rest => if decide (k = key) then Some v else Map_get rest key
  end.

(** [Map.prototype.set]: a present key keeps its place, a new key goes
    last. *)
Definition Map_set (adapters : t) (key : jsstring) (v : AgentAdapter) : t :=
  if Map_has adapters key
  then (fun entry => if decide (entry.1 = key) then (key, v) else entry)
         <$> adapters
  else adapters ++ [(key, v)].

(** [Map.prototype.delete]: whether the key was present, and the map
    without it. *)
Definition Map_delete (adapters : t) (key : jsstring) : bool * t :=
  (Map_has adapters key, filter (fun entry => entry.1 <> key) adapters).

Definition register (adapters : t) (adapter : AgentAdapter) : t + thrown :=
  if Map_has adapters (adapter_agent adapter) then
    inr (ErrorObject
           (lit "Adapter already registered for agent: "
              ++ adapter_agent adapter))
  else inl (Map_set adapters (adapter_agent adapter) adapter).

Definition get (adapters : t) (agent : jsstring) : option AgentAdapter :=
  Map_get adapters agent.

Definition unregister (adapters : t) (agent : jsstring) : bool * t :=
  Map_delete adapters agent.

(** [list()]: [[...this.adapters.keys()]] *)
Definition list (adapters : t) : Datatypes.list jsstring := adapters.*1.

End RegistryClass.

(* ===================================================================== *)
(** * The guard of [src/events.ts] *)
(* ===================================================================== *)

Module EventGuard.

(** ['name' in obj] *)
Definition has_property (fields : list (jsstring * value)) (name : string)
    : bool :=
  bool_decide (lit name ∈ fields.*1).

Definition is_string (v : value) : bool :=
  match v with
  | Str _ => true
  | _ => false
  end.

(** [typeof v === 'number']: true of [NaN] and the infinities too. *)
Definition is_number (v : value) : bool :=
  match v with
  | Num _ => true
  | _ => false
  end.

(** [isAgentEvent(value)].  An array is an object without these
    properties. *)
Definition isAgentEvent (v : value) : bool :=
  match v with
  | Obj fields =>
      is_string (Gemini.get v "type")
      && is_string (Gemini.get v "agent")
      && is_number (Gemini.get v "timestamp")
      && is_string (Gemini.get v "sessionId")
      && has_property fields "payload"
  | _ => false
  end.

(** The object [createEvent] returns, for an event and the value of its
    payload: the five properties of the object literal. *)
Definition event_object (e : AgentEvent) (payload : value) : value :=
  Obj [ (lit "type", Str (type e));
        (lit "agent", Str (agent e));
        (lit "timestamp", Num (Finite (timestamp e)));
        (lit "sessionId", Str (sessionId e));
        (lit "payload", payload) ].

End EventGuard.

(* ===================================================================== *)
(** * Properties of the line framer *)
(* ===================================================================== *)

Module NdjsonFacts.

Import Ndjson.

(** ** The framing contract, as a function of the whole input

    [lines s] cuts [s] at every line feed: the complete lines, in order, and
    the residual after the last line feed. *)
Fixpoint lines (s : jsstring) : list jsstring * jsstring :=
  match s with
  | [] => ([], [])
  | c :: s' =>
      let (ls, r) := lines s' in
      if N.eqb c LF then ([] :: ls, r)
      else
        match ls with
        | [] => ([], c :: r)
        | l :: ls' => ((c :: l) :: ls', r)
        end
  end.

Definition whitespace_only (l : jsstring) : bool := forallb is_white_space l.

(** Strip one trailing carriage return. *)
Definition strip_cr (l : jsstring) : jsstring :=
  match last l with
  | Some c => if N.eqb c CR then removelast l else l
  | None => l
  end.

Section Contract.

Variable JSON_parse : jsstring -> value + thrown.
Variable utf8_toString : list N -> jsstring.
Variable String_of : value -> jsstring.

(** What one line contributes: nothing when it is empty or blank; otherwise
    the parse result of the line without its trailing carriage return. *)
Definition line_result (l : jsstring) : list NDJSONParseResult :=
  if whitespace_only l then []
  else
    match JSON_parse (strip_cr l) with
    | inl data => [Ok data]
    | inr (ErrorObject message) => [Fail message (strip_cr l)]
    | inr (NonError _) =>
        [Fail (lit "Failed to parse NDJSON line") (strip_cr l)]
    end.

(** The results for a whole input: every complete line, then the residual
    when it is not empty. *)
Definition framed (input : jsstring) : list NDJSONParseResult :=
  let (ls, r) := lines input in
  flat_map line_result ls
    ++ (if (0 <? length r)%nat then line_result r else []).

(** The text a stream delivers. *)
Definition delivered (cs : list Chunk) : jsstring :=
  concat (map (chunkToString utf8_toString String_of) cs).

(** The text of a stream, in the words of the contract: a string chunk is its
    own text, a chunk of bytes is read as UTF-8, chunk by chunk, and any
    other chunk is rendered by [String]. *)
Fixpoint stream_text (cs : list Chunk) : jsstring :=
  match cs with
  | [] => []
  | StringChunk s :: rest => s ++ stream_text rest
  | BufferChunk bytes :: rest => utf8_toString bytes ++ stream_text rest
  | Uint8ArrayChunk bytes :: rest => utf8_toString bytes ++ stream_text rest
  | OtherChunk v :: rest => String_of v ++ stream_text rest
  end.

End Contract.

(** ** Bytes cut into chunks *)

(** The state of the decoder after [bytes]. *)
Definition utf8_state_after (st : option Utf8Pending) (bytes : list N)
    : option Utf8Pending :=
  fold_left (fun st b => snd (utf8_step st b)) bytes st.

(** A chunk of bytes that does not end inside a multi-byte sequence: the
    decoder is between two characters when it has read the chunk. *)
Definition whole_characters (bytes : list N) : Prop :=
  utf8_state_after None bytes = None.

#[global] Instance whole_characters_dec (bytes : list N) :
  Decision (whole_characters bytes).
Proof. unfold whole_characters. apply _. Defined.

Lemma utf8_decode_from_app (st : option Utf8Pending) (a b : list N) :
  utf8_state_after st a = None ->
  utf8_decode_from st (a ++ b) = utf8_decode_from st a ++ utf8_decode b.
Proof.
  revert st. induction a as [|x a IH]; intros st Hst; simpl in *.
  - by subst st.
  - destruct (utf8_step st x) as [out st']. simpl in Hst.
    by rewrite (IH st' Hst), app_assoc.
Qed.

(** Chunks that hold whole characters decode, one by one, to the text of
    their concatenation. *)
Lemma utf8_decode_concat (bs : list (list N)) :
  Forall whole_characters bs ->
  concat (utf8_decode <$> bs) = utf8_decode (concat bs).
Proof.
  induction 1 as [|bytes bs Hw _ IH]; [done|].
  rewrite fmap_cons. cbn [concat]. rewrite IH. symmetry.
  by apply utf8_decode_from_app.
Qed.

(** The chunking law for one sequence of bytes delivered in two ways as
    [Buffer] chunks: the results are the same. *)
Definition bytes_chunking_law (JSON_parse : jsstring -> value + thrown)
    (String_of : value -> jsstring) (bs1 bs2 : list (list N)) : Prop :=
  concat bs1 = concat bs2 ->
  parseNDJSON JSON_parse utf8_decode String_of
    {| chunks := BufferChunk <$> bs1; failure := None |}
  = parseNDJSON JSON_parse utf8_decode String_of
      {| chunks := BufferChunk <$> bs2; failure := None |}.

(** ** String primitives *)

Lemma slice_prefix (s : jsstring) (i : Z) :
  0 <= i <= Z.of_nat (length s) -> slice s 0 i = take (Z.to_nat i) s.
Proof.
  intros Hi. unfold slice, clamp_index.
  destruct (Z.ltb_spec 0 0); [lia|].
  destruct (Z.ltb_spec i 0); [lia|].
  rewrite Z.min_l, Z.min_l by lia.
  simpl. rewrite drop_0. f_equal. lia.
Qed.

Lemma slice_from_suffix (s : jsstring) (i : Z) :
  0 <= i <= Z.of_nat (length s) -> slice_from s i = drop (Z.to_nat i) s.
Proof.
  intros Hi. unfold slice_from, slice, clamp_index.
  destruct (Z.ltb_spec i 0); [lia|].
  destruct (Z.ltb_spec (Z.of_nat (length s)) 0); [lia|].
  rewrite Z.min_l, Z.min_l by lia.
  apply take_ge. rewrite length_drop. lia.
Qed.

Lemma slice_drop_last (s : jsstring) : slice s 0 (-1) = removelast s.
Proof.
  unfold slice, clamp_index.
  change (0 <? 0) with false. change (-1 <? 0) with true. cbv iota.
  rewrite Z.min_l by lia. change (Z.to_nat 0) with O. rewrite drop_0.
  destruct s as [|c s _] using rev_ind; [done|].
  rewrite removelast_last, length_app. simpl length.
  rewrite Z.max_l by lia.
  replace (Z.to_nat (Z.of_nat (length s + 1) + -1 - 0)) with (length s) by lia.
  by rewrite take_app_length.
Qed.

Lemma endsWith_last (s : jsstring) (c : code_unit) :
  endsWith s c = match last s with Some d => N.eqb d c | None => false end.
Proof. done. Qed.

(** [trim] leaves nothing exactly when every unit is white space. *)
Lemma trimStart_nil (s : jsstring) :
  trimStart s = [] <-> whitespace_only s = true.
Proof.
  induction s as [|c s IH]; simpl; [done|].
  destruct (is_white_space c); simpl; [done|]. split; discriminate.
Qed.

Lemma trimStart_suffix (s : jsstring) : exists p, s = p ++ trimStart s.
Proof.
  induction s as [|c s [p IH]]; simpl; [by exists []|].
  destruct (is_white_space c); [|by exists []].
  exists (c :: p). simpl. by f_equal.
Qed.

Lemma whitespace_only_app (a b : jsstring) :
  whitespace_only (a ++ b) = whitespace_only a && whitespace_only b.
Proof. apply forallb_app. Qed.

Lemma whitespace_only_rev (a : jsstring) :
  whitespace_only (rev a) = whitespace_only a.
Proof.
  induction a as [|c a IH]; [done|].
  simpl. rewrite whitespace_only_app, IH. simpl.
  rewrite andb_true_r. apply andb_comm.
Qed.

Lemma trim_empty (s : jsstring) :
  (length (trim s) =? 0)%nat = whitespace_only s.
Proof.
  unfold trim, trimEnd.
  destruct (whitespace_only s) eqn:Hw.
  - apply trimStart_nil in Hw. rewrite Hw. done.
  - apply Nat.eqb_neq. rewrite length_rev. intros Hlen.
    apply length_zero_iff_nil, trimStart_nil in Hlen.
    rewrite whitespace_only_rev in Hlen.
    destruct (trimStart_suffix s) as [p Hp].
    assert (whitespace_only p = true) as Hpw.
    { clear Hlen Hw. revert p Hp.
      induction s as [|c s IH]; intros p Hp; simpl in Hp.
      - by destruct p.
      - destruct (is_white_space c) eqn:Hc.
        + destruct p as [|d p]; simpl in Hp.
          * exfalso. pose proof (f_equal length Hp) as Hl. simpl in Hl.
            destruct (trimStart_suffix s) as [q Hq].
            rewrite Hq in Hl at 1. rewrite length_app in Hl. lia.
          * inversion Hp; subst d. simpl. rewrite Hc. simpl. by apply IH.
        + destruct p as [|d p]; [done|].
          exfalso. pose proof (f_equal length Hp) as Hl. simpl in Hl.
          rewrite length_app in Hl. simpl in Hl. lia. }
    rewrite Hp, whitespace_only_app, Hpw, Hlen in Hw. done.
Qed.

Lemma whitespace_only_strip_cr (l : jsstring) :
  whitespace_only (strip_cr l) = whitespace_only l.
Proof.
  unfold strip_cr.
  destruct l as [|c l] using rev_ind; [done|].
  rewrite last_snoc. destruct (N.eqb_spec c CR) as [->|]; [|done].
  rewrite removelast_last, whitespace_only_app. simpl.
  by rewrite andb_true_r.
Qed.

(** ** Lines and the newline search *)

Lemma lines_no_newline (s : jsstring) :
  indexOf s LF = -1 -> lines s = ([], s).
Proof.
  induction s as [|c s IH]; simpl; [done|].
  destruct (N.eqb c LF); [discriminate|].
  pose proof (indexOf_range s LF) as Hr.
  destruct (Z.eqb_spec (indexOf s LF) (-1)) as [Hi|Hi]; [|lia].
  intros _. by rewrite (IH Hi).
Qed.

Lemma lines_at_newline (s : jsstring) (i : Z) :
  indexOf s LF = i -> i <> -1 ->
  lines s =
    (take (Z.to_nat i) s :: fst (lines (drop (Z.to_nat (i + 1)) s)),
     snd (lines (drop (Z.to_nat (i + 1)) s))).
Proof.
  revert i. induction s as [|c s IH]; intros i; simpl; [congruence|].
  destruct (N.eqb c LF).
  - intros <- _. change (Z.to_nat (0 + 1)) with 1%nat. simpl.
    rewrite drop_0. by destruct (lines s).
  - destruct (Z.eqb_spec (indexOf s LF) (-1)) as [Hi|Hi];
      [intros <- ?; congruence|].
    intros <- _.
    pose proof (indexOf_range s LF) as [?|Hr]; [done|].
    rewrite (IH _ eq_refl Hi).
    replace (Z.to_nat (indexOf s LF + 1)) with (S (Z.to_nat (indexOf s LF)))
      by lia.
    replace (Z.to_nat (indexOf s LF + 1 + 1))
      with (S (S (Z.to_nat (indexOf s LF)))) by lia.
    done.
Qed.

Lemma lines_app (a b : jsstring) :
  lines (a ++ b) =
    (fst (lines a) ++ fst (lines (snd (lines a) ++ b)),
     snd (lines (snd (lines a) ++ b))).
Proof.
  induction a as [|c a IH]; simpl.
  - by destruct (lines b).
  - rewrite IH. destruct (lines a) as [la ra]. simpl.
    destruct (lines (ra ++ b)) as [lb rb] eqn:Hb. simpl.
    destruct (N.eqb c LF) eqn:Hc; simpl; [by rewrite Hb|].
    destruct la as [|l la]; simpl.
    + rewrite Hb, Hc. by destruct lb.
    + by rewrite Hb.
Qed.

Lemma lines_residual (s : jsstring) :
  lines (snd (lines s)) = ([], snd (lines s)).
Proof.
  induction s as [|c s IH]; simpl; [done|].
  destruct (lines s) as [ls r]. simpl in IH.
  destruct (N.eqb c LF) eqn:Hc; [done|].
  destruct ls; simpl; [|done]. by rewrite IH, Hc.
Qed.

Section Refinement.

Variable JSON_parse : jsstring -> value + thrown.
Variable utf8_toString : list N -> jsstring.
Variable String_of : value -> jsstring.

Local Abbreviation parseLine := (parseLine JSON_parse).
Local Abbreviation drain := (drain JSON_parse).
Local Abbreviation feed := (feed JSON_parse utf8_toString String_of).
Local Abbreviation parseNDJSON := (parseNDJSON JSON_parse utf8_toString String_of).
Local Abbreviation line_result := (line_result JSON_parse).
Local Abbreviation framed := (framed JSON_parse).
Local Abbreviation delivered := (delivered utf8_toString String_of).
Local Abbreviation stream_text := (stream_text utf8_toString String_of).

(** [parseLine] is the contract of one line. *)
Lemma parseLine_line_result (l : jsstring) :
  match parseLine l with Some r => [r] | None => [] end = line_result l.
Proof.
  unfold Ndjson.parseLine, NdjsonFacts.line_result.
  assert ((if endsWith l CR then slice l 0 (-1) else l) = strip_cr l) as ->.
  { unfold endsWith, strip_cr. destruct (last l) as [c|]; [|done].
    destruct (N.eqb c CR); [apply slice_drop_last|done]. }
  rewrite trim_empty, whitespace_only_strip_cr.
  destruct (whitespace_only l); [done|].
  destruct (JSON_parse (strip_cr l)) as [data|[message|r]]; done.
Qed.

Lemma drain_lines (buffer : jsstring) :
  drain buffer = (flat_map line_result (fst (lines buffer)),
                  snd (lines buffer)).
Proof.
  remember (length buffer) as n eqn:Hn. revert buffer Hn.
  induction n as [n IH] using lt_wf_ind. intros buffer Hn.
  simp drain. unfold inspect. simpl.
  destruct (Z.eq_dec (indexOf buffer LF) (-1)) as [Hi|Hi].
  - by rewrite (lines_no_newline _ Hi).
  - pose proof (indexOf_range buffer LF) as [?|Hr]; [done|].
    rewrite (lines_at_newline _ _ eq_refl Hi). simpl.
    rewrite slice_prefix, slice_from_suffix by lia.
    rewrite (IH (length (drop (Z.to_nat (indexOf buffer LF + 1)) buffer)));
      [|rewrite length_drop; lia|done].
    rewrite <- parseLine_line_result.
    by destruct (Ndjson.parseLine JSON_parse _).
Qed.

Lemma feed_lines (cs : list Chunk) (buffer : jsstring) :
  lines buffer = ([], buffer) ->
  feed buffer cs =
    (flat_map line_result (fst (lines (buffer ++ delivered cs))),
     snd (lines (buffer ++ delivered cs))).
Proof.
  revert buffer. induction cs as [|c cs IH]; intros buffer Hb.
  - simpl. unfold NdjsonFacts.delivered. simpl.
    by rewrite app_nil_r, Hb.
  - cbn [Ndjson.feed]. rewrite drain_lines.
    rewrite IH by apply lines_residual.
    unfold NdjsonFacts.delivered. cbn [map concat].
    rewrite (app_assoc buffer), (lines_app (buffer ++ _)).
    cbn [fst snd]. by rewrite flat_map_app.
Qed.

(** The framer computes the contract of the text it was delivered: all of
    it when the stream ends, the complete lines when the stream fails. *)
Lemma parseNDJSON_framed (stream : Readable) :
  parseNDJSON stream =
    (match failure stream with
     | None => framed (delivered (chunks stream))
     | Some _ =>
         flat_map line_result (fst (lines (delivered (chunks stream))))
     end,
     failure stream).
Proof.
  unfold Ndjson.parseNDJSON. rewrite feed_lines by done.
  cbn [app]. destruct (failure stream); [done|].
  unfold NdjsonFacts.framed.
  destruct (lines (delivered (chunks stream))) as [ls r]. cbn [fst snd].
  f_equal. f_equal. destruct (0 <? length r)%nat; [|done].
  apply parseLine_line_result.
Qed.

Lemma parseNDJSON_delivered (cs1 cs2 : list Chunk) (fail : option thrown) :
  delivered cs1 = delivered cs2 ->
  parseNDJSON {| chunks := cs1; failure := fail |}
  = parseNDJSON {| chunks := cs2; failure := fail |}.
Proof.
  intros Heq. rewrite !parseNDJSON_framed. cbn [chunks failure].
  by rewrite Heq.
Qed.

Lemma delivered_strings (ss : list jsstring) :
  delivered (StringChunk <$> ss) = concat ss.
Proof.
  unfold NdjsonFacts.delivered. f_equal.
  induction ss as [|s ss IH]; [done|]. simpl. by f_equal.
Qed.

Lemma stream_text_delivered (cs : list Chunk) :
  stream_text cs = delivered cs.
Proof.
  unfold NdjsonFacts.delivered.
  induction cs as [|[s|bytes|bytes|v] cs IH]; [done|..]; simpl; by rewrite IH.
Qed.

Lemma delivered_buffers (bs : list (list N)) :
  delivered (BufferChunk <$> bs) = concat (utf8_toString <$> bs).
Proof.
  unfold NdjsonFacts.delivered. f_equal.
  induction bs as [|bytes bs IH]; [done|]. simpl. by f_equal.
Qed.

End Refinement.


(** C10, amended.  The results of [parseNDJSON] depend only on the text of
    the stream.  For chunks delivered as strings that text is the
    concatenation of the chunks: two ways of cutting the same text into
    string chunks, wherever the cuts fall (inside a line, inside a
    multi-unit sequence), give the same results.  Chunks of bytes are read as
    UTF-8 one by one: two ways of cutting the same bytes into chunks give the
    same results when no chunk ends inside a multi-byte sequence.  In general
    two streams give the same results whenever their texts are the same. *)
Theorem parseNDJSON_chunking (JSON_parse : jsstring -> value + thrown)
    (utf8_toString : list N -> jsstring) (String_of : value -> jsstring) :
  let parseNDJSON := parseNDJSON JSON_parse utf8_toString String_of in
  (forall (ss1 ss2 : list jsstring) (fail : option thrown),
     concat ss1 = concat ss2 ->
     parseNDJSON {| chunks := StringChunk <$> ss1; failure := fail |}
     = parseNDJSON {| chunks := StringChunk <$> ss2; failure := fail |})
  /\ (forall (bs1 bs2 : list (list N)),
        Forall whole_characters bs1 -> Forall whole_characters bs2 ->
        bytes_chunking_law JSON_parse String_of bs1 bs2)
  /\ (forall (cs1 cs2 : list Chunk) (fail : option thrown),
        stream_text utf8_toString String_of cs1
        = stream_text utf8_toString String_of cs2 ->
        parseNDJSON {| chunks := cs1; failure := fail |}
        = parseNDJSON {| chunks := cs2; failure := fail |}).
Proof.
  intros parseNDJSON. subst parseNDJSON. split; [|split].
  - intros ss1 ss2 fail Heq. apply parseNDJSON_delivered.
    by rewrite !delivered_strings.
  - intros bs1 bs2 Hw1 Hw2 Heq. apply parseNDJSON_delivered.
    by rewrite !delivered_buffers, !utf8_decode_concat, Heq.
  - intros cs1 cs2 fail Heq. apply parseNDJSON_delivered.
    by rewrite <- !stream_text_delivered.
Qed.


(** A parser that accepts the text [[1,2]] and rejects every other text with
    one error; it stands in for [JSON.parse] in the samples below, none of
    which depends on the wording of the error. *)
Definition sample_parse (s : jsstring) : value + thrown :=
  if bool_decide (s = lit "[1,2]")
  then inl (Arr [Num (Finite 1); Num (Finite 2)])
  else inr (ErrorObject (lit "Unexpected token x in JSON at position 0")).

(** The text [xy\n[1,2]\n] cut inside its second line and cut inside a
    surrogate pair (the units [55357; 56832]) of its first; and the bytes of
    the same text (the pair is the four bytes [240; 159; 152; 128]) cut
    between characters. *)
Lemma parseNDJSON_chunking_witness :
  (concat [lit "x" ++ [55357%N]; [56832%N; LF] ++ lit "[1,"; lit "2]" ++ [LF]]
   = concat [lit "x" ++ [55357%N; 56832%N; LF] ++ lit "[1,2]" ++ [LF]]
   /\ parseNDJSON sample_parse utf8_decode (fun _ => [])
        {| chunks :=
             StringChunk <$>
               [lit "x" ++ [55357%N]; [56832%N; LF] ++ lit "[1,";
                lit "2]" ++ [LF]];
           failure := None |}
      = parseNDJSON sample_parse utf8_decode (fun _ => [])
          {| chunks :=
               StringChunk <$>
                 [lit "x" ++ [55357%N; 56832%N; LF] ++ lit "[1,2]" ++ [LF]];
             failure := None |})
  /\ (Forall whole_characters
        [lit "x" ++ [240%N; 159%N; 152%N; 128%N]; [10%N] ++ lit "[1,";
         lit "2]" ++ [10%N]]
      /\ parseNDJSON sample_parse utf8_decode (fun _ => [])
           {| chunks :=
                BufferChunk <$>
                  [lit "x" ++ [240%N; 159%N; 152%N; 128%N];
                   [10%N] ++ lit "[1,"; lit "2]" ++ [10%N]];
              failure := None |}
         = parseNDJSON sample_parse utf8_decode (fun _ => [])
             {| chunks :=
                  BufferChunk <$>
                    [lit "x" ++ [240%N; 159%N; 152%N; 128%N; 10%N]
                       ++ lit "[1,2]" ++ [10%N]];
                failure := None |}).
Proof.
  split.
  - split; [reflexivity|].
    apply (proj1 (parseNDJSON_chunking sample_parse utf8_decode
                    (fun _ => []))).
    reflexivity.
  - split; [repeat constructor|].
    apply (proj1 (proj2 (parseNDJSON_chunking sample_parse utf8_decode
                           (fun _ => [])))).
    + repeat constructor.
    + repeat constructor.
    + reflexivity.
Defined.

(** The law as it is written fails for bytes cut inside a character.  The
    bytes [194; 160] are the no-break space, so the line is blank and gives
    no result; cut between the two bytes, each chunk decodes to U+FFFD and
    the line is handed to [JSON.parse]. *)
Lemma chunking_inside_a_character_fails :
  ~ bytes_chunking_law sample_parse (fun _ => [])
      [[194%N; 160%N; 10%N]] [[194%N]; [160%N; 10%N]].
Proof.
  intros Hlaw. specialize (Hlaw eq_refl). vm_compute in Hlaw.
  discriminate Hlaw.
Qed.

Example bytes_cut_in_a_character :
  fst (parseNDJSON sample_parse utf8_decode (fun _ => [])
         {| chunks := [BufferChunk [194%N; 160%N; 10%N]]; failure := None |})
  = []
  /\ (fun r => match r with Ok _ => [] | Fail _ raw => raw end) <$>
       fst (parseNDJSON sample_parse utf8_decode (fun _ => [])
              {| chunks := [BufferChunk [194%N]; BufferChunk [160%N; 10%N]];
                 failure := None |})
     = [[REPLACEMENT; REPLACEMENT]].
Proof. split; vm_compute; reflexivity. Qed.



End NdjsonFacts.

(* ===================================================================== *)
(** * Properties of the Codex permission mapping *)
(* ===================================================================== *)

Module CodexFacts.

Import Codex.

(** The sandbox rule read over all three capabilities fails: a policy that
    only denies the network keeps full access. *)
Lemma sandbox_ignores_network_deny :
  let policy := Some {| fileWrite := Some allow; shellExecute := Some allow;
                        networkAccess := Some deny |} in
  (n_fileWrite (normalizePermissions policy) = deny
   \/ n_shellExecute (normalizePermissions policy) = deny
   \/ n_networkAccess (normalizePermissions policy) = deny)
  /\ sandboxMode (mapPermissionsToCodexOptions policy) <> read_only.
Proof. simpl. split; [by right; right|discriminate]. Qed.

(** C7, amended.  With absent capabilities read as [ask]: the sandbox is
    read-only exactly when [fileWrite] or [shellExecute] is denied, full
    access exactly when both are allowed, workspace-write otherwise; the
    approval policy is [never] exactly when all three are allowed,
    [untrusted] exactly when some capability is [ask], [on_request]
    otherwise; the network is enabled exactly when [networkAccess] is
    allowed. *)
Theorem mapPermissionsToCodexOptions_table (policy : option PermissionPolicy) :
  let n := normalizePermissions policy in
  let o := mapPermissionsToCodexOptions policy in
  n_fileWrite n = default ask (policy ≫= fileWrite)
  /\ n_shellExecute n = default ask (policy ≫= shellExecute)
  /\ n_networkAccess n = default ask (policy ≫= networkAccess)
  /\ (sandboxMode o = read_only <->
        n_fileWrite n = deny \/ n_shellExecute n = deny)
  /\ (sandboxMode o = danger_full_access <->
        n_fileWrite n = allow /\ n_shellExecute n = allow)
  /\ (sandboxMode o = workspace_write <->
        ~ (n_fileWrite n = deny \/ n_shellExecute n = deny)
        /\ ~ (n_fileWrite n = allow /\ n_shellExecute n = allow))
  /\ (approvalPolicy o = never <->
        n_fileWrite n = allow /\ n_shellExecute n = allow
        /\ n_networkAccess n = allow)
  /\ (approvalPolicy o = untrusted <->
        n_fileWrite n = ask \/ n_shellExecute n = ask
        \/ n_networkAccess n = ask)
  /\ (approvalPolicy o = on_request <->
        ~ (n_fileWrite n = allow /\ n_shellExecute n = allow
           /\ n_networkAccess n = allow)
        /\ ~ (n_fileWrite n = ask \/ n_shellExecute n = ask
              \/ n_networkAccess n = ask))
  /\ (networkAccessEnabled o = true <-> n_networkAccess n = allow).
Proof.
  destruct policy as [[[[]|] [[]|] [[]|]]|]; cbv;
    repeat split; try discriminate; intuition discriminate.
Qed.

End CodexFacts.

(* ===================================================================== *)
(** * Properties of the drivers *)
(* ===================================================================== *)

Module EngineFacts.

Import Engine.

(** ** Vocabulary *)

Definition is_done (e : AgentEvent) : Prop := type e = lit "done".

#[global] Instance is_done_dec (e : AgentEvent) : Decision (is_done e).
Proof. unfold is_done. apply _. Defined.

(** The number of [done] events of a stream. *)
Definition count_done (es : list AgentEvent) : nat :=
  length (filter is_done es).

(** The events the drivers synthesize, by their fields. *)
Definition synth_error (agent code message sid : jsstring) (ts : Z)
    : AgentEvent :=
  {| type := lit "error"; agent := agent; timestamp := ts; sessionId := sid;
     metadata := None; payload := ErrorPayload (Some code) message false |}.

Definition synth_done (agent : jsstring) (status : DoneStatus)
    (sid : jsstring) (ts duration : Z) : AgentEvent :=
  {| type := lit "done"; agent := agent; timestamp := ts; sessionId := sid;
     metadata := None;
     payload := DonePayload status None zeroed_usage duration |}.

Definition MISSING_DONE_text : jsstring :=
  lit "Protocol violation: adapter completed without terminal event".

(** The text of an exception: the message of an [Error], the rendering of
    any other value. *)
Definition exception_text (err : thrown) : jsstring :=
  match err with
  | ErrorObject message => message
  | NonError rendering => rendering
  end.

(** The session id of the last event of [fwd], or [provisional] when [fwd]
    is empty. *)
Definition last_sid (fwd : list AgentEvent) (provisional : jsstring)
    : jsstring :=
  match last fwd with
  | Some e => sessionId e
  | None => provisional
  end.

(** The adapter's events up to and including its first [done]. *)
Fixpoint forwarded (events : list AgentEvent) : list AgentEvent :=
  match events with
  | [] => []
  | e :: rest => if decide (is_done e) then [e] else e :: forwarded rest
  end.

(** The tails a driver can append to the events it forwarded. *)
Inductive synthesized (agent sid : jsstring) : list AgentEvent -> Prop :=
| synthesized_nothing :
    synthesized agent sid []
| synthesized_error_pair (code message : jsstring) (t1 t2 d : Z) :
    synthesized agent sid
      [synth_error agent code message sid t1;
       synth_done agent error sid t2 d]
| synthesized_interrupted (t d : Z) :
    synthesized agent sid [synth_done agent interrupted sid t d].

(** ** The lifecycle of one session

    [session b agent fin sid events out]: [out] is a stream that a driver may
    present for a generator that still has [events] to yield and completes
    with [fin], when the session id on record is [sid].  Forwarded events are
    passed through unchanged until the adapter's own [done]; a generator that
    ends without one is closed by a synthesized pair; when [b] holds the
    session may instead be cut short by a cancellation. *)
Inductive session (b : bool) (agent : jsstring) (fin : Completion)
    : jsstring -> list AgentEvent -> list AgentEvent -> Prop :=
| session_forward sid e rest out :
    ~ is_done e ->
    session b agent fin (sessionId e) rest out ->
    session b agent fin sid (e :: rest) (e :: out)
| session_own_done sid e rest :
    is_done e ->
    session b agent fin sid (e :: rest) [e]
| session_missing_done sid t1 t2 d :
    fin = Returns ->
    session b agent fin sid []
      [synth_error agent (lit "MISSING_DONE") MISSING_DONE_text sid t1;
       synth_done agent error sid t2 d]
| session_adapter_error sid err t1 t2 d :
    fin = Throws err ->
    session b agent fin sid []
      [synth_error agent (lit "ADAPTER_ERROR") (exception_text err) sid t1;
       synth_done agent error sid t2 d]
| session_interrupted sid rest t d :
    b = true ->
    session b agent fin sid rest [synth_done agent interrupted sid t d].

(** ** Consequences of the lifecycle *)

Lemma count_done_app (a b : list AgentEvent) :
  count_done (a ++ b) = (count_done a + count_done b)%nat.
Proof. unfold count_done. by rewrite filter_app, length_app. Qed.

Lemma count_done_none (es : list AgentEvent) :
  Forall (fun e => ~ is_done e) es -> count_done es = O.
Proof.
  induction 1 as [|e es He _ IH]; [done|].
  unfold count_done in *. rewrite filter_cons_False by done. exact IH.
Qed.




Lemma terminal_count (pre : list AgentEvent) (d : AgentEvent) :
  is_done d -> Forall (fun e => ~ is_done e) pre ->
  count_done (pre ++ [d]) = 1%nat.
Proof.
  intros Hd Hpre. rewrite count_done_app, (count_done_none _ Hpre).
  unfold count_done. by rewrite filter_cons_True.
Qed.

Lemma last_sid_cons (e : AgentEvent) (fwd : list AgentEvent) (sid : jsstring) :
  last_sid (e :: fwd) sid = last_sid fwd (sessionId e).
Proof.
  unfold last_sid. destruct fwd as [|f fwd]; [done|].
  rewrite last_cons_cons.
  destruct (last (f :: fwd)) eqn:Hl; [done|]. by apply last_None in Hl.
Qed.

(** A stream is what was forwarded, then what was synthesized under the
    session id of the last forwarded event. *)
Lemma session_synthesized b agent fin sid events out :
  session b agent fin sid events out ->
  exists fwd tail,
    out = fwd ++ tail
    /\ fwd `prefix_of` events
    /\ synthesized agent (last_sid fwd sid) tail
    /\ (tail = [] -> exists e, last fwd = Some e /\ is_done e)
    /\ (tail = [] \/ (exists e d, tail = [e; d]) -> fwd = forwarded events).
Proof.
  induction 1 as [sid e rest out He _ (fwd & tail & -> & Hp & Hs & Hl & Hf)
                 |sid e rest He|sid t1 t2 d _|sid err t1 t2 d _|sid rest t d _].
  - exists (e :: fwd), tail. split; [done|]. split; [by apply prefix_cons|].
    split; [by rewrite last_sid_cons|]. split.
    + intros Ht. destruct (Hl Ht) as (l & Hlast & Hdone).
      exists l. split; [|done]. destruct fwd; [done|]. by rewrite last_cons_cons.
    + intros Ht. cbn [forwarded]. rewrite decide_False by done.
      by rewrite (Hf Ht).
  - exists [e], []. split; [done|]. split; [by apply prefix_cons, prefix_nil|].
    split; [constructor|]. split; [intros _; by exists e|].
    intros _. cbn [forwarded]. by rewrite decide_True.
  - eexists [], _. split; [done|]. split; [apply prefix_nil|].
    split; [constructor|]. split; [discriminate|done].
  - eexists [], _. split; [done|]. split; [apply prefix_nil|].
    split; [constructor|]. split; [discriminate|done].
  - eexists [], _. split; [done|]. split; [apply prefix_nil|].
    split; [constructor|]. split; [discriminate|].
    intros [Ht|(e & d' & Ht)]; discriminate Ht.
Qed.

(** Without cancellation the stream is determined up to the clock: the
    forwarded events, then nothing after the adapter's own [done], or the
    synthesized pair for the way the generator ended. *)
Lemma session_uncancelled agent fin sid events out :
  session false agent fin sid events out ->
  exists tail,
    out = forwarded events ++ tail
    /\ (Exists is_done events -> tail = [])
    /\ (Forall (fun e => ~ is_done e) events ->
        exists t1 t2 d,
          tail =
            [synth_error agent
               match fin with
               | Returns => lit "MISSING_DONE"
               | Throws _ => lit "ADAPTER_ERROR"
               end
               match fin with
               | Returns => MISSING_DONE_text
               | Throws err => exception_text err
               end
               (last_sid events sid) t1;
             synth_done agent error (last_sid events sid) t2 d]).
Proof.
  induction 1 as [sid e rest out He _ (tail & -> & Hex & Hall)
                 |sid e rest He|sid t1 t2 d ->|sid err t1 t2 d ->
                 |sid rest t d ?]; [| | | |done].
  - exists tail. simpl. rewrite decide_False by done. split; [done|]. split.
    + intros Hx. apply Hex. by inversion Hx.
    + intros Hf. inversion Hf as [|? ? _ Hrest]; subst.
      destruct (Hall Hrest) as (t1 & t2 & d & ->).
      exists t1, t2, d. by rewrite last_sid_cons.
  - exists []. simpl. rewrite decide_True by done. split; [done|].
    split; [done|]. intros Hf. by inversion Hf.
  - eexists. split; [done|]. split; [by inversion 1|]. intros _. by eexists _, _, _.
  - eexists. split; [done|]. split; [by inversion 1|]. intros _. by eexists _, _, _.
Qed.

(** ** Cancellation *)

Lemma aborted_mono (s : AbortSignal) (i j : nat) :
  (i <= j)%nat -> aborted s i = true -> aborted s j = true.
Proof.
  unfold aborted. destruct (tripsAt s) as [t|]; [|done].
  rewrite !Nat.leb_le. lia.
Qed.

Lemma opt_aborted_mono (signal : option AbortSignal) (i j : nat) :
  (i <= j)%nat -> opt_aborted signal i = true -> opt_aborted signal j = true.
Proof. destruct signal as [s|]; [apply aborted_mono|done]. Qed.

Lemma opt_aborted_before (signal : option AbortSignal) (i j : nat) :
  (i <= j)%nat -> opt_aborted signal j = false -> opt_aborted signal i = false.
Proof.
  intros Hij Hj. destruct (opt_aborted signal i) eqn:Hi; [|done].
  by rewrite (opt_aborted_mono _ _ _ Hij Hi) in Hj.
Qed.

(** The race of a pull goes to the cancellation exactly when the signal has
    tripped by the time the adapter's promise settles. *)
Lemma raceAbort_settle (promise : Settled) (signal : option AbortSignal)
    (k : nat) :
  raceAbort promise signal k =
    if opt_aborted signal (settle_instant k) then Resolved IterDone
    else promise.
Proof.
  unfold raceAbort. destruct signal as [s|]; [|done]. simpl.
  destruct (aborted s (pull_instant k)) eqn:Hp; [|done].
  rewrite (aborted_mono s (pull_instant k) (settle_instant k)); [done| |done].
  unfold pull_instant, settle_instant. lia.
Qed.

Lemma resume_instant_mono (i j : nat) :
  (i <= j)%nat -> (resume_instant i <= resume_instant j)%nat.
Proof. unfold resume_instant. lia. Qed.

Lemma settle_before_resume (k : nat) :
  (settle_instant k <= resume_instant k)%nat.
Proof. unfold settle_instant, resume_instant. lia. Qed.

Lemma resume_before_settle (j k : nat) :
  (j < k)%nat -> (resume_instant j <= settle_instant k)%nat.
Proof. unfold settle_instant, resume_instant. lia. Qed.

(** A signal seen tripped when a promise settles is seen tripped when the
    driver resumes. *)
Lemma aborted_at_resume (signal : option AbortSignal) (k : nat) :
  opt_aborted signal (settle_instant k) = true ->
  opt_aborted signal (resume_instant k) = true.
Proof. apply opt_aborted_mono, settle_before_resume. Qed.

Lemma error_text_exception_text (err : thrown) :
  error_text err = exception_text err.
Proof. by destruct err. Qed.

(** ** [runAgent] *)

Section RunAgent.

Variable clock : nat -> Z.
Variable uuid : nat -> jsstring.

Lemma makeSynthDone_run {O} agent status sid start (w : World) :
  makeSynthDone (O:=O) clock uuid agent status sid start w =
    (synth_done agent status sid (clock (S (clock_reads w)))
       (clock (clock_reads w) - start),
     [],
     {| clock_reads := S (S (clock_reads w)); uuid_reads := uuid_reads w;
        run_calls := run_calls w |}).
Proof. done. Qed.

Lemma makeSynthError_run {O} agent code message sid (w : World) :
  makeSynthError (O:=O) clock uuid agent code message sid w =
    (synth_error agent code message sid (clock (clock_reads w)),
     [],
     {| clock_reads := S (clock_reads w); uuid_reads := uuid_reads w;
        run_calls := run_calls w |}).
Proof. done. Qed.

(** The instant that decides the last pull of a generator: a rejection is
    reported as soon as it wins the race, the end of the generator when the
    driver has resumed. *)
Definition last_instant (fin : Completion) (n : nat) : nat :=
  match fin with
  | Returns => resume_instant n
  | Throws _ => settle_instant n
  end.

Lemma resume_before_last (fin : Completion) (j n : nat) :
  (j < n)%nat -> (resume_instant j <= last_instant fin n)%nat.
Proof.
  intros Hj. destruct fin; cbn [last_instant].
  - apply resume_instant_mono. lia.
  - by apply resume_before_settle.
Qed.

Lemma settle_before_last (fin : Completion) (n : nat) :
  (settle_instant n <= last_instant fin n)%nat.
Proof. destruct fin; cbn [last_instant]; [apply settle_before_resume|done]. Qed.

(** The loop of [runAgent] presents a session; it neither draws session ids
    nor invokes adapters. *)
Lemma runAgent_loop_session (b : bool) agent signal start fin events :
  forall k sid w,
    (forall j, (j <= last_instant fin (k + length events))%nat ->
               opt_aborted signal j = true -> b = true) ->
    exists out w',
      runAgent_loop clock uuid agent signal start events fin k sid false w
      = (tt, out, w')
      /\ session b agent fin sid events out
      /\ uuid_reads w' = uuid_reads w
      /\ run_calls w' = run_calls w.
Proof.
  induction events as [|e rest IH]; intros k sid w Hb;
    cbn [runAgent_loop]; unfold runAgent_turn; rewrite raceAbort_settle;
    destruct (opt_aborted signal (settle_instant k)) eqn:Hs.
  - rewrite (aborted_at_resume _ _ Hs).
    eexists _, _. split; [reflexivity|]. split; [|done].
    apply session_interrupted, (Hb (settle_instant k)); [|done].
    rewrite Nat.add_0_r. apply settle_before_last.
  - destruct fin as [|err]; cbn [next yields completion fst negb].
    + destruct (opt_aborted signal (resume_instant k)) eqn:Ha;
        (eexists _, _; split; [reflexivity|]; split; [|done]).
      * apply session_interrupted, (Hb (resume_instant k)); [|done].
        by rewrite Nat.add_0_r.
      * by apply session_missing_done.
    + eexists _, _. split; [reflexivity|]. split; [|done].
      rewrite error_text_exception_text. by apply session_adapter_error.
  - rewrite (aborted_at_resume _ _ Hs).
    eexists _, _. split; [reflexivity|]. split; [|done].
    apply session_interrupted, (Hb (resume_instant k));
      [|by apply aborted_at_resume].
    apply resume_before_last. cbn [length]. lia.
  - cbn [next yields completion fst negb].
    destruct (opt_aborted signal (resume_instant k)) eqn:Ha.
    { eexists _, _. split; [reflexivity|]. split; [|done].
      apply session_interrupted, (Hb (resume_instant k)); [|done].
      apply resume_before_last. cbn [length]. lia. }
    destruct (decide (type e = lit "done")) as [Hd|Hd].
    + eexists _, _. unfold bind, yield, ret. cbn.
      split; [reflexivity|]. split; [|done]. by apply session_own_done.
    + destruct (IH (S k) (sessionId e) w) as (out & w' & Hloop & Hss & Hu & Hr).
      { intros j Hj. apply Hb. cbn [length].
        by replace (k + S (length rest))%nat with (S k + length rest)%nat
          by lia. }
      eexists _, _. unfold bind, yield, ret. cbn.
      rewrite Hloop.
      split; [reflexivity|]. split; [|done]. by apply session_forward.
Qed.

(** [runAgent] on a registered adapter whose call of [run] returns its
    generator presents a session under the provisional id, and ends without
    raising. *)
Lemma runAgent_session (b : bool) (agent prompt : jsstring)
    (options : option AgentOptions) (registry : AdapterRegistry.t)
    (adapter : AgentAdapter) (gen : Generator) (w : World) :
  AdapterRegistry.get registry agent = Some adapter ->
  run adapter prompt options = inl gen ->
  (forall j, (j <= last_instant (completion gen) (length (yields gen)))%nat ->
             opt_aborted (signal_of options) j = true -> b = true) ->
  exists out w',
    runAgent clock uuid agent prompt options registry w = (Finished, out, w')
    /\ session b agent (completion gen) (uuid (uuid_reads w)) (yields gen) out.
Proof.
  intros Hreg Hcall Hb. unfold runAgent. rewrite Hreg.
  unfold bind at 1. cbn [generateSessionId]. unfold bind at 1.
  cbn [Date_now clock_reads uuid_reads run_calls].
  destruct (opt_aborted (signal_of options) 0) eqn:H0.
  - eexists _, _. split; [reflexivity|].
    apply session_interrupted, (Hb O); [lia|done].
  - unfold bind at 1. cbn [invoke clock_reads uuid_reads run_calls].
    rewrite Hcall.
    edestruct (runAgent_loop_session b agent (signal_of options)
                 (clock (clock_reads w)) (completion gen) (yields gen) O
                 (uuid (uuid_reads w)))
      as (out & w' & Hloop & Hs & _).
    { intros j Hj. by apply Hb. }
    eexists _, _. unfold bind, ret. rewrite Hloop. cbn.
    split; [reflexivity|]. by rewrite app_nil_r.
Qed.

Lemma forwarded_all (events : list AgentEvent) :
  Forall (fun e => ~ is_done e) events -> forwarded events = events.
Proof.
  induction 1 as [|e rest He _ IH]; [done|].
  simpl. rewrite decide_False by done. by rewrite IH.
Qed.

Lemma forwarded_until (pre post : list AgentEvent) (d : AgentEvent) :
  Forall (fun e => ~ is_done e) pre -> is_done d ->
  forwarded (pre ++ d :: post) = pre ++ [d].
Proof.
  intros Hpre Hd. induction Hpre as [|e pre He _ IH]; simpl.
  - by rewrite decide_True.
  - rewrite decide_False by done. by rewrite IH.
Qed.

(** While the token holds, the loop forwards the adapter's events up to its
    [done] unchanged, reads no clock and stops there: what the generator
    would do next is never asked for. *)
Lemma runAgent_loop_passthrough agent signal start fin
    (pre : list AgentEvent) (d : AgentEvent) (post : list AgentEvent) :
  forall k sid w,
    Forall (fun e => ~ is_done e) pre -> is_done d ->
    opt_aborted signal (resume_instant (k + length pre)) = false ->
    runAgent_loop clock uuid agent signal start (pre ++ d :: post) fin k sid
      false w
    = (tt, pre ++ [d], w).
Proof.
  induction pre as [|e pre IH]; intros k sid w Hpre Hd Ha;
    cbn [app runAgent_loop]; unfold runAgent_turn; rewrite raceAbort_settle.
  - rewrite Nat.add_0_r in Ha.
    rewrite (opt_aborted_before signal _ _ (settle_before_resume k) Ha), Ha.
    cbn [next yields fst negb]. rewrite decide_True by done. reflexivity.
  - assert (opt_aborted signal (resume_instant k) = false) as Hk.
    { apply (opt_aborted_before signal _
               (resume_instant (k + length (e :: pre)))); [|done].
      apply resume_instant_mono. lia. }
    rewrite (opt_aborted_before signal _ _ (settle_before_resume k) Hk), Hk.
    cbn [next yields fst negb]. inversion Hpre as [|? ? He Hpre']; subst.
    rewrite decide_False by done. unfold bind, yield.
    rewrite IH; [done|done|done|].
    cbn [length] in Ha. by replace (S k + length pre)%nat
      with (k + S (length pre))%nat by lia.
Qed.

(** The events [runAgent] forwards under [signal], pull number [k] being the
    next: an event is forwarded when the signal has not tripped by the time
    the driver resumes from its pull, and nothing is pulled after the
    adapter's [done]. *)
Fixpoint forwarded_under (signal : option AbortSignal) (k : nat)
    (events : list AgentEvent) : list AgentEvent :=
  match events with
  | [] => []
  | e :: rest =>
      if opt_aborted signal (resume_instant k) then []
      else if decide (is_done e) then [e]
      else e :: forwarded_under signal (S k) rest
  end.

Lemma forwarded_under_prefix signal (events : list AgentEvent) :
  forall k, forwarded_under signal k events `prefix_of` events.
Proof.
  induction events as [|e rest IH]; intros k; cbn [forwarded_under]; [done|].
  destruct (opt_aborted signal (resume_instant k)); [apply prefix_nil|].
  destruct (decide (is_done e)); [apply prefix_cons, prefix_nil|].
  apply prefix_cons, IH.
Qed.

(** The loop forwards exactly those events, and closes the stream with a
    tail synthesized under the session id of the last of them. *)
Lemma runAgent_loop_forwarded agent signal start fin (events : list AgentEvent) :
  forall k sid w,
    exists tail w',
      runAgent_loop clock uuid agent signal start events fin k sid false w
      = (tt, forwarded_under signal k events ++ tail, w')
      /\ synthesized agent (last_sid (forwarded_under signal k events) sid) tail
      /\ (tail = [] ->
          exists e, last (forwarded_under signal k events) = Some e
                    /\ is_done e).
Proof.
  induction events as [|e rest IH]; intros k sid w;
    cbn [runAgent_loop forwarded_under]; unfold runAgent_turn;
    rewrite raceAbort_settle;
    destruct (opt_aborted signal (settle_instant k)) eqn:Hs.
  - rewrite (aborted_at_resume _ _ Hs).
    eexists _, _. split; [reflexivity|]. split; [constructor|done].
  - destruct fin as [|err]; cbn [next yields completion fst negb].
    + destruct (opt_aborted signal (resume_instant k)) eqn:Ha;
        (eexists _, _; split; [reflexivity|]; split; [constructor|done]).
    + eexists _, _. split; [reflexivity|]. split; [constructor|done].
  - rewrite (aborted_at_resume _ _ Hs).
    eexists _, _. split; [reflexivity|]. split; [constructor|done].
  - cbn [next yields completion fst negb].
    destruct (opt_aborted signal (resume_instant k)) eqn:Ha.
    { eexists _, _. split; [reflexivity|]. split; [constructor|done]. }
    destruct (decide (type e = lit "done")) as [Hd|Hd].
    + rewrite decide_True by done. exists [], w.
      split; [done|]. split; [constructor|]. intros _. by exists e.
    + rewrite decide_False by done.
      destruct (IH (S k) (sessionId e) w) as (tail & w' & Hloop & Hsyn & Hl).
      exists tail, w'. unfold bind, yield. rewrite Hloop.
      split; [done|]. split; [by rewrite last_sid_cons|].
      intros Ht. destruct (Hl Ht) as (l & Hlast & Hdone).
      exists l. split; [|done].
      destruct (forwarded_under signal (S k) rest); [done|].
      by rewrite last_cons_cons.
Qed.



(** The MISSING_DONE law for a given message text: the stream is the
    adapter's events, then an error event with code MISSING_DONE, that
    message and [recoverable = false], then a [done] event with status
    [error] and zeroed usage. *)
Definition missing_done_law (message : jsstring)
    (events out : list AgentEvent) : Prop :=
  exists e d,
    out = events ++ [e; d]
    /\ type e = lit "error"
    /\ payload e = ErrorPayload (Some (lit "MISSING_DONE")) message false
    /\ type d = lit "done"
    /\ exists duration,
         payload d = DonePayload error None zeroed_usage duration.

(** C3, amended.  When the generator of the registered adapter yields events
    none of which is a [done] and then returns, and the cancellation token
    does not trip meanwhile, [runAgent] yields exactly those events, then the
    error event with code MISSING_DONE and the message "Protocol violation:
    adapter completed without terminal event" (capitalised), then the [done]
    event with status [error] and zeroed usage; both carry the session id of
    the last forwarded event. *)
Theorem runAgent_missing_done (agent prompt : jsstring)
    (options : option AgentOptions) (registry : AdapterRegistry.t)
    (adapter : AgentAdapter) (gen : Generator) (w : World) :
  AdapterRegistry.get registry agent = Some adapter ->
  run adapter prompt options = inl gen ->
  opt_aborted (signal_of options)
    (resume_instant (length (yields gen))) = false ->
  completion gen = Returns ->
  Forall (fun e => ~ is_done e) (yields gen) ->
  let out := events_of (runAgent clock uuid agent prompt options registry) w in
  missing_done_law MISSING_DONE_text (yields gen) out
  /\ Forall (fun e => sessionId e
                      = last_sid (yields gen) (uuid (uuid_reads w)))
       (drop (length (yields gen)) out).
Proof.
  intros Hreg Hcall Hna Hfin Hnd out.
  destruct (runAgent_session false agent prompt options registry adapter gen w
              Hreg Hcall) as (out' & w' & Hrun & Hs).
  { rewrite Hfin. cbn [last_instant]. intros j Hj Hj'.
    by rewrite (opt_aborted_mono _ _ _ Hj Hj') in Hna. }
  subst out. unfold events_of. rewrite Hrun. cbn [fst snd].
  apply session_uncancelled in Hs as (tail & -> & _ & Htail).
  destruct (Htail Hnd) as (t1 & t2 & d & ->). rewrite Hfin.
  rewrite forwarded_all by done. split.
  - eexists _, _. split; [reflexivity|]. split_and!; [done..|]. by eexists.
  - rewrite drop_app_length. by repeat constructor.
Qed.



End RunAgent.

(** ** [runParallel]: the state of the loop *)

(** Every call of [run] made for the tasks returns its generator. *)
Definition calls_return (tasks : list ParallelTask) : Prop :=
  Forall (fun task =>
            exists gen,
              run (adapter task) (prompt task) (options task) = inl gen)
    tasks.

(** The generator behind a task: the one its call of [run] returns (the
    finished generator stands for a call that throws). *)
Definition generator_of (task : ParallelTask) : Generator :=
  match run (adapter task) (prompt task) (options task) with
  | inl gen => gen
  | inr _ => {| yields := []; completion := Returns |}
  end.

Lemma generator_of_returned (task : ParallelTask) (gen : Generator) :
  run (adapter task) (prompt task) (options task) = inl gen ->
  generator_of task = gen.
Proof. unfold generator_of. by intros ->. Qed.

Lemma events_in_store_generator_of (task : ParallelTask) :
  events_in_store (run (adapter task) (prompt task) (options task))
  = yields (generator_of task).
Proof.
  unfold events_in_store, generator_of.
  by destruct (run (adapter task) (prompt task) (options task)).
Qed.

(** What a task still has to deliver, read back from its parked promise and
    the generator behind it. *)
Definition unpull (s : Settled) (g : Generator)
    : list AgentEvent * Completion :=
  match s with
  | Resolved (IterValue e) => (e :: yields g, completion g)
  | Resolved IterDone => ([], Returns)
  | Rejected err => ([], Throws err)
  end.

Lemma unpull_next (g : Generator) :
  unpull (fst (next g)) (snd (next g)) = (yields g, completion g).
Proof.
  unfold next. destruct g as [[|e rest] [|err]]; done.
Qed.

(** A task is live when its state is not null and its promise is parked. *)
Definition live (states : list (option AdapterState))
    (pending : gmap nat RaceResult) (i : nat)
    : option (AdapterState * Settled) :=
  match states !! i, pending !! i with
  | Some (Some st), Some rr => Some (st, outcome rr)
  | _, _ => None
  end.

(** Non-null states are exactly the tasks with a parked promise, none of
    them has seen its [done], and promises are parked under their own index. *)
Definition consistent (states : list (option AdapterState))
    (pending : gmap nat RaceResult) : Prop :=
  forall i,
    match states !! i with
    | Some (Some st) =>
        doneYielded st = false
        /\ exists s, pending !! i = Some {| index := i; outcome := s |}
    | _ => pending !! i = None
    end.

(** What the rest of the merged stream must hold for task [i]. *)
Definition owed (b : bool) (states : list (option AdapterState))
    (pending : gmap nat RaceResult) (i : nat) (p : list AgentEvent) : Prop :=
  match live states pending i with
  | Some (st, s) =>
      session b (state_agent st) (snd (unpull s (gen st)))
        (state_sessionId st) (fst (unpull s (gen st))) p
  | None => p = []
  end.

(** Turns the loop can still take for task [i]. *)
Definition weight (states : list (option AdapterState))
    (pending : gmap nat RaceResult) (i : nat) : nat :=
  match live states pending i with
  | Some (st, s) => S (length (fst (unpull s (gen st))))
  | None => O
  end.

(** [f 0 + ... + f (n - 1)] *)
Fixpoint sum_upto (f : nat -> nat) (n : nat) : nat :=
  match n with
  | O => O
  | S n' => (sum_upto f n' + f n')%nat
  end.

Definition total_weight (states : list (option AdapterState))
    (pending : gmap nat RaceResult) : nat :=
  sum_upto (weight states pending) (length states).

Lemma sum_upto_S (f : nat -> nat) (n : nat) :
  sum_upto f (S n) = (sum_upto f n + f n)%nat.
Proof. done. Qed.

Lemma sum_upto_ext (f g : nat -> nat) (n : nat) :
  (forall i, (i < n)%nat -> f i = g i) -> sum_upto f n = sum_upto g n.
Proof.
  induction n as [|n IH]; intros H; [done|].
  rewrite !sum_upto_S, IH, (H n); [done|lia|]. intros i Hi. apply H. lia.
Qed.

(** Lowering one entry lowers the sum. *)
Lemma sum_upto_lower (f g : nat -> nat) (n j : nat) :
  (j < n)%nat -> (g j < f j)%nat ->
  (forall i, i <> j -> g i = f i) ->
  (sum_upto g n < sum_upto f n)%nat.
Proof.
  intros Hj Hlt Hsame. induction n as [|n IH]; [lia|].
  rewrite !sum_upto_S. destruct (decide (j = n)) as [->|Hne].
  - rewrite (sum_upto_ext g f n); [lia|]. intros i Hi. apply Hsame. lia.
  - rewrite (Hsame n) by done. assert (j < n)%nat by lia.
    specialize (IH ltac:(lia)). lia.
Qed.

#[local] Arguments projection : simpl never.

Lemma projection_app (i : nat) (a b : list (nat * AgentEvent)) :
  projection i (a ++ b) = projection i a ++ projection i b.
Proof. unfold projection. by rewrite filter_app, map_app. Qed.

Lemma projection_cons_eq (i : nat) (e : AgentEvent)
    (out : list (nat * AgentEvent)) :
  projection i ((i, e) :: out) = e :: projection i out.
Proof. unfold projection. by rewrite filter_cons_True. Qed.

Lemma projection_cons_ne (i j : nat) (e : AgentEvent)
    (out : list (nat * AgentEvent)) :
  i <> j -> projection i ((j, e) :: out) = projection i out.
Proof.
  intros Hne. unfold projection. rewrite filter_cons_False; [done|].
  simpl. congruence.
Qed.

(** *** Updates of the loop state *)

Lemma live_retire states pending j i :
  live (<[j := None]> states) (delete j pending) i =
    if decide (i = j) then None else live states pending i.
Proof.
  unfold live. destruct (decide (i = j)) as [->|Hne].
  - rewrite lookup_delete_eq. by destruct (_ !! j) as [[?|]|].
  - by rewrite list_lookup_insert_ne, lookup_delete_ne.
Qed.

Lemma live_park states pending j st rr i :
  (j < length states)%nat ->
  live (<[j := Some st]> states) (<[j := rr]> pending) i =
    if decide (i = j) then Some (st, outcome rr) else live states pending i.
Proof.
  intros Hj. unfold live. destruct (decide (i = j)) as [->|Hne].
  - by rewrite list_lookup_insert_eq, lookup_insert_eq.
  - by rewrite list_lookup_insert_ne, lookup_insert_ne.
Qed.

Lemma consistent_retire states pending j :
  consistent states pending ->
  consistent (<[j := None]> states) (delete j pending).
Proof.
  intros Hc i. specialize (Hc i). destruct (decide (i = j)) as [->|Hne].
  - rewrite lookup_delete_eq.
    destruct (decide (j < length states)%nat).
    + by rewrite list_lookup_insert_eq.
    + rewrite list_insert_ge by lia. by rewrite lookup_ge_None_2 by lia.
  - by rewrite list_lookup_insert_ne, lookup_delete_ne.
Qed.

Lemma consistent_park states pending j st s :
  consistent states pending ->
  doneYielded st = false ->
  (j < length states)%nat ->
  consistent (<[j := Some st]> states)
    (<[j := {| index := j; outcome := s |}]> pending).
Proof.
  intros Hc Hd Hj i. specialize (Hc i). destruct (decide (i = j)) as [->|Hne].
  - rewrite list_lookup_insert_eq, lookup_insert_eq by done. eauto.
  - by rewrite list_lookup_insert_ne, lookup_insert_ne.
Qed.

Lemma total_weight_lower states pending states' pending' j :
  length states' = length states ->
  (j < length states)%nat ->
  (forall i, i <> j -> live states' pending' i = live states pending i) ->
  (weight states' pending' j < weight states pending j)%nat ->
  (total_weight states' pending' < total_weight states pending)%nat.
Proof.
  intros Hlen Hj Hsame Hlt. unfold total_weight. rewrite Hlen.
  apply (sum_upto_lower _ _ _ j); [done|done|].
  intros i Hi. unfold weight. by rewrite Hsame.
Qed.

(** *** The race *)

Lemma nth_pending_parked (pending : gmap nat RaceResult) (k : nat) :
  size pending <> O ->
  exists i rr, nth_pending pending k = Some rr /\ pending !! i = Some rr.
Proof.
  intros Hsz. unfold nth_pending.
  destruct (lookup_lt_is_Some_2 (map_to_list pending) (k mod size pending))
    as [[i rr] Hl].
  { rewrite length_map_to_list. by apply Nat.mod_upper_bound. }
  exists i, rr. rewrite Hl. split; [done|].
  apply elem_of_map_to_list, list_elem_of_lookup. eauto.
Qed.

Lemma race_cases (pending : gmap nat RaceResult) (abortResolved : bool)
    (choice : Choice) :
  size pending <> O ->
  (race pending abortResolved choice = Some Sentinel /\ abortResolved = true)
  \/ exists i rr, race pending abortResolved choice = Some (Settles rr)
                  /\ pending !! i = Some rr.
Proof.
  intros Hsz. unfold race. destruct choice as [|k].
  - destruct abortResolved; [by left|]. right.
    destruct (nth_pending_parked pending 0 Hsz) as (i & rr & -> & Hp). eauto.
  - right.
    destruct (nth_pending_parked pending k Hsz) as (i & rr & -> & Hp). eauto.
Qed.

Section RunParallel.

Variable clock : nat -> Z.
Variable uuid : nat -> jsstring.

(** On cancellation every live task owes, and gets, one synthesized
    [done]. *)
Lemma yieldInterruptedAndCleanup_projection
    (states : list (option AdapterState)) :
  forall i0 w,
    exists evs w',
      yieldInterruptedAndCleanup clock uuid i0 states w = (evs, [], w')
      /\ uuid_reads w' = uuid_reads w
      /\ run_calls w' = run_calls w
      /\ forall i,
           match (if decide (i0 <= i)%nat then states !! (i - i0)%nat
                  else None) with
           | Some (Some st) =>
               doneYielded st = false ->
               exists t d,
                 projection i evs =
                   [synth_done (state_agent st) interrupted
                      (state_sessionId st) t d]
           | _ => projection i evs = []
           end.
Proof.
  induction states as [|state rest IH]; intros i0 w.
  - eexists _, _. split; [reflexivity|]. split; [done|]. split; [done|].
    intros i. by destruct (decide _).
  - cbn [yieldInterruptedAndCleanup].
    set (mine := match state with
                 | Some st =>
                     if negb (doneYielded st)
                     then [(i0, synth_done (state_agent st) interrupted
                                  (state_sessionId st)
                                  (clock (S (clock_reads w)))
                                  (clock (clock_reads w) - startTime st))]
                     else []
                 | None => []
                 end).
    set (w1 := match state with
               | Some st =>
                   if negb (doneYielded st)
                   then {| clock_reads := S (S (clock_reads w));
                           uuid_reads := uuid_reads w;
                           run_calls := run_calls w |}
                   else w
               | None => w
               end).
    destruct (IH (S i0) w1) as (evs & w' & Hrest & Hu & Hr & Hproj).
    exists (mine ++ evs), w'.
    split.
    { unfold bind. subst mine w1.
      destruct state as [st|]; [destruct (doneYielded st)|]; cbn;
        cbn in Hrest; by rewrite Hrest. }
    split. { rewrite Hu. subst w1. by destruct state as [[]|]; [destruct doneYielded|]. }
    split. { rewrite Hr. subst w1. by destruct state as [[]|]; [destruct doneYielded|]. }
    intros i. specialize (Hproj i). rewrite projection_app.
    destruct (decide (i0 <= i)%nat) as [Hle|Hgt].
    + destruct (decide (i = i0)) as [->|Hne].
      * rewrite Nat.sub_diag. cbn [lookup list_lookup].
        rewrite decide_False in Hproj by lia. rewrite Hproj, app_nil_r.
        subst mine. destruct state as [st|]; [|done].
        intros ->. cbn [negb]. rewrite projection_cons_eq. by eexists _, _.
      * rewrite decide_True in Hproj by lia.
        replace (i - i0)%nat with (S (i - S i0)) by lia. cbn [lookup list_lookup].
        assert (projection i mine = []) as ->.
        { subst mine. destruct state as [st|]; [|done].
          destruct (negb (doneYielded st)); [|done].
          by rewrite projection_cons_ne. }
        exact Hproj.
    + rewrite decide_False in Hproj by lia. rewrite Hproj, app_nil_r.
      subst mine. destruct state as [st|]; [|done].
      destruct (negb (doneYielded st)); [|done].
      rewrite projection_cons_ne; [done|lia].
Qed.

(** The loop completes within its fuel and gives every task what it is
    owed. *)
Lemma runParallel_loop_sessions (b : bool) (schedule : nat -> Choice)
    (signals : list AbortSignal) :
  (forall t, abort_resolved signals t = true -> b = true) ->
  forall fuel n states pending w,
    consistent states pending ->
    (total_weight states pending < fuel)%nat ->
    exists out w',
      runParallel_loop clock uuid schedule signals fuel n states pending w
      = (Completed, out, w')
      /\ forall i, owed b states pending i (projection i out).
Proof.
  intros Hb. induction fuel as [|fuel IH]; intros n states pending w Hc Hw;
    [lia|].
  cbn [runParallel_loop].
  destruct (size pending =? 0)%nat eqn:Hsz.
  { apply Nat.eqb_eq, map_size_empty_iff in Hsz as ->.
    eexists _, _. split; [reflexivity|]. intros i. unfold owed, live.
    rewrite lookup_empty. by destruct (states !! i) as [[?|]|]. }
  apply Nat.eqb_neq in Hsz.
  destruct (race_cases pending (abort_resolved signals (S n)) (schedule n) Hsz)
    as [[Hrace Har]|(j & rr & Hrace & Hp)]; rewrite Hrace.
  { destruct (yieldInterruptedAndCleanup_projection states 0 w)
      as (evs & w' & Hy & _ & _ & Hproj).
    eexists _, _. split.
    { unfold bind, yield_all, ret. rewrite Hy. cbn. reflexivity. }
    rewrite app_nil_r. intros i. specialize (Hproj i). specialize (Hc i).
    rewrite decide_True, Nat.sub_0_r in Hproj by lia.
    unfold owed, live. destruct (states !! i) as [[st|]|].
    - destruct Hc as [Hd (s & ->)]. destruct (Hproj Hd) as (t & d & ->).
      apply session_interrupted. by apply (Hb (S n)).
    - done.
    - done. }
  pose proof (Hc j) as Hcj.
  destruct (states !! j) as [[st|]|] eqn:Hst; [|congruence..].
  destruct Hcj as [Hdy (s & Hs)]. rewrite Hp in Hs. injection Hs as ->.
  cbn [index outcome]. rewrite Hst.
  assert (j < length states)%nat as Hj by (by apply lookup_lt_Some in Hst).
  assert (live states pending j = Some (st, s)) as Hlive.
  { unfold live. by rewrite Hst, Hp. }
  destruct s as [[e|]|err].
  - (* an event *)
    rewrite Hdy.
    destruct (decide (type e = lit "done")) as [Hd|Hd].
    + destruct (IH (S n) (<[j := None]> states) (delete j pending) w)
        as (out & w' & Hloop & Howed).
      { by apply consistent_retire. }
      { apply (Nat.lt_le_trans _ (total_weight states pending)); [|lia].
        apply (total_weight_lower _ _ _ _ j); [by rewrite length_insert|done| |].
        - intros i Hi. rewrite live_retire. by rewrite decide_False.
        - unfold weight. rewrite live_retire, decide_True, Hlive by done. lia. }
      eexists _, _. split.
      { unfold bind, yield, ret. cbn. rewrite list_insert_insert_eq, Hloop.
        reflexivity. }
      intros i. specialize (Howed i). unfold owed in *.
      rewrite live_retire in Howed. destruct (decide (i = j)) as [->|Hi].
      * rewrite Hlive. cbn. rewrite projection_cons_eq, Howed.
        by apply session_own_done.
      * cbn. by rewrite projection_cons_ne.
    + set (st' := set_sessionId st (sessionId e)).
      set (st'' := {| gen := snd (next (gen st')); state_agent := state_agent st';
                      startTime := startTime st';
                      state_sessionId := state_sessionId st';
                      doneYielded := doneYielded st' |}).
      set (rr' := {| index := j; outcome := fst (next (gen st')) |}).
      destruct (IH (S n) (<[j := Some st'']> states) (<[j := rr']> pending) w)
        as (out & w' & Hloop & Howed).
      { by apply consistent_park. }
      { apply (Nat.lt_le_trans _ (total_weight states pending)); [|lia].
        apply (total_weight_lower _ _ _ _ j); [by rewrite length_insert|done| |].
        - intros i Hi. rewrite live_park by done. by rewrite decide_False.
        - unfold weight. rewrite live_park, decide_True, Hlive by done.
          subst rr' st''. cbn [outcome gen]. rewrite unpull_next. cbn. lia. }
      eexists _, _. split.
      { unfold bind, yield, ret, scheduleNext. cbn.
        rewrite list_lookup_insert_eq by done.
        subst st'' rr'. clear Howed.
        destruct (next (gen st')) as [s' g'] eqn:Hn.
        rewrite list_insert_insert_eq, insert_delete_eq.
        cbn [fst snd] in Hloop. rewrite Hloop. reflexivity. }
      intros i. specialize (Howed i). unfold owed in *.
      rewrite live_park in Howed by done.
      destruct (decide (i = j)) as [->|Hi].
      * rewrite Hlive. cbn. rewrite projection_cons_eq.
        subst rr' st''. cbn [outcome gen] in Howed.
        rewrite unpull_next in Howed. by apply session_forward.
      * cbn. by rewrite projection_cons_ne.
  - (* exhausted *)
    rewrite Hdy.
    destruct (IH (S n) (<[j := None]> states) (delete j pending)
                {| clock_reads := S (S (S (clock_reads w)));
                   uuid_reads := uuid_reads w; run_calls := run_calls w |})
      as (out & w' & Hloop & Howed).
    { by apply consistent_retire. }
    { apply (Nat.lt_le_trans _ (total_weight states pending)); [|lia].
      apply (total_weight_lower _ _ _ _ j); [by rewrite length_insert|done| |].
      - intros i Hi. rewrite live_retire. by rewrite decide_False.
      - unfold weight. rewrite live_retire, decide_True, Hlive by done. lia. }
    eexists _, _. split.
    { unfold bind, yield, ret. cbn. cbn in Hloop. rewrite Hloop.
      reflexivity. }
    intros i. specialize (Howed i). unfold owed in *.
    rewrite live_retire in Howed. destruct (decide (i = j)) as [->|Hi].
    * rewrite Hlive. cbn. rewrite !projection_cons_eq, Howed.
      by apply session_missing_done.
    * cbn. by rewrite !projection_cons_ne.
  - (* threw *)
    rewrite Hdy.
    destruct (IH (S n) (<[j := None]> states) (delete j pending)
                {| clock_reads := S (S (S (clock_reads w)));
                   uuid_reads := uuid_reads w; run_calls := run_calls w |})
      as (out & w' & Hloop & Howed).
    { by apply consistent_retire. }
    { apply (Nat.lt_le_trans _ (total_weight states pending)); [|lia].
      apply (total_weight_lower _ _ _ _ j); [by rewrite length_insert|done| |].
      - intros i Hi. rewrite live_retire. by rewrite decide_False.
      - unfold weight. rewrite live_retire, decide_True, Hlive by done. lia. }
    eexists _, _. split.
    { unfold bind, yield, ret. cbn. cbn in Hloop. rewrite Hloop.
      reflexivity. }
    intros i. specialize (Howed i). unfold owed in *.
    rewrite live_retire in Howed. destruct (decide (i = j)) as [->|Hi].
    * rewrite Hlive. cbn. rewrite !projection_cons_eq, Howed.
      by apply session_adapter_error.
    * cbn. by rewrite !projection_cons_ne.
Qed.

(** *** Starting the tasks *)

(** The state [runParallel] creates for task [i]. *)
Definition started (w : World) (i : nat) (task : ParallelTask)
    : option AdapterState :=
  Some {| gen := generator_of task;
          state_agent := adapter_agent (adapter task);
          startTime := clock (clock_reads w + i);
          state_sessionId := uuid (uuid_reads w + i);
          doneYielded := false |}.

Lemma start_states_run (tasks : list ParallelTask) :
  calls_return tasks ->
  forall w, exists w',
    start_states (O:=nat * AgentEvent) clock uuid tasks w
    = (inl (imap (started w) tasks), [], w').
Proof.
  induction 1 as [|task rest [g Hg] _ IH]; intros w.
  - by eexists.
  - cbn [start_states]. unfold bind at 1. cbn [invoke]. rewrite Hg.
    unfold bind at 1. cbn [Date_now clock_reads uuid_reads run_calls].
    unfold bind at 1. cbn [generateSessionId clock_reads uuid_reads run_calls].
    unfold bind at 1.
    edestruct IH as (w' & ->). eexists. unfold ret. cbn [app].
    f_equal. f_equal. f_equal. cbn [imap]. f_equal.
    + unfold started, generator_of. by rewrite Hg, !Nat.add_0_r.
    + apply imap_ext. intros i t _. unfold started. cbn.
      by rewrite !Nat.add_succ_r.
Qed.

(** A state after its generator has been pulled, and the promise parked for
    it. *)
Definition pulled (st : AdapterState) : AdapterState :=
  {| gen := snd (next (gen st)); state_agent := state_agent st;
     startTime := startTime st; state_sessionId := state_sessionId st;
     doneYielded := doneYielded st |}.

Definition parked (i : nat) (st : AdapterState) : RaceResult :=
  {| index := i; outcome := fst (next (gen st)) |}.

Lemma scheduleNext_live states pending i st :
  states !! i = Some (Some st) ->
  scheduleNext i states pending =
    (<[i := Some (pulled st)]> states, <[i := parked i st]> pending).
Proof.
  intros Hst. unfold scheduleNext. rewrite Hst.
  unfold pulled, parked. by destruct (next (gen st)).
Qed.

Lemma schedule_initial (states : list (option AdapterState)) (m : nat) :
  (m <= length states)%nat ->
  (forall i, (i < length states)%nat -> exists st, states !! i = Some (Some st)) ->
  let sp := foldl (fun sp i => scheduleNext i (fst sp) (snd sp))
              (states, (∅ : gmap nat RaceResult)) (seq 0 m) in
  length (fst sp) = length states
  /\ forall i,
       ((i < m)%nat ->
        forall st, states !! i = Some (Some st) ->
                   fst sp !! i = Some (Some (pulled st))
                   /\ snd sp !! i = Some (parked i st))
       /\ ((m <= i)%nat -> fst sp !! i = states !! i /\ snd sp !! i = None).
Proof.
  intros Hm Hall. induction m as [|m IH].
  - cbn. split; [done|]. intros i. split; [lia|]. intros _. split; [done|].
    apply lookup_empty.
  - rewrite seq_S, foldl_app. cbn [foldl Nat.add].
    destruct IH as [Hlen IH]; [lia|].
    set (sp := foldl _ _ (seq 0 m)) in *.
    destruct (Hall m) as [st Hst]; [lia|].
    rewrite (scheduleNext_live _ _ _ st);
      [|by rewrite (proj1 (proj2 (IH m) (Nat.le_refl m)))].
    cbn [fst snd]. split; [by rewrite length_insert|].
    intros i. split.
    + intros Hi st' Hst'. destruct (decide (i = m)) as [->|Hne].
      * rewrite Hst in Hst'. injection Hst' as ->.
        rewrite list_lookup_insert_eq, lookup_insert_eq by lia. done.
      * rewrite list_lookup_insert_ne, lookup_insert_ne by done.
        apply IH; [lia|done].
    + intros Hi. rewrite list_lookup_insert_ne, lookup_insert_ne by lia.
      apply IH. lia.
Qed.

(** *** The pre-abort branch *)

(** The terminal synthesized for task [k] when a token is tripped at the
    call: three clock reads and one fresh id per task. *)
Definition interrupted_at (w : World) (k : nat) (task : ParallelTask)
    : AgentEvent :=
  synth_done (adapter_agent (adapter task)) interrupted
    (uuid (uuid_reads w + k))
    (clock (clock_reads w + 3 * k + 2))
    (clock (clock_reads w + 3 * k + 1) - clock (clock_reads w + 3 * k)).

Lemma interrupt_all_run (tasks : list ParallelTask) :
  forall i0 w, exists w',
    interrupt_all clock uuid i0 tasks w
    = (tt, imap (fun k task => ((i0 + k)%nat, interrupted_at w k task)) tasks,
       w')
    /\ run_calls w' = run_calls w.
Proof.
  induction tasks as [|task rest IH]; intros i0 w.
  - by eexists.
  - cbn [interrupt_all]. unfold bind at 1. cbn [generateSessionId].
    unfold bind at 1. cbn [Date_now clock_reads uuid_reads run_calls].
    unfold bind at 1. rewrite makeSynthDone_run.
    cbn [clock_reads uuid_reads run_calls].
    unfold bind at 1. cbn [yield]. 
    edestruct (IH (S i0)) as (w' & -> & Hr). exists w'. split; [|by rewrite Hr].
    cbn [app imap]. f_equal. f_equal. f_equal.
    + unfold interrupted_at. f_equal; [lia|].
      f_equal; [f_equal; lia|f_equal; lia|].
      f_equal; f_equal; lia.
    + apply imap_ext. intros k t _. cbn. unfold interrupted_at.
      cbn [clock_reads uuid_reads]. f_equal; [lia|].
      f_equal; [f_equal; lia|f_equal; lia|].
      f_equal; f_equal; lia.
Qed.

Lemma projection_imap {A} (f : nat -> A -> AgentEvent) (l : list A) (i : nat) :
  projection i (imap (fun k x => (k, f k x)) l) =
    match l !! i with
    | Some x => [f i x]
    | None => []
    end.
Proof.
  induction l as [|x l IH] using rev_ind.
  - by rewrite lookup_nil.
  - rewrite imap_app, projection_app, IH. cbn [imap].
    rewrite Nat.add_0_r.
    destruct (decide (i = length l)) as [->|Hne].
    + rewrite lookup_app_r, Nat.sub_diag by done. cbn.
      rewrite lookup_ge_None_2 by done. by rewrite projection_cons_eq.
    + rewrite projection_cons_ne by done. rewrite app_nil_r.
      destruct (decide (i < length l)%nat).
      * by rewrite lookup_app_l.
      * rewrite !lookup_ge_None_2; [done|rewrite length_app; simpl; lia|lia].
Qed.

(** *** Tokens that never trip *)

Definition never_trips (tasks : list ParallelTask) : Prop :=
  forall task s,
    task ∈ tasks -> signal_of (options task) = Some s -> tripsAt s = None.

Lemma never_trips_pre (tasks : list ParallelTask) :
  never_trips tasks ->
  existsb (fun t => opt_aborted (signal_of (options t)) 0) tasks = false.
Proof.
  intros Hn. apply not_true_is_false. intros Hex.
  apply existsb_exists in Hex as (task & Hin & Ha).
  apply list_elem_of_In in Hin. unfold opt_aborted in Ha.
  destruct (signal_of (options task)) as [s|] eqn:Hs; [|done].
  unfold aborted in Ha. by rewrite (Hn task s Hin Hs) in Ha.
Qed.

Lemma never_trips_resolved (tasks : list ParallelTask) (t : nat) :
  never_trips tasks ->
  abort_resolved (omap (fun t => signal_of (options t)) tasks) t = false.
Proof.
  intros Hn. apply not_true_is_false. intros Hex.
  apply existsb_exists in Hex as (s & Hin & Ha).
  apply list_elem_of_In, list_elem_of_omap in Hin as (task & Hin & Hs).
  unfold aborted in Ha. by rewrite (Hn task s Hin Hs) in Ha.
Qed.

Lemma loop_bound_weight (tasks : list ParallelTask) :
  loop_bound tasks =
    S (sum_upto
         (fun i => match tasks !! i with
                   | Some task => S (length (yields (generator_of task)))
                   | None => O
                   end)
         (length tasks)).
Proof.
  unfold loop_bound. f_equal.
  induction tasks as [|task rest IH] using rev_ind; [done|].
  rewrite foldr_app, length_app. cbn [foldr length].
  replace (length rest + 1)%nat with (S (length rest)) by lia.
  cbn [sum_upto]. rewrite lookup_app_r, Nat.sub_diag by done. cbn [lookup list_lookup].
  rewrite (sum_upto_ext _
    (fun i => match rest !! i with
              | Some task0 => S (length (yields (generator_of task0)))
              | None => O
              end)).
  2:{ intros i Hi. by rewrite lookup_app_l. }
  rewrite <- IH. clear IH. rewrite Nat.add_0_r.
  rewrite events_in_store_generator_of.
  generalize (S (length (yields (generator_of task)))).
  intros c. induction rest as [|r rest IH]; cbn [foldr]; [done|].
  rewrite IH. lia.
Qed.

(** *** Every task gets its session *)

Lemma runParallel_sessions (b : bool) (schedule : nat -> Choice)
    (tasks : list ParallelTask) (w : World) :
  calls_return tasks ->
  (b = false -> never_trips tasks) ->
  exists out w',
    runParallel clock uuid schedule tasks w = (Completed, out, w')
    /\ (forall i task,
          tasks !! i = Some task ->
          session b (adapter_agent (adapter task))
            (completion (generator_of task))
            (uuid (uuid_reads w + i))
            (yields (generator_of task))
            (projection i out))
    /\ (forall i, (length tasks <= i)%nat -> projection i out = []).
Proof.
  intros Hcalls Hb. unfold runParallel.
  destruct (length tasks =? 0)%nat eqn:Hlen.
  { apply Nat.eqb_eq, length_zero_iff_nil in Hlen as ->.
    eexists _, _. split; [reflexivity|]. split; [|done].
    intros i task Hl. by rewrite lookup_nil in Hl. }
  destruct (existsb _ tasks) eqn:Hpre.
  { destruct b; [|by rewrite never_trips_pre in Hpre by auto].
    destruct (interrupt_all_run tasks 0 w) as (w' & Hrun & _).
    eexists _, _. split.
    { unfold bind, ret. rewrite Hrun. rewrite app_nil_r. reflexivity. }
    cbn [Nat.add]. split.
    - intros i task Hl. rewrite projection_imap, Hl.
      by apply session_interrupted.
    - intros i Hi. by rewrite projection_imap, lookup_ge_None_2. }
  destruct (start_states_run tasks Hcalls w) as (w1 & Hstart).
  unfold bind at 1. rewrite Hstart.
  set (states := imap (started w) tasks).
  assert (length states = length tasks) as Hls by apply length_imap.
  assert (forall i task, tasks !! i = Some task ->
                         states !! i = Some (started w i task)) as Hstates.
  { intros i task Hl. subst states. by rewrite list_lookup_imap, Hl. }
  destruct (schedule_initial states (length states)) as [Hlen' Hinit];
    [done| |].
  { intros i Hi. rewrite Hls in Hi.
    destruct (lookup_lt_is_Some_2 tasks i Hi) as [task Hl].
    rewrite (Hstates i task Hl). unfold started. eauto. }
  destruct (foldl _ _ (seq 0 (length states))) as [states' pending'].
  cbn [fst snd] in Hlen', Hinit.
  assert (forall i task, tasks !! i = Some task ->
            exists st, started w i task = Some st
                       /\ states' !! i = Some (Some (pulled st))
                       /\ pending' !! i = Some (parked i st)) as Hlive.
  { intros i task Hl. eexists. split; [reflexivity|].
    apply Hinit; [|by apply Hstates].
    rewrite Hls. by apply lookup_lt_Some in Hl. }
  assert (forall i, (length tasks <= i)%nat ->
            states' !! i = None /\ pending' !! i = None) as Hdead.
  { intros i Hi. destruct (proj2 (Hinit i)) as [Hs Hp]; [lia|].
    split; [|done]. rewrite Hs. apply lookup_ge_None_2. lia. }
  destruct (runParallel_loop_sessions b schedule
              (omap (fun t => signal_of (options t)) tasks)
              ltac:(intros t Ht; destruct b; [done|];
                    by rewrite never_trips_resolved in Ht by auto)
              (loop_bound tasks) 0 states' pending' w1)
    as (out & w' & Hloop & Howed).
  { intros i. destruct (decide (i < length tasks)%nat) as [Hi|Hi].
    - destruct (lookup_lt_is_Some_2 tasks i Hi) as [task Hl].
      destruct (Hlive i task Hl) as (st & Hst & -> & ->).
      split; [|by eexists]. unfold started in Hst. by injection Hst as <-.
    - destruct (Hdead i) as [-> ->]; [lia|done]. }
  { rewrite loop_bound_weight. apply Nat.lt_succ_r.
    unfold total_weight. rewrite Hlen', Hls.
    rewrite (sum_upto_ext _
      (fun i => match tasks !! i with
                | Some task => S (length (yields (generator_of task)))
                | None => O
                end)); [done|].
    intros i Hi. destruct (lookup_lt_is_Some_2 tasks i Hi) as [task Hl].
    destruct (Hlive i task Hl) as (st & Hst & Hs' & Hp').
    unfold weight, live. rewrite Hs', Hp', Hl. cbn [parked outcome pulled gen].
    rewrite unpull_next. unfold started in Hst. by injection Hst as <-. }
  eexists _, _. split; [rewrite Hloop; reflexivity|].
  cbn [app]. split.
  - intros i task Hl. specialize (Howed i).
    destruct (Hlive i task Hl) as (st & Hst & Hs' & Hp').
    unfold owed, live in Howed. rewrite Hs', Hp' in Howed.
    cbn [parked outcome pulled gen state_agent state_sessionId] in Howed.
    rewrite unpull_next in Howed. unfold started in Hst.
    injection Hst as <-. exact Howed.
  - intros i Hi. specialize (Howed i). destruct (Hdead i Hi) as [Hs' Hp'].
    unfold owed, live in Howed. by rewrite Hs' in Howed.
Qed.

(** *** Counting over the merged stream *)





End RunParallel.

(** ** Streams up to the clock *)



Lemma synthesized_session_id agent sid tail :
  synthesized agent sid tail -> Forall (fun e => sessionId e = sid) tail.
Proof. destruct 1; by repeat constructor. Qed.

(** The stream of a call made with a tripped token: one synthesized
    [done{interrupted}] with zeroed usage and the given duration. *)
Definition pre_abort_law (duration : Z) (out : list AgentEvent) : Prop :=
  exists d,
    out = [d]
    /\ type d = lit "done"
    /\ payload d = DonePayload interrupted None zeroed_usage duration.

Section Claims.

Variable clock : nat -> Z.
Variable uuid : nat -> jsstring.



(** C5, amended.  When the token is already tripped at the call: [runAgent]
    on a registered adapter never invokes [run], ends normally, and yields
    exactly one [done{interrupted}] with zeroed usage, under the provisional
    session id, whose duration is the clock reading taken at synthesis minus
    the start reading taken just before it (zero when the clock has not
    advanced in between); [runParallel] invokes no adapter and yields exactly
    one [done{interrupted}] with zeroed usage per task, in task order. *)
Theorem pre_aborted_short_circuit :
  (forall (agent prompt : jsstring) (options : option AgentOptions)
          (registry : AdapterRegistry.t) (adapter : AgentAdapter) (w : World),
     AdapterRegistry.get registry agent = Some adapter ->
     opt_aborted (signal_of options) 0 = true ->
     let m := runAgent clock uuid agent prompt options registry in
     events_of m w
     = [synth_done agent interrupted (uuid (uuid_reads w))
          (clock (S (S (clock_reads w))))
          (clock (S (clock_reads w)) - clock (clock_reads w))]
     /\ pre_abort_law (clock (S (clock_reads w)) - clock (clock_reads w))
          (events_of m w)
     /\ result_of m w = Finished
     /\ run_calls (world_after m w) = run_calls w)
  /\ (forall (schedule : nat -> Choice) (tasks : list ParallelTask)
             (w : World),
        existsb (fun t => opt_aborted (signal_of (options t)) 0) tasks = true ->
        let m := runParallel clock uuid schedule tasks in
        events_of m w
        = imap (fun k task => (k, interrupted_at clock uuid w k task)) tasks
        /\ Forall2 (fun task d =>
                      agent d = adapter_agent (adapter task)
                      /\ exists duration, pre_abort_law duration [d])
             tasks (merged (events_of m w))
        /\ result_of m w = Completed
        /\ run_calls (world_after m w) = run_calls w).
Proof.
  split.
  - intros agent prompt options registry adapter w Hreg Hpre m. subst m.
    unfold events_of, result_of, world_after, runAgent. rewrite Hreg.
    unfold bind at 1 3 5 7. cbn [generateSessionId]. 
    unfold bind at 1 3 5 7. cbn [Date_now clock_reads uuid_reads run_calls].
    rewrite Hpre. cbn. split_and!; [done| |done|done].
    eexists. by split_and!.
  - intros schedule tasks w Hpre m. subst m.
    unfold events_of, result_of, world_after, runParallel. rewrite Hpre.
    destruct (length tasks =? 0)%nat eqn:Hlen.
    { apply Nat.eqb_eq, length_zero_iff_nil in Hlen. by subst tasks. }
    destruct (interrupt_all_run clock uuid tasks 0 w) as (w' & Hrun & Hcalls).
    unfold bind, ret. rewrite Hrun. cbn [fst snd Nat.add].
    rewrite app_nil_r. split_and!; [done| |done|done].
    unfold merged.
    assert (forall k task,
              agent (interrupted_at clock uuid w k task)
              = adapter_agent (adapter task)
              /\ exists duration,
                   pre_abort_law duration [interrupted_at clock uuid w k task])
      as Hone.
    { intros k task. split; [done|]. eexists. eexists. by split_and!. }
    revert Hone. clear.
    generalize (interrupted_at clock uuid w). intros f.
    change (fun k task => (k, f k task))
      with (fun k task => (id k, f k task)).
    generalize (@id nat). intros g.
    revert f g.
    induction tasks as [|task rest IH]; intros f g Hone; [constructor|].
    cbn [imap map snd]. constructor; [apply Hone|].
    apply (IH (f ∘ S) (g ∘ S)). intros k t. apply Hone.
Qed.

(** The session-id law as it is written, for the events [yielded] by the
    adapter before the synthesis: every synthesized event carries the session
    id of the last of them, or the provisional id when there is none. *)
Definition last_yielded_law (yielded : list AgentEvent)
    (provisional : jsstring) (synthesized : list AgentEvent) : Prop :=
  Forall (fun e => sessionId e = last_sid yielded provisional) synthesized.

(** C6, amended.  What follows the forwarded adapter events is the
    synthesized tail (nothing, an error and [done] pair, or a
    [done{interrupted}]), and every event of that tail carries the session id
    of the last forwarded event, or the id the driver generated for the
    session when nothing was forwarded.  In the stream of [runAgent] the
    forwarded events are those of [forwarded_under]: an event whose pull the
    cancellation overtakes is dropped and its id is not adopted.  In the
    projection of the stream of [runParallel] on a task they are a prefix of
    the task's events: its events up to its [done] whenever the tail is not a
    [done{interrupted}], and always when no token trips. *)
Theorem synthesized_session_ids :
  (forall (agent prompt : jsstring) (options : option AgentOptions)
          (registry : AdapterRegistry.t) (adapter : AgentAdapter)
          (gen : Generator) (w : World),
     AdapterRegistry.get registry agent = Some adapter ->
     run adapter prompt options = inl gen ->
     let fwd := forwarded_under (signal_of options) 0 (yields gen) in
     exists tail,
       events_of (runAgent clock uuid agent prompt options registry) w
       = fwd ++ tail
       /\ synthesized agent (last_sid fwd (uuid (uuid_reads w))) tail
       /\ last_yielded_law fwd (uuid (uuid_reads w)) tail
       /\ (tail = [] -> exists e, last fwd = Some e /\ is_done e))
  /\ (forall (schedule : nat -> Choice) (tasks : list ParallelTask)
             (w : World) (i : nat) (task : ParallelTask) (gen : Generator),
        calls_return tasks ->
        tasks !! i = Some task ->
        run (adapter task) (prompt task) (options task) = inl gen ->
        let out :=
          projection i (events_of (runParallel clock uuid schedule tasks) w) in
        (exists fwd tail,
           out = fwd ++ tail
           /\ fwd `prefix_of` yields gen
           /\ synthesized (adapter_agent (adapter task))
                (last_sid fwd (uuid (uuid_reads w + i))) tail
           /\ last_yielded_law fwd (uuid (uuid_reads w + i)) tail
           /\ (tail = [] -> exists e, last fwd = Some e /\ is_done e)
           /\ (tail = [] \/ (exists e d, tail = [e; d]) ->
               fwd = forwarded (yields gen)))
        /\ (never_trips tasks ->
            exists tail,
              out = forwarded (yields gen) ++ tail
              /\ (tail = [] \/ exists e d, tail = [e; d])
              /\ last_yielded_law (forwarded (yields gen))
                   (uuid (uuid_reads w + i)) tail)).
Proof.
  split.
  - intros agent prompt options registry adapter gen w Hreg Hcall fwd.
    subst fwd. unfold events_of, runAgent. rewrite Hreg.
    unfold bind at 1. cbn [generateSessionId]. unfold bind at 1.
    cbn [Date_now clock_reads uuid_reads run_calls].
    destruct (opt_aborted (signal_of options) 0) eqn:H0.
    + assert (forwarded_under (signal_of options) 0 (yields gen) = []) as ->.
      { destruct (yields gen) as [|e rest]; [done|]. cbn [forwarded_under].
        by rewrite (opt_aborted_mono _ 0 (resume_instant 0) ltac:(lia) H0). }
      unfold bind, yield, ret. rewrite makeSynthDone_run. cbn [fst snd app].
      eexists. split; [reflexivity|]. split; [constructor|].
      split; [by repeat constructor|discriminate].
    + unfold bind at 1. cbn [invoke clock_reads uuid_reads run_calls].
      rewrite Hcall. unfold bind at 1.
      edestruct (runAgent_loop_forwarded clock uuid agent (signal_of options)
                   (clock (clock_reads w)) (completion gen) (yields gen) O
                   (uuid (uuid_reads w)))
        as (tail & w' & Hloop & Hsyn & Hl).
      rewrite Hloop. unfold ret. cbn [fst snd]. rewrite app_nil_r.
      exists tail. split; [done|]. split; [exact Hsyn|]. split; [|done].
      exact (synthesized_session_id _ _ _ Hsyn).
  - intros schedule tasks w i task gen Hcalls Hl Hgen out. subst out. split.
    + destruct (runParallel_sessions clock uuid true schedule tasks w Hcalls)
        as (out & w' & Hrun & Hs & _); [done|].
      unfold events_of. rewrite Hrun. cbn [fst snd].
      specialize (Hs i task Hl).
      rewrite (generator_of_returned task gen Hgen) in Hs.
      destruct (session_synthesized _ _ _ _ _ _ Hs)
        as (fwd & tail & -> & Hp & Hsyn & Hlast & Hfwd).
      exists fwd, tail. split_and!; [done..| |done|done].
      exact (synthesized_session_id _ _ _ Hsyn).
    + intros Hn.
      destruct (runParallel_sessions clock uuid false schedule tasks w Hcalls)
        as (out & w' & Hrun & Hs & _); [done|].
      unfold events_of. rewrite Hrun. cbn [fst snd].
      specialize (Hs i task Hl).
      rewrite (generator_of_returned task gen Hgen) in Hs.
      apply session_uncancelled in Hs as (tail & -> & Hex & Hall).
      exists tail. split; [done|].
      destruct (decide (Exists is_done (yields gen))) as [Hx|Hx].
      * rewrite (Hex Hx). split; [by left|constructor].
      * apply not_Exists_Forall in Hx; [|apply _].
        destruct (Hall Hx) as (t1 & t2 & d & ->).
        split; [right; by eexists _, _|].
        rewrite forwarded_all by done. by repeat constructor.
Qed.

End Claims.

(** ** Sample runs *)

(** A clock that advances by one millisecond at every reading. *)
Definition ticking_clock (n : nat) : Z := 1000 + Z.of_nat n.

Definition sample_uuid (n : nat) : jsstring :=
  lit "driver-" ++ [(48 + N.of_nat n)%N].

Definition sample_text (sid : string) : AgentEvent :=
  {| type := lit "text"; agent := lit "mock"; timestamp := 5;
     sessionId := lit sid; metadata := None;
     payload := TextPayload (lit "hi") |}.

Definition sample_done (sid : string) : AgentEvent :=
  {| type := lit "done"; agent := lit "mock"; timestamp := 6;
     sessionId := lit sid; metadata := None;
     payload := DonePayload success None
                  {| inputTokens := 10; outputTokens := 20; toolUses := 1;
                     totalCostUsd := None |} 100 |}.

(** An adapter whose [run] is an [async *] method: the call returns the
    generator. *)
Definition mock_adapter (g : Generator) : AgentAdapter :=
  {| adapter_agent := lit "mock"; run := fun _ _ => inl g |}.

(** An adapter whose [run] is a plain function that throws when called. *)
Definition failing_adapter : AgentAdapter :=
  {| adapter_agent := lit "broken";
     run := fun _ _ => inr (ErrorObject (lit "cannot start")) |}.

Definition registry_with (a : AgentAdapter) : AdapterRegistry.t :=
  {[ adapter_agent a := a ]}.

Definition text_then_return : Generator :=
  {| yields := [sample_text "s1"]; completion := Returns |}.

Definition text_then_throw : Generator :=
  {| yields := [sample_text "s1"];
     completion := Throws (ErrorObject (lit "boom")) |}.

Definition done_then_throw : Generator :=
  {| yields := [sample_text "s1"; sample_done "s1"; sample_text "s1"];
     completion := Throws (ErrorObject (lit "late")) |}.

(** Two events under two session ids. *)
Definition two_sessions : Generator :=
  {| yields := [sample_text "s1"; sample_text "s2"]; completion := Returns |}.

(** Options that carry only a token, which trips at instant [t]. *)
Definition options_tripping_at (t : nat) : AgentOptions :=
  {| cwd := None; model := None; permissions := None; maxTurns := None;
     maxBudgetUsd := None; resume := None;
     abortSignal := Some {| tripsAt := Some t |};
     allowedTools := None; disallowedTools := None |}.

(** Options that carry only a token, tripped at the call. *)
Definition tripped_options : AgentOptions := options_tripping_at 0.


(** With the message in lower case, as the law is written, the law fails:
    the driver's text starts with a capital. *)
Lemma missing_done_message_lower_case_fails :
  ~ missing_done_law
      (lit "protocol violation: adapter completed without terminal event")
      (yields text_then_return)
      (events_of
         (runAgent ticking_clock sample_uuid (lit "mock") (lit "go") None
            (registry_with (mock_adapter text_then_return)))
         world0).
Proof.
  intros (e & d & Hout & _ & Hp & _).
  vm_compute in Hout. injection Hout as <- _. vm_compute in Hp.
  discriminate Hp.
Qed.

Lemma runAgent_missing_done_witness :
  AdapterRegistry.get (registry_with (mock_adapter text_then_return))
    (lit "mock") = Some (mock_adapter text_then_return)
  /\ missing_done_law MISSING_DONE_text (yields text_then_return)
       (events_of
          (runAgent ticking_clock sample_uuid (lit "mock") (lit "go") None
             (registry_with (mock_adapter text_then_return)))
          world0).
Proof.
  split; [reflexivity|].
  apply (runAgent_missing_done ticking_clock sample_uuid (lit "mock")
           (lit "go") None (registry_with (mock_adapter text_then_return))
           (mock_adapter text_then_return) text_then_return world0).
  - reflexivity.
  - reflexivity.
  - reflexivity.
  - reflexivity.
  - repeat constructor. unfold is_done. simpl. discriminate.
Defined.



Example throw_overtaken_stream :
  events_of
    (runAgent ticking_clock sample_uuid (lit "mock") (lit "go")
       (Some (options_tripping_at 5))
       (registry_with (mock_adapter text_then_throw))) world0
  = [sample_text "s1"; synth_done (lit "mock") interrupted (lit "s1") 1002 1].
Proof. vm_compute. reflexivity. Qed.

(** With a duration of zero, as the short-circuit is written, the law fails
    under a clock that advances between the start reading and the
    synthesis. *)
Lemma pre_abort_zero_duration_fails :
  ~ pre_abort_law 0
      (events_of
         (runAgent ticking_clock sample_uuid (lit "mock") (lit "go")
            (Some tripped_options)
            (registry_with (mock_adapter text_then_return)))
         world0).
Proof.
  intros (d & Hout & _ & Hp).
  vm_compute in Hout. injection Hout as <-. vm_compute in Hp.
  discriminate Hp.
Qed.

(** The adapter's own [done] wins: the events after it and the late throw
    are never seen. *)
Example done_then_throw_stream :
  runAgent ticking_clock sample_uuid (lit "mock") (lit "go") None
    (registry_with (mock_adapter done_then_throw)) world0
  = (Finished, [sample_text "s1"; sample_done "s1"],
     {| clock_reads := 1; uuid_reads := 1; run_calls := [lit "mock"] |}).
Proof. vm_compute. reflexivity. Qed.

Example text_then_throw_stream :
  events_of
    (runAgent ticking_clock sample_uuid (lit "mock") (lit "go") None
       (registry_with (mock_adapter text_then_throw))) world0
  = [sample_text "s1";
     synth_error (lit "mock") (lit "ADAPTER_ERROR") (lit "boom") (lit "s1")
       1001;
     synth_done (lit "mock") error (lit "s1") 1003 2].
Proof. vm_compute. reflexivity. Qed.

Example unknown_agent_raises :
  result_of
    (runAgent ticking_clock sample_uuid (lit "nobody") (lit "go") None
       (registry_with (mock_adapter text_then_throw))) world0
  = Raised (ErrorObject (lit "No adapter registered for agent: nobody")).
Proof. vm_compute. reflexivity. Qed.

(** A [run] that throws when it is called: the exception leaves [runAgent],
    after the session id and the start reading, and nothing is yielded. *)
Example failing_call_raises :
  runAgent ticking_clock sample_uuid (lit "broken") (lit "go") None
    (registry_with failing_adapter) world0
  = (Raised (ErrorObject (lit "cannot start")), [],
     {| clock_reads := 1; uuid_reads := 1; run_calls := [lit "broken"] |}).
Proof. vm_compute. reflexivity. Qed.

Definition sample_task (g : Generator) : ParallelTask :=
  {| adapter := mock_adapter g; prompt := lit "go"; options := None |}.

Definition failing_task : ParallelTask :=
  {| adapter := failing_adapter; prompt := lit "go"; options := None |}.

Definition text_then_done : Generator :=
  {| yields := [sample_text "s2"; sample_done "s2"]; completion := Returns |}.

(** Two tasks, the first throwing: the second still gets its events and its
    own [done], whichever promise settles first. *)
Example parallel_throw_isolated :
  projection 1
    (events_of
       (runParallel ticking_clock sample_uuid (fun n => PendingFirst n)
          [sample_task text_then_throw; sample_task text_then_done])
       world0)
  = [sample_text "s2"; sample_done "s2"]
  /\ projection 1
       (events_of
          (runParallel ticking_clock sample_uuid (fun _ => PendingFirst 0)
             [sample_task text_then_return; sample_task text_then_done])
          world0)
     = [sample_text "s2"; sample_done "s2"].
Proof. split; vm_compute; reflexivity. Qed.


Lemma sample_tasks_return (g1 g2 : Generator) :
  calls_return [sample_task g1; sample_task g2].
Proof. repeat constructor; by eexists. Qed.



Example failing_call_in_parallel :
  runParallel ticking_clock sample_uuid (fun n => PendingFirst n)
    [sample_task text_then_done; failing_task] world0
  = (Raises (ErrorObject (lit "cannot start")), [],
     {| clock_reads := 1; uuid_reads := 1;
        run_calls := [lit "mock"; lit "broken"] |}).
Proof. vm_compute. reflexivity. Qed.

Lemma pre_aborted_short_circuit_witness :
  AdapterRegistry.get (registry_with (mock_adapter text_then_return))
    (lit "mock") = Some (mock_adapter text_then_return)
  /\ opt_aborted (signal_of (Some tripped_options)) 0 = true
  /\ events_of
       (runAgent ticking_clock sample_uuid (lit "mock") (lit "go")
          (Some tripped_options)
          (registry_with (mock_adapter text_then_return)))
       world0
     = [synth_done (lit "mock") interrupted (sample_uuid 0)
          (ticking_clock 2) (ticking_clock 1 - ticking_clock 0)].
Proof.
  split; [reflexivity|]. split; [reflexivity|].
  apply (proj1 (pre_aborted_short_circuit ticking_clock sample_uuid)
           (lit "mock") (lit "go") (Some tripped_options)
           (registry_with (mock_adapter text_then_return))
           (mock_adapter text_then_return) world0).
  - reflexivity.
  - reflexivity.
Defined.

(** The generator yields an event under [s1] and one under [s2]; the token
    trips at instant 6, when the second pull has settled (instant 5) and the
    driver has not resumed.  The second event is dropped and the synthesized
    [done] carries [s1]. *)
Lemma synthesized_session_ids_witness :
  let out :=
    events_of
      (runAgent ticking_clock sample_uuid (lit "mock") (lit "go")
         (Some (options_tripping_at 6))
         (registry_with (mock_adapter two_sessions)))
      world0 in
  forwarded_under (Some {| tripsAt := Some 6%nat |}) 0 (yields two_sessions)
  = [sample_text "s1"]
  /\ exists tail,
       out = [sample_text "s1"] ++ tail
       /\ last_yielded_law [sample_text "s1"] (sample_uuid 0) tail
       /\ out = [sample_text "s1";
                 synth_done (lit "mock") interrupted (lit "s1") 1002 1].
Proof.
  intros out. split; [reflexivity|].
  destruct (proj1 (synthesized_session_ids ticking_clock sample_uuid)
              (lit "mock") (lit "go") (Some (options_tripping_at 6))
              (registry_with (mock_adapter two_sessions))
              (mock_adapter two_sessions) two_sessions world0
              eq_refl eq_refl)
    as (tail & Hout & _ & Hlaw & _).
  exists tail. split; [exact Hout|]. split; [exact Hlaw|].
  vm_compute. reflexivity.
Defined.

(** With the events the adapter had yielded when the [done] was synthesized
    (both: the second pull had settled), the law as it is written fails: the
    synthesized [done] carries the id of the first event, the last one that
    was forwarded. *)
Lemma last_yielded_law_fails_for_a_dropped_event :
  ~ last_yielded_law (yields two_sessions) (sample_uuid 0)
      (drop 1
         (events_of
            (runAgent ticking_clock sample_uuid (lit "mock") (lit "go")
               (Some (options_tripping_at 6))
               (registry_with (mock_adapter two_sessions)))
            world0)).
Proof.
  intros Hlaw. vm_compute in Hlaw.
  inversion Hlaw as [|? ? Hsid _]. discriminate Hsid.
Qed.

(** Cancellation in the middle of a parallel run, after one event of the
    second task: each task gets one [done{interrupted}], the second under
    the session id of its forwarded event, the first under the id the driver
    generated for it. *)
Definition cancellable_options : AgentOptions := options_tripping_at 2.

Example parallel_abort :
  (fun p => (fst p, type (snd p), sessionId (snd p))) <$>
    events_of
      (runParallel ticking_clock sample_uuid
         (fun n => if (n <? 1)%nat then PendingFirst 0 else AbortFirst)
         [ {| adapter := mock_adapter text_then_done; prompt := lit "go";
              options := Some cancellable_options |};
           sample_task text_then_return ])
      world0
  = [ (1%nat, lit "text", lit "s1");
      (0%nat, lit "done", lit "driver-0");
      (1%nat, lit "done", lit "s1") ].
Proof. vm_compute. reflexivity. Qed.

End EngineFacts.

(* ===================================================================== *)
(** * Properties of the Gemini adapter *)
(* ===================================================================== *)

Module GeminiFacts.

Import Ndjson Gemini.

Definition is_init (e : AgentEvent) : Prop := type e = lit "init".

(** A stream that opens with its only [init] event. *)
Definition init_first (out : list AgentEvent) : Prop :=
  exists e rest,
    out = e :: rest /\ is_init e /\ Forall (fun e' => ~ is_init e') rest.

(** What a piece of [run] may yield, given the flag [initYielded] before
    ([b0]) and after ([b1]) it: once the flag is set no [init] is yielded;
    while it is not set, either nothing is yielded and the flag stays unset,
    or the piece yields a stream that opens with its only [init] and sets
    the flag. *)
Definition guarded (b0 : bool) (out : list AgentEvent) (b1 : bool) : Prop :=
  if b0 then b1 = true /\ Forall (fun e => ~ is_init e) out
  else (b1 = false /\ out = []) \/ (b1 = true /\ init_first out).

Lemma guarded_app b0 out1 b1 out2 b2 :
  guarded b0 out1 b1 -> guarded b1 out2 b2 -> guarded b0 (out1 ++ out2) b2.
Proof.
  unfold guarded. destruct b0.
  - intros [-> H1] [-> H2]. split; [done|]. by apply Forall_app.
  - intros [[-> ->]|[-> (e & rest & -> & He & Hrest)]]; [done|].
    intros [-> H2]. right. split; [done|].
    exists e, (rest ++ out2). split; [done|]. split; [done|].
    by apply Forall_app.
Qed.

Lemma guarded_nil b : guarded b [] b.
Proof. destruct b; [by split|by left]. Qed.

Lemma events_of_bind {O A B} (m : Gen O A) (k : A -> Gen O B) (w : World) :
  events_of (bind m k) w
  = events_of m w ++ events_of (k (result_of m w)) (world_after m w).
Proof.
  unfold events_of, result_of, world_after, bind.
  destruct (m w) as [[a out1] w1]. cbn. by destruct (k a w1) as [[b out2] w2].
Qed.

Lemma result_of_bind {O A B} (m : Gen O A) (k : A -> Gen O B) (w : World) :
  result_of (bind m k) w = result_of (k (result_of m w)) (world_after m w).
Proof.
  unfold result_of, world_after, bind.
  destruct (m w) as [[a out1] w1]. cbn. by destruct (k a w1) as [[b out2] w2].
Qed.

Lemma world_after_bind {O A B} (m : Gen O A) (k : A -> Gen O B) (w : World) :
  world_after (bind m k) w = world_after (k (result_of m w)) (world_after m w).
Proof.
  unfold result_of, world_after, bind.
  destruct (m w) as [[a out1] w1]. cbn. by destruct (k a w1) as [[b out2] w2].
Qed.

Section Run.

Variable JSON_parse : jsstring -> value + thrown.
Variable utf8_toString : list N -> jsstring.
Variable String_of : value -> jsstring.
Variable clock : nat -> Z.
Variable uuid : nat -> jsstring.
Variable env : Environment.
Variable toolConfig : GeminiToolConfig.
Variable options : option AgentOptions.
Variable startTime : Z.

Local Abbreviation ensure_init :=
  (ensure_init clock uuid env toolConfig options).
Local Abbreviation on_parsed :=
  (on_parsed JSON_parse clock uuid env toolConfig options startTime).
Local Abbreviation on_all_parsed :=
  (on_all_parsed JSON_parse clock uuid env toolConfig options startTime).

(** The guard yields the [init] exactly when it has not been yielded, and
    leaves the flag set. *)
Lemma ensure_init_guarded (sourceEvent : value) (st : RunState) (w : World) :
  guarded (initYielded st) (events_of (ensure_init sourceEvent st) w)
    (initYielded (result_of (ensure_init sourceEvent st) w))
  /\ initYielded (result_of (ensure_init sourceEvent st) w) = true
  /\ doneYielded (result_of (ensure_init sourceEvent st) w) = doneYielded st.
Proof.
  unfold Gemini.ensure_init. destruct (initYielded st) eqn:Hi; cbn.
  - by rewrite Hi.
  - split; [|done]. right. split; [done|]. eexists _, []. by split_and!.
Qed.

#[local] Arguments lit : simpl never.

Ltac run_gen :=
  unfold events_of, result_of, world_after, bind, yield, ret, createEvent,
    Date_now, generateSessionId;
  cbn.

Ltac not_init :=
  repeat constructor; unfold is_init; cbn;
  let H := fresh in intros H; vm_compute in H; discriminate H.

(** One parse result keeps the guard. *)
Lemma on_parsed_guarded (parsed : NDJSONParseResult) (st : RunState)
    (w : World) :
  guarded (initYielded st) (events_of (on_parsed parsed st) w)
    (initYielded (result_of (on_parsed parsed st) w)).
Proof.
  destruct parsed as [data|perror raw]; unfold Gemini.on_parsed.
  - set (st1 := {| sessionId := default (sessionId st) (loadSessionId data);
                   doneYielded := doneYielded st;
                   initYielded := initYielded st |}).
    change (initYielded st) with (initYielded st1). clearbody st1.
    destruct (asString (get (asRecord data) "type")) as [eventType|];
      [|apply guarded_nil].
    destruct (decide (eventType = lit "init")).
    { apply ensure_init_guarded. }
    rewrite events_of_bind, result_of_bind.
    destruct (ensure_init_guarded (asRecord data) st1 w) as (Hg & Hi & _).
    eapply guarded_app; [exact Hg|].
    generalize dependent (result_of (ensure_init (asRecord data) st1) w).
    intros st2 _ Hi. rewrite Hi.
    generalize (world_after (ensure_init (asRecord data) st1) w). intros w2.
    unfold guarded.
    destruct (doneYielded st2); [by split|].
    unfold toolUseId_of.
    repeat case_decide; repeat case_match; run_gen;
      (split; [done|not_init]).
  - rewrite events_of_bind, result_of_bind.
    destruct (ensure_init_guarded Undefined st w) as (Hg & Hi & _).
    eapply guarded_app; [exact Hg|].
    generalize dependent (result_of (ensure_init Undefined st) w).
    intros st2 _ Hi. rewrite Hi.
    generalize (world_after (ensure_init Undefined st) w). intros w2.
    unfold guarded.
    destruct (doneYielded st2); run_gen; (split; [done|not_init]).
Qed.

Lemma on_all_parsed_guarded (results : list NDJSONParseResult) :
  forall (st : RunState) (w : World),
    guarded (initYielded st) (events_of (on_all_parsed results st) w)
      (initYielded (result_of (on_all_parsed results st) w)).
Proof.
  induction results as [|parsed rest IH]; intros st w.
  - apply guarded_nil.
  - cbn [Gemini.on_all_parsed]. rewrite events_of_bind, result_of_bind.
    eapply guarded_app; [apply on_parsed_guarded|apply IH].
Qed.

(** The [try] block keeps the guard, and sets the flag when it runs to its
    end. *)
Lemma run_try_guarded (abortRequested : bool) (st : RunState) (w : World) :
  let m := run_try JSON_parse utf8_toString String_of clock uuid env
             toolConfig options startTime abortRequested st in
  guarded (initYielded st) (events_of m w) (initYielded (fst (result_of m w)))
  /\ (snd (result_of m w) = None -> initYielded (fst (result_of m w)) = true).
Proof.
  unfold run_try.
  destruct (createSettingsOverride env);
    [split; [apply guarded_nil|done]|].
  destruct (spawnProcess env) as [child|];
    [|split; [apply guarded_nil|done]].
  destruct (stdout child) as [stream|];
    [|split; [apply guarded_nil|done]].
  destruct (parseNDJSON _ _ _ stream) as [results failure].
  cbv zeta. rewrite events_of_bind, result_of_bind.
  pose proof (on_all_parsed_guarded results st w) as Hloop.
  generalize dependent (result_of (on_all_parsed results st) w).
  generalize (world_after (on_all_parsed results st) w).
  intros w1 st1 Hloop.
  destruct failure.
  { cbn. rewrite app_nil_r. by split. }
  destruct (closePromise child) as [close|].
  2:{ cbn. rewrite app_nil_r. by split. }
  rewrite events_of_bind, result_of_bind.
  destruct (ensure_init_guarded Undefined st1 w1) as (Hg & Hi & _).
  generalize dependent (result_of (ensure_init Undefined st1) w1).
  generalize (world_after (ensure_init Undefined st1) w1).
  intros w2 st2 Hg Hi.
  rewrite events_of_bind, result_of_bind.
  cbn [ret events_of result_of fst snd]. rewrite app_nil_r.
  split; [|done].
  eapply guarded_app; [exact Hloop|].
  eapply guarded_app; [exact Hg|].
  rewrite Hi. unfold guarded. split; [done|].
  destruct (doneYielded st2); run_gen; not_init.
Qed.

(** The [catch] block keeps the guard and always sets the flag. *)
Lemma run_catch_guarded (abortRequested : bool) (err : thrown)
    (st : RunState) (w : World) :
  guarded (initYielded st)
    (events_of
       (run_catch clock uuid env toolConfig options startTime abortRequested
          err st) w)
    true.
Proof.
  unfold run_catch. rewrite events_of_bind.
  destruct (ensure_init_guarded Undefined st w) as (Hg & Hi & _).
  generalize dependent (result_of (ensure_init Undefined st) w).
  generalize (world_after (ensure_init Undefined st) w).
  intros w1 st1 Hg Hi. rewrite Hi in Hg.
  eapply guarded_app; [exact Hg|]. unfold guarded. split; [done|].
  destruct (doneYielded st1), abortRequested; run_gen; not_init.
Qed.

End Run.

(** C9.  Every run of [GeminiAdapter.run] yields at least one event, exactly
    one of its events is an [init], and that [init] is the first event of the
    stream: whatever the process writes (well-formed lines, malformed lines,
    nothing), however it exits, whether reading fails, and whether the run is
    cancelled. *)
Theorem run_init_first (JSON_parse : jsstring -> value + thrown)
    (utf8_toString : list N -> jsstring) (String_of : value -> jsstring)
    (clock : nat -> Z) (uuid : nat -> jsstring) (env : Environment)
    (options : option AgentOptions) (w : World) :
  init_first
    (events_of
       (run JSON_parse utf8_toString String_of clock uuid env options) w).
Proof.
  unfold run. cbv zeta.
  rewrite events_of_bind. cbn [events_of Date_now fst snd app].
  rewrite events_of_bind.
  assert (events_of
            match options ≫= resume with
            | Some r => ret r
            | None => generateSessionId (O:=AgentEvent) uuid
            end (world_after (Date_now clock) w) = []) as ->
    by (by destruct (options ≫= resume)).
  cbn [app]. rewrite events_of_bind.
  set (st := {| sessionId := _; doneYielded := false; initYielded := false |}).
  set (w1 := world_after _ (world_after (Date_now clock) w)).
  set (start := result_of (Date_now clock) w).
  set (flag := opt_aborted (signal_of options) end_instant).
  destruct (run_try_guarded JSON_parse utf8_toString String_of clock uuid env
              (toolConfig_of options) options start flag st w1) as [Hg Hend].
  cbv zeta in Hg, Hend.
  set (w2 := world_after (run_try _ _ _ _ _ _ _ _ _ _ st) w1).
  destruct (result_of (run_try _ _ _ _ _ _ _ _ _ _ st) w1) as [st' [err|]].
  - pose proof (run_catch_guarded clock uuid env (toolConfig_of options)
                  options start (flag || flag) err st' w2) as Hc.
    pose proof (guarded_app _ _ _ _ _ Hg Hc) as [[? _]|[_ H]]; [done|exact H].
  - cbn [fst snd] in *. rewrite (Hend eq_refl) in Hg.
    cbn [events_of ret fst snd]. rewrite app_nil_r.
    destruct Hg as [[? _]|[_ H]]; [done|exact H].
Qed.

(** ** A sample run: an [init] line, then exit code 53 *)

Definition quoted (s : string) : jsstring := [34%N] ++ lit s ++ [34%N].

(** The line [{"type":"init"}]. *)
Definition init_line : jsstring :=
  lit "{" ++ quoted "type" ++ lit ":" ++ quoted "init" ++ lit "}".

(** A parser that knows [init_line] and rejects everything else; it agrees
    with [JSON.parse] on the lines of the sample. *)
Definition init_line_parse (s : jsstring) : value + thrown :=
  if bool_decide (s = init_line)
  then inl (Obj [(lit "type", Str (lit "init"))])
  else inr (ErrorObject (lit "Unexpected token"))%type.

Definition exits_with (lines : list jsstring) (exit : Z) : Environment :=
  {| createSettingsOverride := None;
     spawnProcess :=
       inl {| stdout := Some {| chunks := StringChunk <$> lines;
                                failure := None |};
              stderr := [];
              closePromise := inl {| code := Some exit; signal := None |} |};
     process_cwd := lit "/w" |}.

Definition sample_stream (lines : list jsstring) (exit : Z)
    : list AgentEvent :=
  events_of
    (run init_line_parse (fun b => b) (fun _ => [])
       (fun n => 1000 + Z.of_nat n) (fun _ => lit "sid")
       (exits_with lines exit) None)
    world0.

Example tool_config_sample :
  mapPermissionsToGeminiToolConfig
    (Some {| fileWrite := Some deny; shellExecute := Some allow;
             networkAccess := Some ask |})
    (Some [lit "custom-tool"]) (Some [lit "never-tool"])
  = {| tc_allowedTools := [lit "ShellTool"; lit "custom-tool"];
       tc_disallowedTools := [lit "edit"; lit "never-tool"];
       tc_args := [lit "--allowed-tools"; lit "ShellTool,custom-tool"] |}.
Proof. vm_compute. reflexivity. Qed.

Example init_then_exit_53 :
  (fun e => (type e, payload e)) <$> sample_stream [init_line ++ [LF]] 53
  = [ (lit "init",
       InitPayload (lit "unknown") (lit "/w") []
         (Some (Obj [ (lit "toolsKnown", Bool false);
                      (lit "toolsSource", Str (lit "unavailable"));
                      (lit "disallowedTools", Arr []) ])));
      (lit "done",
       DonePayload max_turns None DEFAULT_DONE_USAGE 2) ].
Proof. vm_compute. reflexivity. Qed.

Example malformed_line_then_exit_0 :
  type <$> sample_stream [lit "{bad json}" ++ [LF]] 0
  = [lit "init"; lit "error"; lit "done"].
Proof. vm_compute. reflexivity. Qed.

Example silent_exit :
  type <$> sample_stream [] 1 = [lit "init"; lit "done"].
Proof. vm_compute. reflexivity. Qed.

End GeminiFacts.

(* ===================================================================== *)
(** * More properties of the drivers *)
(* ===================================================================== *)

Module EngineLaws.

Import Engine EngineFacts.

Section RunAgent.

Variable clock : nat -> Z.
Variable uuid : nat -> jsstring.




(** X2.  An adapter that keeps the protocol is passed through
    untouched: when its generator yields [pre], then a [done], and the token
    does not trip before that [done] is forwarded, the stream of [runAgent] is
    exactly [pre] followed by that [done], whatever the generator would have
    done afterwards (more events, a late throw).  The driver has then invoked
    [run] once, drawn one session id and read the clock once. *)
Theorem runAgent_passthrough (agent prompt : jsstring)
    (options : option AgentOptions) (registry : AdapterRegistry.t)
    (adapter : AgentAdapter) (gen : Generator) (pre : list AgentEvent)
    (d : AgentEvent) (post : list AgentEvent) (w : World) :
  AdapterRegistry.get registry agent = Some adapter ->
  run adapter prompt options = inl gen ->
  yields gen = pre ++ d :: post ->
  Forall (fun e => ~ is_done e) pre ->
  is_done d ->
  opt_aborted (signal_of options) (resume_instant (length pre)) = false ->
  runAgent clock uuid agent prompt options registry w
  = (Finished, pre ++ [d],
     {| clock_reads := S (clock_reads w); uuid_reads := S (uuid_reads w);
        run_calls := run_calls w ++ [adapter_agent adapter] |}).
Proof.
  intros Hreg Hcall Hy Hpre Hd Ha. unfold runAgent. rewrite Hreg.
  unfold bind at 1. cbn [generateSessionId]. unfold bind at 1.
  cbn [Date_now clock_reads uuid_reads run_calls].
  rewrite (opt_aborted_before (signal_of options) 0
             (resume_instant (length pre))); [|lia|done].
  unfold bind at 1. cbn [invoke clock_reads uuid_reads run_calls].
  rewrite Hcall. unfold bind at 1. rewrite Hy.
  rewrite (runAgent_loop_passthrough clock uuid) by done.
  unfold ret. by rewrite app_nil_r.
Qed.


(** ** The clock readings of the synthesized events *)




End RunAgent.

(** ** One session, one session id *)

Lemma session_one_id b agent fin sid events out :
  session b agent fin sid events out ->
  (forall e1 e2, e1 ∈ events -> e2 ∈ events -> sessionId e1 = sessionId e2) ->
  forall e1 e2, e1 ∈ out -> e2 ∈ out -> sessionId e1 = sessionId e2.
Proof.
  intros Hs Hsame.
  destruct (session_synthesized _ _ _ _ _ _ Hs)
    as (fwd & tail & -> & Hp & Hsyn & _).
  apply synthesized_session_id in Hsyn.
  assert (exists s, Forall (fun e => sessionId e = s) (fwd ++ tail))
    as [s Hall].
  { exists (last_sid fwd sid). apply Forall_app. split; [|done].
    apply Forall_forall. intros e He. unfold last_sid.
    destruct (last fwd) as [l|] eqn:Hl.
    - apply Hsame.
      + by apply (elem_of_prefix fwd).
      + apply (elem_of_prefix fwd); [|done]. by apply last_Some_elem_of.
    - apply last_None in Hl. subst fwd. by apply elem_of_nil in He. }
  intros e1 e2 H1 H2. rewrite Forall_forall in Hall.
  by rewrite (Hall e1 H1), (Hall e2 H2).
Qed.


(** ** [runParallel]: what it asks of its environment *)

Section RunParallel.

Variable clock : nat -> Z.
Variable uuid : nat -> jsstring.

Lemma start_states_world (tasks : list ParallelTask) :
  calls_return tasks ->
  forall w,
    let w' := world_after
                (start_states (O:=nat * AgentEvent) clock uuid tasks) w in
    uuid_reads w' = (uuid_reads w + length tasks)%nat
    /\ run_calls w'
       = run_calls w ++ map (fun task => adapter_agent (adapter task)) tasks.
Proof.
  induction 1 as [|task rest [g Hg] Hrest IH]; intros w.
  - cbn. by rewrite Nat.add_0_r, app_nil_r.
  - set (w1 := {| clock_reads := S (clock_reads w);
                  uuid_reads := S (uuid_reads w);
                  run_calls := run_calls w ++ [adapter_agent (adapter task)] |}).
    assert (world_after
              (start_states (O:=nat * AgentEvent) clock uuid (task :: rest)) w
            = world_after
                (start_states (O:=nat * AgentEvent) clock uuid rest) w1)
      as Hstep.
    { unfold world_after. cbn [start_states].
      unfold bind at 1. cbn [invoke]. rewrite Hg.
      unfold bind at 1. cbn [Date_now clock_reads uuid_reads run_calls].
      unfold bind at 1.
      cbn [generateSessionId clock_reads uuid_reads run_calls].
      unfold bind at 1. fold w1.
      destruct (start_states clock uuid rest w1) as [[r out] w2].
      by destruct r. }
    cbv zeta. rewrite Hstep. destruct (IH w1) as [Hu Hr].
    cbv zeta in Hu, Hr. rewrite Hu, Hr.
    subst w1. cbn [uuid_reads run_calls length map].
    split; [lia|]. by rewrite <- app_assoc.
Qed.

Lemma interrupt_all_world (tasks : list ParallelTask) :
  forall i0 w,
    let w' := world_after (interrupt_all clock uuid i0 tasks) w in
    uuid_reads w' = (uuid_reads w + length tasks)%nat
    /\ run_calls w' = run_calls w.
Proof.
  induction tasks as [|task rest IH]; intros i0 w.
  - cbn. by rewrite Nat.add_0_r.
  - cbn [interrupt_all]. cbv zeta.
    rewrite !GeminiFacts.world_after_bind.
    match goal with
    | |- context [world_after (interrupt_all _ _ (S i0) rest) ?w1] =>
        destruct (IH (S i0) w1) as [Hu Hr]
    end.
    cbv zeta in Hu, Hr. rewrite Hu, Hr.
    unfold world_after, result_of, yield. rewrite makeSynthDone_run.
    cbn [Date_now generateSessionId uuid_reads run_calls fst snd length].
    split; [lia|done].
Qed.

(** The loop draws no session id and invokes no adapter. *)
Lemma runParallel_loop_world (schedule : nat -> Choice)
    (signals : list AbortSignal) :
  forall fuel n states pending w,
    let w' := world_after
                (runParallel_loop clock uuid schedule signals fuel n states
                   pending) w in
    uuid_reads w' = uuid_reads w /\ run_calls w' = run_calls w.
Proof.
  induction fuel as [|fuel IH]; intros n states pending w; [done|].
  cbn [runParallel_loop]. cbv zeta.
  destruct (size pending =? 0)%nat; [done|].
  destruct (race _ _ _) as [[|rr]|]; [| |done].
  - destruct (yieldInterruptedAndCleanup_projection clock uuid states 0 w)
      as (evs & w1 & Hy & Hu & Hr & _).
    unfold world_after, bind, yield_all, ret. rewrite Hy. by cbn.
  - destruct (states !! index rr) as [[st|]|]; [|done|done].
    destruct (outcome rr) as [[e|]|err].
    + destruct (doneYielded st).
      * destruct (scheduleNext _ _ _). apply IH.
      * rewrite GeminiFacts.world_after_bind.
        cbn [yield world_after result_of fst snd].
        destruct (decide _); [apply IH|].
        destruct (scheduleNext _ _ _). apply IH.
    + rewrite GeminiFacts.world_after_bind.
      match goal with
      | |- context [world_after
                      (runParallel_loop _ _ schedule signals fuel ?n'
                         ?states' ?pending') ?w1] =>
          destruct (IH n' states' pending' w1) as [Hu Hr]
      end.
      cbv zeta in Hu, Hr. rewrite Hu, Hr.
      destruct (negb (doneYielded st)); [|done].
      unfold world_after, bind, yield.
      by rewrite makeSynthError_run, makeSynthDone_run.
    + rewrite GeminiFacts.world_after_bind.
      match goal with
      | |- context [world_after
                      (runParallel_loop _ _ schedule signals fuel ?n'
                         ?states' ?pending') ?w1] =>
          destruct (IH n' states' pending' w1) as [Hu Hr]
      end.
      cbv zeta in Hu, Hr. rewrite Hu, Hr.
      destruct (negb (doneYielded st)); [|done].
      unfold world_after, bind, yield.
      by rewrite makeSynthError_run, makeSynthDone_run.
Qed.

(** The session ids drawn and the adapters invoked by [runParallel]. *)
Lemma runParallel_world (schedule : nat -> Choice)
    (tasks : list ParallelTask) (w : World) :
  calls_return tasks ->
  let w' := world_after (runParallel clock uuid schedule tasks) w in
  uuid_reads w' = (uuid_reads w + length tasks)%nat
  /\ run_calls w'
     = run_calls w ++
         (if existsb (fun t => opt_aborted (signal_of (options t)) 0) tasks
          then []
          else map (fun task => adapter_agent (adapter task)) tasks).
Proof.
  intros Hcalls. unfold runParallel. cbv zeta.
  destruct (length tasks =? 0)%nat eqn:Hlen.
  { apply Nat.eqb_eq, length_zero_iff_nil in Hlen as ->. cbn.
    by rewrite Nat.add_0_r, app_nil_r. }
  destruct (existsb _ tasks).
  { rewrite GeminiFacts.world_after_bind. cbn [ret world_after snd].
    rewrite app_nil_r. apply interrupt_all_world. }
  rewrite GeminiFacts.world_after_bind.
  destruct (start_states_world tasks Hcalls w) as [Hu Hr].
  cbv zeta in Hu, Hr.
  destruct (start_states_run clock uuid tasks Hcalls w) as (w1 & Hstart).
  assert (result_of (start_states (O:=nat * AgentEvent) clock uuid tasks) w
          = inl (imap (started clock uuid w) tasks)) as ->
    by (unfold result_of; by rewrite Hstart).
  destruct (foldl _ _ _) as [states pending].
  match goal with
  | |- context [world_after
                  (runParallel_loop _ _ schedule ?signals ?fuel 0 states
                     pending) ?w1] =>
      destruct (runParallel_loop_world schedule signals fuel 0 states pending
                  w1) as [Hu' Hr']
  end.
  cbv zeta in Hu', Hr'. by rewrite Hu', Hr', Hu, Hr.
Qed.

(** X6.  When the calls of [run] return their generators, then whatever the
    order in which the promises settle and whenever a token trips,
    [runParallel] draws exactly one session id per task; when no token is
    tripped at the call it invokes [run] of every task's adapter exactly
    once, in task order, before it forwards anything, and when a token is
    tripped at the call it invokes none. *)
Theorem runParallel_invocations (schedule : nat -> Choice)
    (tasks : list ParallelTask) (w : World) :
  calls_return tasks ->
  let w' := world_after (runParallel clock uuid schedule tasks) w in
  uuid_reads w' = (uuid_reads w + length tasks)%nat
  /\ run_calls w'
     = run_calls w ++
         (if existsb (fun t => opt_aborted (signal_of (options t)) 0) tasks
          then []
          else map (fun task => adapter_agent (adapter task)) tasks).
Proof. exact (runParallel_world schedule tasks w). Qed.



(** X8.  One token cancels every task.  When the calls of [run] return
    their generators, no token is tripped at the call, some task's token has
    tripped by the time the first race is decided and the race goes to the
    cancellation, every adapter has been invoked, nothing is forwarded, and
    every task, with a token or without, gets exactly one synthesized
    [done{interrupted}] under the session id the driver generated for it. *)
Theorem runParallel_cancel_at_start (schedule : nat -> Choice)
    (tasks : list ParallelTask) (w : World) :
  calls_return tasks ->
  existsb (fun t => opt_aborted (signal_of (options t)) 0) tasks = false ->
  abort_resolved (omap (fun t => signal_of (options t)) tasks) 1 = true ->
  schedule O = AbortFirst ->
  let m := runParallel clock uuid schedule tasks in
  result_of m w = Completed
  /\ run_calls (world_after m w)
     = run_calls w ++ map (fun task => adapter_agent (adapter task)) tasks
  /\ forall i task,
       tasks !! i = Some task ->
       exists t d,
         projection i (events_of m w)
         = [synth_done (adapter_agent (adapter task)) interrupted
              (uuid (uuid_reads w + i)) t d].
Proof.
  intros Hcalls Hpre Hres Hsched m.
  assert (tasks <> []) as Hne.
  { intros ->. by cbn in Hres. }
  split_and!.
  2:{ pose proof (runParallel_world schedule tasks w Hcalls) as [_ Hr].
      cbv zeta in Hr. by rewrite Hpre in Hr. }
  all: subst m; unfold result_of, events_of, runParallel; rewrite Hpre.
  all: destruct (length tasks =? 0)%nat eqn:Hlen;
    [by apply Nat.eqb_eq, length_zero_iff_nil in Hlen|].
  all: destruct (start_states_run clock uuid tasks Hcalls w) as (w1 & Hstart).
  all: unfold bind at 1; rewrite Hstart.
  all: set (states := imap (started clock uuid w) tasks).
  all: assert (length states = length tasks) as Hls by apply length_imap.
  all: assert (forall i task, tasks !! i = Some task ->
                 states !! i = Some (started clock uuid w i task)) as Hstates
    by (intros i task Hl; subst states; by rewrite list_lookup_imap, Hl).
  all: destruct (schedule_initial states (length states)) as [Hlen' Hinit];
    [done|
     intros i Hi; rewrite Hls in Hi;
     destruct (lookup_lt_is_Some_2 tasks i Hi) as [task Hl];
     rewrite (Hstates i task Hl); unfold started; eauto|].
  all: destruct (foldl _ _ (seq 0 (length states))) as [states' pending'].
  all: cbn [fst snd] in Hlen', Hinit.
  all: assert (size pending' <> O) as Hsz.
  1,3: destruct tasks as [|task0 rest]; [done|];
    destruct (proj1 (Hinit O) ltac:(rewrite Hls; cbn; lia) _
                (Hstates O task0 eq_refl)) as [_ Hp];
    intros Hz; apply map_size_empty_iff in Hz; rewrite Hz in Hp;
    by rewrite lookup_empty in Hp.
  all: unfold loop_bound; cbn [runParallel_loop].
  all: apply Nat.eqb_neq in Hsz; rewrite Hsz, Hsched, Hres; cbn [race].
  all: destruct (yieldInterruptedAndCleanup_projection clock uuid states' 0 w1)
    as (evs & w' & Hy & _ & _ & Hproj).
  all: unfold bind, yield_all, ret; rewrite Hy; cbn [fst snd app].
  - done.
  - intros i task Hl. rewrite app_nil_r. specialize (Hproj i).
    rewrite decide_True, Nat.sub_0_r in Hproj by lia.
    destruct (proj1 (Hinit i) ltac:(rewrite Hls; by apply lookup_lt_Some in Hl)
                _ (Hstates i task Hl)) as [Hs' _].
    rewrite Hs' in Hproj. by apply Hproj.
Qed.

End RunParallel.

(** X5.  Session consistency.  When the events of an adapter's generator
    all carry one session id, so do all the events of its session: in the
    stream of [runAgent], and in the events of each task in the stream of
    [runParallel], any two events carry the same session id, the synthesized
    ones included, whenever the token trips. *)
Theorem session_consistency (clock : nat -> Z) (uuid : nat -> jsstring) :
  (forall (agent prompt : jsstring) (options : option AgentOptions)
          (registry : AdapterRegistry.t) (adapter : AgentAdapter)
          (gen : Generator) (w : World),
     AdapterRegistry.get registry agent = Some adapter ->
     run adapter prompt options = inl gen ->
     (forall e1 e2,
        e1 ∈ yields gen -> e2 ∈ yields gen -> sessionId e1 = sessionId e2) ->
     forall e1 e2,
       e1 ∈ events_of (runAgent clock uuid agent prompt options registry) w ->
       e2 ∈ events_of (runAgent clock uuid agent prompt options registry) w ->
       sessionId e1 = sessionId e2)
  /\ (forall (schedule : nat -> Choice) (tasks : list ParallelTask)
             (w : World) (i : nat) (task : ParallelTask) (gen : Generator),
        calls_return tasks ->
        tasks !! i = Some task ->
        run (adapter task) (prompt task) (options task) = inl gen ->
        (forall e1 e2,
           e1 ∈ yields gen -> e2 ∈ yields gen -> sessionId e1 = sessionId e2) ->
        forall e1 e2,
          e1 ∈ projection i
                 (events_of (runParallel clock uuid schedule tasks) w) ->
          e2 ∈ projection i
                 (events_of (runParallel clock uuid schedule tasks) w) ->
          sessionId e1 = sessionId e2).
Proof.
  split.
  - intros agent prompt options registry adapter gen w Hreg Hcall Hsame.
    destruct (runAgent_session clock uuid true agent prompt options registry
                adapter gen w Hreg Hcall) as (out & w' & Hrun & Hs); [done|].
    unfold events_of. rewrite Hrun. cbn [fst snd].
    exact (session_one_id _ _ _ _ _ _ Hs Hsame).
  - intros schedule tasks w i task gen Hcalls Hl Hgen Hsame.
    destruct (runParallel_sessions clock uuid true schedule tasks w Hcalls)
      as (out & w' & Hrun & Hs & _); [done|].
    unfold events_of. rewrite Hrun. cbn [fst snd].
    specialize (Hs i task Hl).
    rewrite (generator_of_returned task gen Hgen) in Hs.
    exact (session_one_id _ _ _ _ _ _ Hs Hsame).
Qed.


(** ** Sample runs *)

(** The events after the adapter's [done] and its late throw are never
    asked for. *)
Lemma runAgent_passthrough_witness :
  runAgent ticking_clock sample_uuid (lit "mock") (lit "go") None
    (registry_with (mock_adapter done_then_throw)) world0
  = (Finished, [sample_text "s1"] ++ [sample_done "s1"],
     {| clock_reads := 1; uuid_reads := 1; run_calls := [] ++ [lit "mock"] |}).
Proof.
  apply (runAgent_passthrough ticking_clock sample_uuid (lit "mock")
           (lit "go") None (registry_with (mock_adapter done_then_throw))
           (mock_adapter done_then_throw) done_then_throw [sample_text "s1"]
           (sample_done "s1") [sample_text "s1"] world0).
  - reflexivity.
  - reflexivity.
  - reflexivity.
  - repeat constructor. unfold is_done. simpl. discriminate.
  - reflexivity.
  - reflexivity.
Defined.


(** The same token against a generator that throws at its second pull: the
    rejection has settled when the token trips, and it is reported. *)
Example rejection_wins_the_race :
  events_of
    (runAgent ticking_clock sample_uuid (lit "mock") (lit "go")
       (Some (options_tripping_at 6))
       (registry_with (mock_adapter text_then_throw))) world0
  = [sample_text "s1";
     synth_error (lit "mock") (lit "ADAPTER_ERROR") (lit "boom") (lit "s1")
       1001;
     synth_done (lit "mock") error (lit "s1") 1003 2].
Proof. vm_compute. reflexivity. Qed.


(** Two tasks, one of which throws: two session ids, both adapters invoked
    in task order. *)
Lemma runParallel_invocations_witness :
  let w' :=
    world_after
      (runParallel ticking_clock sample_uuid (fun n => PendingFirst n)
         [sample_task text_then_throw; sample_task text_then_done])
      world0 in
  uuid_reads w' = 2%nat /\ run_calls w' = [lit "mock"; lit "mock"].
Proof.
  apply (runParallel_invocations ticking_clock sample_uuid
           (fun n => PendingFirst n)
           [sample_task text_then_throw; sample_task text_then_done] world0).
  apply sample_tasks_return.
Defined.


(** Two tasks, the first with a token that trips right after the call, the
    second without a token. *)
Lemma runParallel_cancel_at_start_witness :
  let tasks :=
    [ {| adapter := mock_adapter text_then_done; prompt := lit "go";
         options := Some (options_tripping_at 1) |};
      sample_task text_then_return ] in
  let m := runParallel ticking_clock sample_uuid (fun _ => AbortFirst) tasks in
  result_of m world0 = Completed
  /\ run_calls (world_after m world0)
     = [] ++ map (fun task => adapter_agent (adapter task)) tasks
  /\ forall i task,
       tasks !! i = Some task ->
       exists t d,
         projection i (events_of m world0)
         = [synth_done (adapter_agent (adapter task)) interrupted
              (sample_uuid (0 + i)) t d].
Proof.
  intros tasks m.
  apply (runParallel_cancel_at_start ticking_clock sample_uuid
           (fun _ => AbortFirst) tasks world0).
  - repeat constructor; by eexists.
  - reflexivity.
  - reflexivity.
  - reflexivity.
Defined.

Lemma session_consistency_witness :
  let out :=
    events_of
      (runAgent ticking_clock sample_uuid (lit "mock") (lit "go") None
         (registry_with (mock_adapter text_then_throw))) world0 in
  Forall (fun e1 => Forall (fun e2 => sessionId e1 = sessionId e2) out) out.
Proof.
  intros out. apply Forall_forall. intros e1 H1.
  apply Forall_forall. intros e2 H2. revert e1 e2 H1 H2.
  apply (proj1 (session_consistency ticking_clock sample_uuid) (lit "mock")
           (lit "go") None (registry_with (mock_adapter text_then_throw))
           (mock_adapter text_then_throw) text_then_throw world0).
  - reflexivity.
  - reflexivity.
  - intros e1 e2 H1 H2. apply list_elem_of_In in H1, H2. simpl in H1, H2.
    destruct H1 as [<-|[]], H2 as [<-|[]]. reflexivity.
Defined.

End EngineLaws.

(* ===================================================================== *)
(** * More properties of the line framer *)
(* ===================================================================== *)

Module NdjsonLaws.

Import Ndjson NdjsonFacts.

(** ** Lines, as the inverse of joining with line feeds *)

(** Cutting at the line feeds loses nothing and leaves no line feed in any
    piece. *)
Lemma lines_joined (s : jsstring) :
  s = concat ((fun l => l ++ [LF]) <$> fst (lines s)) ++ snd (lines s)
  /\ Forall (fun l => LF ∉ l) (fst (lines s))
  /\ LF ∉ snd (lines s).
Proof.
  induction s as [|c s (Hs & Hls & Hr)]; cbn [lines].
  - split; [done|]. split; [constructor|]. apply not_elem_of_nil.
  - destruct (lines s) as [ls r]. cbn [fst snd] in *.
    destruct (N.eqb_spec c LF) as [->|Hc]; cbn [fst snd].
    + split; [cbn; by f_equal|]. split; [|done].
      constructor; [apply not_elem_of_nil|done].
    + destruct ls as [|l ls]; cbn [fst snd].
      * cbn in Hs. split; [cbn; by f_equal|]. split; [constructor|].
        rewrite elem_of_cons. intros [?|?]; [congruence|done].
      * inversion Hls as [|? ? Hl Hls']; subst.
        split; [cbn in *; by f_equal|]. split; [|done].
        constructor; [|done].
        rewrite elem_of_cons. intros [?|?]; [congruence|done].
Qed.

(** A text without line feed, followed by a line feed, is one line. *)
Lemma lines_cut (r b : jsstring) :
  LF ∉ r ->
  lines (r ++ LF :: b) = (r :: fst (lines b), snd (lines b)).
Proof.
  induction r as [|c r IH]; intros Hr; cbn [app lines].
  - change (N.eqb LF LF) with true. by destruct (lines b).
  - rewrite IH by (intros ?; apply Hr; by right).
    destruct (N.eqb_spec c LF) as [->|Hc]; [|done].
    exfalso. apply Hr. by left.
Qed.

(** The lines of a text that continues after a line feed. *)
Lemma lines_app_newline (a b : jsstring) :
  lines (a ++ LF :: b)
  = (fst (lines a) ++ snd (lines a) :: fst (lines b), snd (lines b)).
Proof.
  rewrite lines_app. rewrite lines_cut by apply lines_joined. done.
Qed.

(** The lines of terminated lines are those lines. *)
Lemma lines_terminated (ls : list jsstring) (t : jsstring) :
  Forall (fun l => LF ∉ l) ls -> LF ∉ t ->
  lines (concat ((fun l => l ++ t ++ [LF]) <$> ls))
  = ((fun l => l ++ t) <$> ls, []).
Proof.
  intros Hls Ht. induction Hls as [|l ls Hl _ IH]; [done|].
  rewrite !fmap_cons. cbn [concat].
  replace ((l ++ t ++ [LF]) ++ concat ((fun l0 => l0 ++ t ++ [LF]) <$> ls))
    with ((l ++ t) ++ LF :: concat ((fun l0 => l0 ++ t ++ [LF]) <$> ls))
    by (by rewrite <- !app_assoc).
  rewrite lines_cut by (rewrite elem_of_app; tauto).
  unfold code_unit in *. by rewrite IH.
Qed.

Section Laws.

Variable JSON_parse : jsstring -> value + thrown.
Variable utf8_toString : list N -> jsstring.
Variable String_of : value -> jsstring.

Local Abbreviation parseNDJSON :=
  (parseNDJSON JSON_parse utf8_toString String_of).
Local Abbreviation line_result := (line_result JSON_parse).
Local Abbreviation framed := (framed JSON_parse).
Local Abbreviation delivered := (delivered utf8_toString String_of).

Lemma line_result_length (l : jsstring) : (length (line_result l) <= 1)%nat.
Proof.
  unfold NdjsonFacts.line_result. destruct (whitespace_only l); [cbn; lia|].
  destruct (JSON_parse (strip_cr l)) as [?|[?|?]]; cbn; lia.
Qed.

(** What the residual contributes at the end of the stream. *)
Definition residual_result (r : jsstring) : list NDJSONParseResult :=
  if (0 <? length r)%nat then line_result r else [].

Lemma residual_result_line (r : jsstring) : residual_result r = line_result r.
Proof. by destruct r. Qed.

Lemma framed_append (a b : jsstring) :
  framed (a ++ LF :: b) = framed a ++ framed b.
Proof.
  unfold NdjsonFacts.framed. rewrite lines_app_newline.
  destruct (lines a) as [la ra], (lines b) as [lb rb]. cbn [fst snd].
  rewrite flat_map_app. cbn [flat_map].
  fold (residual_result ra). rewrite residual_result_line.
  by rewrite <- !app_assoc.
Qed.

Lemma delivered_app (cs1 cs2 : list Chunk) :
  delivered (cs1 ++ cs2) = delivered cs1 ++ delivered cs2.
Proof. unfold NdjsonFacts.delivered. by rewrite map_app, concat_app. Qed.

(** X9.  Streams compose at a line feed: the results for a stream
    that delivers the chunks of one stream, a line feed, and the chunks of
    another are the results for the first followed by the results for the
    second.  In particular a final line feed is optional: adding one after
    the last line changes nothing. *)
Theorem parseNDJSON_append (cs1 cs2 : list Chunk) :
  fst (parseNDJSON {| chunks := cs1 ++ StringChunk [LF] :: cs2;
                      failure := None |})
  = fst (parseNDJSON {| chunks := cs1; failure := None |})
      ++ fst (parseNDJSON {| chunks := cs2; failure := None |})
  /\ parseNDJSON {| chunks := cs1 ++ [StringChunk [LF]]; failure := None |}
     = parseNDJSON {| chunks := cs1; failure := None |}.
Proof.
  rewrite !parseNDJSON_framed. cbn [chunks failure fst].
  rewrite !delivered_app.
  change (delivered (StringChunk [LF] :: cs2)) with (LF :: delivered cs2).
  change (delivered [StringChunk [LF]]) with [LF].
  rewrite !framed_append. split; [done|].
  f_equal. apply app_nil_r.
Qed.

(** The result of one line that neither is blank nor ends in a carriage
    return: what [JSON.parse] makes of it. *)
Definition parsed_line (l : jsstring) : list NDJSONParseResult :=
  if whitespace_only l then []
  else
    match JSON_parse l with
    | inl data => [Ok data]
    | inr (ErrorObject message) => [Fail message l]
    | inr (NonError _) => [Fail (lit "Failed to parse NDJSON line") l]
    end.

Lemma strip_cr_keeps (l : jsstring) : last l <> Some CR -> strip_cr l = l.
Proof.
  unfold strip_cr. destruct (last l) as [c|]; [|done].
  destruct (N.eqb_spec c CR) as [->|]; [done|done].
Qed.

Lemma line_result_parsed (l : jsstring) :
  last l <> Some CR -> line_result l = parsed_line l.
Proof.
  intros Hl. unfold NdjsonFacts.line_result, parsed_line.
  by rewrite strip_cr_keeps.
Qed.

Lemma line_result_cr (l : jsstring) :
  last l <> Some CR -> line_result (l ++ [CR]) = parsed_line l.
Proof.
  intros Hl. unfold NdjsonFacts.line_result, parsed_line.
  rewrite whitespace_only_app. cbn [whitespace_only forallb].
  change (is_white_space CR) with true. rewrite !andb_true_r.
  unfold strip_cr at 1 2 3. rewrite last_snoc. change (N.eqb CR CR) with true.
  by rewrite removelast_last.
Qed.

(** X10.  Line endings.  For lines that hold no line feed and do not end
    in a carriage return, delivering them terminated by CR LF gives the same
    results as delivering them terminated by LF: one result for every line
    that is not blank, in order, made by [JSON.parse] from the line without
    its terminator; the [raw] text of a failure is that line. *)
Theorem parseNDJSON_crlf (ls : list jsstring) :
  Forall (fun l => (LF ∉ l) /\ last l <> Some CR) ls ->
  fst (parseNDJSON
         {| chunks := StringChunk <$> ((fun l => l ++ [CR; LF]) <$> ls);
            failure := None |})
  = flat_map parsed_line ls
  /\ fst (parseNDJSON
            {| chunks := StringChunk <$> ((fun l => l ++ [LF]) <$> ls);
               failure := None |})
     = flat_map parsed_line ls.
Proof.
  intros Hls.
  assert (Forall (fun l => LF ∉ l) ls) as Hlf
    by (eapply Forall_impl; [exact Hls|by intros l [? _]]).
  rewrite !parseNDJSON_framed. cbn [chunks failure fst].
  rewrite !delivered_strings. unfold NdjsonFacts.framed.
  change (lines (concat ((fun l => l ++ [CR; LF]) <$> ls)))
    with (lines (concat ((fun l : jsstring => l ++ [CR] ++ [LF]) <$> ls))).
  change (lines (concat ((fun l => l ++ [LF]) <$> ls)))
    with (lines (concat ((fun l : jsstring => l ++ [] ++ [LF]) <$> ls))).
  pose proof (lines_terminated ls [CR] Hlf
                ltac:(rewrite list_elem_of_singleton; discriminate)) as H1.
  pose proof (lines_terminated ls [] Hlf ltac:(apply not_elem_of_nil)) as H2.
  unfold code_unit in *. rewrite H1, H2. clear H1 H2.
  cbn [length Nat.ltb Nat.leb]. rewrite !app_nil_r.
  clear Hlf. induction Hls as [|l ls [_ Hl] _ [IH1 IH2]]; [done|].
  cbn [fmap list_fmap flat_map]. rewrite IH1, IH2.
  by rewrite app_nil_r, line_result_cr, line_result_parsed.
Qed.

(** What one line can contribute: a value that [JSON.parse] returned for
    the line, or the failure of [JSON.parse] on it, with its message. *)
Definition result_of_line (l : jsstring) (r : NDJSONParseResult) : Prop :=
  match r with
  | Ok data => JSON_parse l = inl data
  | Fail text raw =>
      raw = l
      /\ exists err,
           JSON_parse l = inr err
           /\ text = match err with
                      | ErrorObject message => message
                      | NonError _ => lit "Failed to parse NDJSON line"
                      end
  end.

Lemma strip_cr_prefix (l : jsstring) : exists t, l = strip_cr l ++ t.
Proof.
  unfold strip_cr. destruct l as [|c l _] using rev_ind; [by exists []|].
  rewrite last_snoc. destruct (N.eqb c CR).
  - exists [c]. by rewrite removelast_last.
  - exists []. by rewrite app_nil_r.
Qed.

Lemma line_result_sound (l : jsstring) :
  Forall (fun r =>
            exists t, l = strip_cr l ++ t
                      /\ whitespace_only (strip_cr l) = false
                      /\ result_of_line (strip_cr l) r)
    (line_result l).
Proof.
  unfold NdjsonFacts.line_result.
  destruct (whitespace_only l) eqn:Hw; [constructor|].
  destruct (strip_cr_prefix l) as [t Ht].
  rewrite <- whitespace_only_strip_cr in Hw.
  destruct (JSON_parse (strip_cr l)) as [data|[message|rendering]] eqn:Hp;
    repeat constructor; exists t; (split; [done|]); (split; [done|]);
    cbn; rewrite ?Hp; eauto.
Qed.

(** X11.  Every result comes from one line of the delivered text.  For
    each result there is a piece [l] of the text the stream delivered, free
    of line feeds and not blank, such that the result is what [JSON.parse]
    made of [l]: the value it returned, or its failure with [raw = l] and the
    message of the error (a fixed text when what was thrown is not an
    [Error]).  No result mixes two lines, and no line feed reaches
    [JSON.parse]. *)
Theorem parseNDJSON_results (stream : Readable) :
  Forall (fun r =>
            exists (before l after : jsstring),
              delivered (chunks stream) = before ++ l ++ after
              /\ (LF ∉ l)
              /\ whitespace_only l = false
              /\ result_of_line l r)
    (fst (parseNDJSON stream)).
Proof.
  rewrite parseNDJSON_framed. cbn [fst].
  set (s := delivered (chunks stream)).
  destruct (lines_joined s) as (Hs & Hls & Hr).
  assert (forall l0 before after,
            s = before ++ l0 ++ after -> LF ∉ l0 ->
            Forall (fun r =>
                      exists before l after : jsstring,
                        s = before ++ l ++ after
                        /\ (LF ∉ l) /\ whitespace_only l = false
                        /\ result_of_line l r)
              (line_result l0)) as Hline.
  { intros l0 before after Hcut Hl0.
    eapply Forall_impl; [apply line_result_sound|].
    intros r (t & Ht & Hw & Hres). cbv beta.
    exists before, (strip_cr l0), (t ++ after).
    split; [by rewrite Hcut, Ht at 1; rewrite <- !app_assoc|].
    split; [|done]. intros Hin. apply Hl0. rewrite Ht.
    apply elem_of_app. by left. }
  assert (Forall (fun r =>
                    exists before l after : jsstring,
                      s = before ++ l ++ after
                      /\ (LF ∉ l) /\ whitespace_only l = false
                      /\ result_of_line l r)
            (flat_map line_result (fst (lines s)))) as Hcomplete.
  { revert Hs Hls. generalize (snd (lines s)) as r.
    generalize (fst (lines s)) as ls. intros ls r.
    assert (forall pre, s = pre ++ concat ((fun l => l ++ [LF]) <$> ls) ++ r ->
                        Forall (fun l : jsstring => LF ∉ l) ls ->
                        Forall (fun r0 =>
                                  exists before l after : jsstring,
                                    s = before ++ l ++ after
                                    /\ (LF ∉ l) /\ whitespace_only l = false
                                    /\ result_of_line l r0)
                          (flat_map line_result ls)) as Hgen.
    { induction ls as [|l ls IH]; intros pre Hs Hls; [constructor|].
      inversion Hls as [|? ? Hl Hls']; subst.
      cbn [flat_map]. apply Forall_app. split.
      - apply (Hline l pre
                 ([LF] ++ concat ((fun l => l ++ [LF]) <$> ls) ++ r)); [|done].
        rewrite Hs at 1. cbn [fmap list_fmap concat]. by rewrite <- !app_assoc.
      - apply (IH (pre ++ l ++ [LF])); [|done].
        rewrite Hs at 1. cbn [fmap list_fmap concat]. by rewrite <- !app_assoc. }
    intros Hs Hls. by apply (Hgen []). }
  destruct (failure stream); [done|].
  unfold NdjsonFacts.framed.
  destruct (lines s) as [ls r] eqn:Hlines. cbn [fst snd] in *.
  apply Forall_app. split; [done|].
  destruct (0 <? length r)%nat; [|constructor].
  apply (Hline r (concat ((fun l => l ++ [LF]) <$> ls)) []); [|done].
  by rewrite app_nil_r.
Qed.

(** X12.  When the stream itself fails, its error is what leaves
    [parseNDJSON], after every complete line has been processed as usual:
    the results are a prefix of those the same chunks give when the stream
    ends normally, and only the unterminated last line, at most one result,
    is lost. *)
Theorem parseNDJSON_stream_failure (cs : list Chunk) (err : thrown) :
  let failed := parseNDJSON {| chunks := cs; failure := Some err |} in
  let ended := parseNDJSON {| chunks := cs; failure := None |} in
  snd failed = Some err
  /\ fst failed `prefix_of` fst ended
  /\ (length (fst ended) <= length (fst failed) + 1)%nat
  /\ (snd (lines (delivered cs)) = [] -> fst failed = fst ended).
Proof.
  cbv zeta. rewrite !parseNDJSON_framed. cbn [chunks failure fst snd].
  unfold NdjsonFacts.framed. destruct (lines (delivered cs)) as [ls r].
  cbn [fst snd]. split; [done|]. split; [by eexists|]. split.
  - rewrite length_app. fold (residual_result r).
    rewrite residual_result_line. pose proof (line_result_length r). lia.
  - intros ->. cbn. by rewrite app_nil_r.
Qed.

End Laws.

(** A good line, a malformed line and a blank line, under both line
    endings. *)
Lemma parseNDJSON_crlf_witness :
  fst (parseNDJSON sample_parse (fun b => b) (fun _ => [])
         {| chunks :=
              StringChunk <$>
                ((fun l => l ++ [CR; LF]) <$>
                   [lit "[1,2]"; lit "{bad}"; [32%N]]);
            failure := None |})
  = [Ok (Arr [Num (Finite 1); Num (Finite 2)]);
     Fail (lit "Unexpected token x in JSON at position 0") (lit "{bad}")].
Proof.
  rewrite (proj1 (parseNDJSON_crlf sample_parse (fun b => b) (fun _ => [])
                    [lit "[1,2]"; lit "{bad}"; [32%N]]
                    ltac:(apply (bool_decide_unpack _); vm_compute;
                          exact I))).
  vm_compute. reflexivity.
Defined.

End NdjsonLaws.

(* ===================================================================== *)
(** * More properties of the Gemini adapter *)
(* ===================================================================== *)

Module GeminiLaws.

Import Ndjson Gemini GeminiFacts.

Local Abbreviation is_done := EngineFacts.is_done.

(** A stream that ends with its only [done] event. *)
Definition one_done (out : list AgentEvent) : Prop :=
  exists pre d,
    out = pre ++ [d] /\ is_done d /\ Forall (fun e => ~ is_done e) pre.

(** What a piece of [run] may yield, given the flag [doneYielded] before
    ([d0]) and after ([d1]) it: once the flag is set nothing is yielded;
    while it is not set, either no [done] is yielded and the flag stays
    unset, or the piece yields a stream that ends with its only [done] and
    sets the flag. *)
Definition closed (d0 : bool) (out : list AgentEvent) (d1 : bool) : Prop :=
  if d0 then d1 = true /\ out = []
  else (d1 = false /\ Forall (fun e => ~ is_done e) out)
       \/ (d1 = true /\ one_done out).

Lemma closed_app d0 out1 d1 out2 d2 :
  closed d0 out1 d1 -> closed d1 out2 d2 -> closed d0 (out1 ++ out2) d2.
Proof.
  unfold closed. destruct d0.
  - by intros [-> ->] [-> ->].
  - intros [[-> H1]|[-> (pre & d & -> & Hd & Hpre)]].
    + intros [[-> H2]|[-> (pre & d & -> & Hd & Hpre)]].
      * left. split; [done|]. by apply Forall_app.
      * right. split; [done|]. exists (out1 ++ pre), d.
        rewrite app_assoc. split; [done|]. split; [done|].
        by apply Forall_app.
    + intros [-> ->]. right. split; [done|]. exists pre, d.
      by rewrite app_nil_r.
Qed.

Lemma closed_nil d : closed d [] d.
Proof. destruct d; [done|]. by left. Qed.

(** The [done] is never yielded before the [init]. *)
Definition init_before_done (st : RunState) : Prop :=
  doneYielded st = true -> initYielded st = true.

(** A parsed line of type [result]. *)
Definition is_result (parsed : NDJSONParseResult) : Prop :=
  match parsed with
  | Ok data => asString (get (asRecord data) "type") = Some (lit "result")
  | Fail _ _ => False
  end.

#[local] Arguments lit : simpl never.

Ltac run_gen :=
  unfold events_of, result_of, world_after, bind, yield, ret, createEvent,
    Date_now, generateSessionId;
  cbn.

Ltac not_done :=
  repeat constructor; unfold EngineFacts.is_done; cbn;
  let H := fresh in intros H; vm_compute in H; discriminate H.

Section Run.

Variable JSON_parse : jsstring -> value + thrown.
Variable utf8_toString : list N -> jsstring.
Variable String_of : value -> jsstring.
Variable clock : nat -> Z.
Variable uuid : nat -> jsstring.
Variable env : Environment.
Variable toolConfig : GeminiToolConfig.
Variable options : option AgentOptions.
Variable startTime : Z.

Local Abbreviation ensure_init :=
  (ensure_init clock uuid env toolConfig options).
Local Abbreviation on_parsed :=
  (on_parsed JSON_parse clock uuid env toolConfig options startTime).
Local Abbreviation on_all_parsed :=
  (on_all_parsed JSON_parse clock uuid env toolConfig options startTime).

Lemma ensure_init_closed (sourceEvent : value) (st : RunState) (w : World) :
  init_before_done st ->
  let st' := result_of (ensure_init sourceEvent st) w in
  closed (doneYielded st) (events_of (ensure_init sourceEvent st) w)
    (doneYielded st')
  /\ doneYielded st' = doneYielded st
  /\ initYielded st' = true
  /\ Gemini.sessionId st' = Gemini.sessionId st.
Proof.
  intros Hinv. unfold Gemini.ensure_init.
  destruct (initYielded st) eqn:Hi; cbn.
  - split; [apply closed_nil|done].
  - split; [|done]. unfold closed.
    destruct (doneYielded st) eqn:Hd; [by rewrite Hinv in Hi|].
    left. split; [done|]. not_done.
Qed.

(** One parse result keeps the [done] guard; only a line of type [result]
    can set the flag. *)
Lemma on_parsed_closed (parsed : NDJSONParseResult) (st : RunState)
    (w : World) :
  init_before_done st ->
  let st' := result_of (on_parsed parsed st) w in
  closed (doneYielded st) (events_of (on_parsed parsed st) w) (doneYielded st')
  /\ init_before_done st'
  /\ (~ is_result parsed -> doneYielded st' = doneYielded st).
Proof.
  intros Hinv. destruct parsed as [data|perror raw]; unfold Gemini.on_parsed.
  - set (st1 := {| Gemini.sessionId :=
                     default (Gemini.sessionId st) (loadSessionId data);
                   doneYielded := doneYielded st;
                   initYielded := initYielded st |}).
    assert (init_before_done st1) as Hinv1 by done.
    change (doneYielded st) with (doneYielded st1). clearbody st1.
    cbn [is_result].
    destruct (asString (get (asRecord data) "type")) as [eventType|];
      [|split; [apply closed_nil|done]].
    destruct (decide (eventType = lit "init")).
    { destruct (ensure_init_closed (asRecord data) st1 w Hinv1)
        as (Hc & Hd & Hi & _).
      split; [exact Hc|]. split; [by intros _|done]. }
    cbv zeta. rewrite events_of_bind, result_of_bind.
    destruct (ensure_init_closed (asRecord data) st1 w Hinv1)
      as (Hc & Hd & Hi & _).
    cbv zeta in Hc, Hd, Hi.
    generalize dependent (result_of (ensure_init (asRecord data) st1) w).
    intros st2 Hc Hd Hi.
    generalize (world_after (ensure_init (asRecord data) st1) w). intros w2.
    assert (forall out st3,
              closed (doneYielded st2) out (doneYielded st3)
              /\ init_before_done st3
              /\ (Some eventType <> Some (lit "result") ->
                  doneYielded st3 = doneYielded st2) ->
              closed (doneYielded st1)
                (events_of (ensure_init (asRecord data) st1) w ++ out)
                (doneYielded st3)
              /\ init_before_done st3
              /\ (Some eventType <> Some (lit "result") ->
                  doneYielded st3 = doneYielded st1)) as Hglue.
    { intros out st3 (H1 & H2 & H3). split; [|split; [done|]].
      - eapply closed_app; [exact Hc|exact H1].
      - intros Hne. rewrite <- Hd. by apply H3. }
    apply Hglue. clear Hglue Hc.
    destruct (doneYielded st2) eqn:Hd2.
    { cbn. rewrite Hd2. split; [done|]. split; [by intros _|done]. }
    unfold toolUseId_of, closed, init_before_done.
    repeat case_decide; repeat case_match; run_gen; rewrite ?Hd2;
      try (split; [left; split; [done|not_done]|by split]).
    all: subst; try done.
    all: split; [right; split; [done|]; eexists [], _;
                 split; [reflexivity|]; split; [done|constructor]
                |by split].
  - cbv zeta. rewrite events_of_bind, result_of_bind.
    destruct (ensure_init_closed Undefined st w Hinv) as (Hc & Hd & Hi & _).
    cbv zeta in Hc, Hd, Hi.
    generalize dependent (result_of (ensure_init Undefined st) w).
    intros st2 Hc Hd Hi.
    generalize (world_after (ensure_init Undefined st) w). intros w2.
    rewrite events_of_bind, result_of_bind. cbn [ret events_of result_of fst snd].
    rewrite app_nil_r. split; [|split; [by intros _|by intros _]].
    eapply closed_app; [exact Hc|]. unfold closed.
    destruct (doneYielded st2); run_gen; [done|]. left. split; [done|not_done].
Qed.

Lemma on_all_parsed_closed (results : list NDJSONParseResult) :
  forall (st : RunState) (w : World),
    init_before_done st ->
    let st' := result_of (on_all_parsed results st) w in
    closed (doneYielded st) (events_of (on_all_parsed results st) w)
      (doneYielded st')
    /\ init_before_done st'
    /\ (Forall (fun parsed => ~ is_result parsed) results ->
        doneYielded st' = doneYielded st).
Proof.
  induction results as [|parsed rest IH]; intros st w Hinv.
  - split; [apply closed_nil|done].
  - cbn [Gemini.on_all_parsed]. cbv zeta.
    rewrite events_of_bind, result_of_bind.
    destruct (on_parsed_closed parsed st w Hinv) as (Hc & Hinv1 & Hkeep).
    destruct (IH _ (world_after (on_parsed parsed st) w) Hinv1)
      as (Hc' & Hinv2 & Hkeep').
    split; [eapply closed_app; [exact Hc|exact Hc']|]. split; [done|].
    intros Hno. inversion Hno as [|? ? Hp Hrest]; subst.
    cbv zeta in Hkeep, Hkeep'. by rewrite Hkeep', Hkeep.
Qed.

(** The [try] block keeps the [done] guard; when it runs to its end the
    [done] has been yielded. *)
Lemma run_try_closed (abortRequested : bool) (st : RunState) (w : World) :
  init_before_done st ->
  let m := run_try JSON_parse utf8_toString String_of clock uuid env
             toolConfig options startTime abortRequested st in
  closed (doneYielded st) (events_of m w)
    match snd (result_of m w) with
    | None => true
    | Some _ => doneYielded (fst (result_of m w))
    end
  /\ init_before_done (fst (result_of m w)).
Proof.
  intros Hinv. unfold run_try.
  destruct (createSettingsOverride env);
    [split; [apply closed_nil|done]|].
  destruct (spawnProcess env) as [child|];
    [|split; [apply closed_nil|done]].
  destruct (stdout child) as [stream|];
    [|split; [apply closed_nil|done]].
  destruct (parseNDJSON _ _ _ stream) as [results failure].
  cbv zeta. rewrite events_of_bind, result_of_bind.
  destruct (on_all_parsed_closed results st w Hinv) as (Hloop & Hinv1 & _).
  cbv zeta in Hloop, Hinv1.
  generalize dependent (result_of (on_all_parsed results st) w).
  generalize (world_after (on_all_parsed results st) w).
  intros w1 st1 Hloop Hinv1.
  destruct failure.
  { cbn. rewrite app_nil_r. by split. }
  destruct (closePromise child) as [close|].
  2:{ cbn. rewrite app_nil_r. by split. }
  rewrite events_of_bind, result_of_bind.
  destruct (ensure_init_closed Undefined st1 w1 Hinv1) as (Hc & Hd & Hi & _).
  cbv zeta in Hc, Hd, Hi.
  generalize dependent (result_of (ensure_init Undefined st1) w1).
  generalize (world_after (ensure_init Undefined st1) w1).
  intros w2 st2 Hc Hd Hi.
  rewrite events_of_bind, result_of_bind.
  cbn [ret events_of result_of fst snd]. rewrite app_nil_r.
  split; [|by intros _].
  eapply closed_app; [exact Hloop|]. eapply closed_app; [exact Hc|].
  unfold closed. destruct (doneYielded st2); run_gen; [done|].
  right. split; [done|]. eexists [], _. split; [reflexivity|].
  split; [done|constructor].
Qed.

(** The [catch] block keeps the [done] guard and always leaves the [done]
    yielded. *)
Lemma run_catch_closed (abortRequested : bool) (err : thrown)
    (st : RunState) (w : World) :
  init_before_done st ->
  closed (doneYielded st)
    (events_of
       (run_catch clock uuid env toolConfig options startTime abortRequested
          err st) w)
    true.
Proof.
  intros Hinv. unfold run_catch. rewrite events_of_bind.
  destruct (ensure_init_closed Undefined st w Hinv) as (Hc & Hd & Hi & _).
  cbv zeta in Hc, Hd, Hi.
  generalize dependent (result_of (ensure_init Undefined st) w).
  generalize (world_after (ensure_init Undefined st) w).
  intros w1 st1 Hc Hd Hi.
  eapply closed_app; [exact Hc|]. unfold closed.
  destruct (doneYielded st1), abortRequested; run_gen; [done|done| |];
    right; (split; [done|]).
  - eexists [], _. split; [reflexivity|]. split; [done|constructor].
  - eexists [_], _. split; [reflexivity|]. split; [done|not_done].
Qed.

(** *** How the process exit ends the stream *)

Lemma run_try_exit (abortRequested : bool) (st : RunState) (w : World)
    (child : ChildProcess) (stream : Readable) (close : CloseResult) :
  createSettingsOverride env = None ->
  spawnProcess env = inl child ->
  stdout child = Some stream ->
  failure stream = None ->
  closePromise child = inl close ->
  Forall (fun parsed => ~ is_result parsed)
    (fst (parseNDJSON JSON_parse utf8_toString String_of stream)) ->
  init_before_done st ->
  doneYielded st = false ->
  let m := run_try JSON_parse utf8_toString String_of clock uuid env
             toolConfig options startTime abortRequested st in
  let status := mapExitCodeToDoneStatus close abortRequested in
  snd (result_of m w) = None
  /\ exists pre d duration,
       events_of m w = pre ++ [d]
       /\ Forall (fun e => ~ is_done e) pre
       /\ type d = lit "done"
       /\ payload d
          = DonePayload status
              (if bool_decide (status = error)
                  && (0 <? length (trim (stderr child)))%nat
               then Some (trim (stderr child))
               else None)
              DEFAULT_DONE_USAGE duration.
Proof.
  intros Hset Hspawn Hout Hfail Hclose Hno Hinv Hd0. unfold run_try.
  rewrite Hset, Hspawn, Hout.
  pose proof (NdjsonFacts.parseNDJSON_framed JSON_parse utf8_toString
                String_of stream) as Hf.
  destruct (parseNDJSON _ _ _ stream) as [results failure].
  injection Hf as _ ->. rewrite Hfail. cbn [fst] in Hno.
  cbv zeta. rewrite events_of_bind, result_of_bind.
  destruct (on_all_parsed_closed results st w Hinv) as (Hloop & Hinv1 & Hkeep).
  cbv zeta in Hloop, Hinv1, Hkeep. specialize (Hkeep Hno).
  rewrite Hd0 in Hloop, Hkeep.
  generalize dependent (result_of (on_all_parsed results st) w).
  generalize (world_after (on_all_parsed results st) w).
  intros w1 st1 Hloop Hinv1 Hd1. rewrite Hd1 in Hloop.
  destruct Hloop as [[_ Hloop]|[? _]]; [|done].
  rewrite Hclose.
  rewrite events_of_bind, result_of_bind.
  destruct (ensure_init_closed Undefined st1 w1 Hinv1) as (Hc & Hd & Hi & _).
  cbv zeta in Hc, Hd, Hi. rewrite Hd1 in Hc, Hd.
  generalize dependent (result_of (ensure_init Undefined st1) w1).
  generalize (world_after (ensure_init Undefined st1) w1).
  intros w2 st2 Hc Hd2 Hi. rewrite Hd2 in Hc.
  destruct Hc as [[_ Hc]|[? _]]; [|done].
  rewrite events_of_bind, result_of_bind. rewrite Hd2.
  cbn [negb ret events_of result_of fst snd].
  split; [done|]. rewrite app_nil_r.
  eexists (_ ++ _), _, _. rewrite <- app_assoc.
  split; [run_gen; reflexivity|]. split; [by apply Forall_app|]. by split.
Qed.

(** *** Who the events are stamped with *)

(** Every event carries the adapter's name and no metadata, and a session
    id that satisfies [P]. *)
Definition stamped (P : jsstring -> Prop) (out : list AgentEvent) : Prop :=
  Forall (fun e => agent e = AGENT /\ metadata e = None
                   /\ P (Events.sessionId e)) out.

Ltac stamp :=
  unfold stamped; repeat first [apply Forall_nil_2|apply Forall_cons_2];
  cbn; by split_and!.

Lemma ensure_init_stamped (P : jsstring -> Prop) (sourceEvent : value)
    (st : RunState) (w : World) :
  P (Gemini.sessionId st) ->
  stamped P (events_of (ensure_init sourceEvent st) w).
Proof.
  intros HP. unfold Gemini.ensure_init. destruct (initYielded st); run_gen; stamp.
Qed.

Lemma ensure_init_sessionId (sourceEvent : value) (st : RunState)
    (w : World) :
  Gemini.sessionId (result_of (ensure_init sourceEvent st) w)
  = Gemini.sessionId st.
Proof. unfold Gemini.ensure_init. by destruct (initYielded st). Qed.

Lemma stamped_app (P : jsstring -> Prop) (a b : list AgentEvent) :
  stamped P a -> stamped P b -> stamped P (a ++ b).
Proof. intros Ha Hb. by apply Forall_app. Qed.

Lemma on_parsed_stamped (P : jsstring -> Prop) (parsed : NDJSONParseResult)
    (st : RunState) (w : World) :
  P (Gemini.sessionId st) ->
  (forall data sid,
     parsed = Ok data -> loadSessionId data = Some sid -> P sid) ->
  stamped P (events_of (on_parsed parsed st) w)
  /\ P (Gemini.sessionId (result_of (on_parsed parsed st) w)).
Proof.
  intros HP Hload. destruct parsed as [data|perror raw];
    unfold Gemini.on_parsed.
  - set (st1 := {| Gemini.sessionId :=
                     default (Gemini.sessionId st) (loadSessionId data);
                   doneYielded := doneYielded st;
                   initYielded := initYielded st |}).
    assert (P (Gemini.sessionId st1)) as HP1.
    { subst st1. cbn. destruct (loadSessionId data) as [sid|] eqn:Hl; [|done].
      by apply (Hload data). }
    clearbody st1.
    destruct (asString (get (asRecord data) "type")) as [eventType|];
      [|split; [constructor|done]].
    pose proof (ensure_init_stamped P (asRecord data) st1 w HP1) as Hinit.
    pose proof (ensure_init_sessionId (asRecord data) st1 w) as Hsid.
    destruct (decide (eventType = lit "init")).
    { split; [done|]. by rewrite Hsid. }
    rewrite events_of_bind, result_of_bind.
    rewrite <- Hsid in HP1.
    generalize dependent (result_of (ensure_init (asRecord data) st1) w).
    intros st2 HP2 _.
    generalize (world_after (ensure_init (asRecord data) st1) w). intros w2.
    assert (forall out sid,
              stamped P out /\ P sid ->
              stamped P (events_of (ensure_init (asRecord data) st1) w ++ out)
              /\ P sid) as Hglue.
    { intros out sid [H1 H2]. split; [by apply stamped_app|done]. }
    apply Hglue. clear Hglue Hinit.
    destruct (doneYielded st2); [split; [constructor|done]|].
    unfold toolUseId_of.
    repeat case_decide; repeat case_match; run_gen; (split; [stamp|done]).
  - rewrite events_of_bind, result_of_bind.
    pose proof (ensure_init_stamped P Undefined st w HP) as Hinit.
    pose proof (ensure_init_sessionId Undefined st w) as Hsid.
    rewrite <- Hsid in HP.
    generalize dependent (result_of (ensure_init Undefined st) w).
    intros st2 HP2 _.
    generalize (world_after (ensure_init Undefined st) w). intros w2.
    rewrite events_of_bind, result_of_bind.
    cbn [ret events_of result_of fst snd]. rewrite app_nil_r.
    split; [|done]. apply stamped_app; [done|].
    destruct (doneYielded st2); run_gen; stamp.
Qed.

Lemma on_all_parsed_stamped (P : jsstring -> Prop)
    (results : list NDJSONParseResult) :
  forall (st : RunState) (w : World),
    P (Gemini.sessionId st) ->
    (forall data sid,
       Ok data ∈ results -> loadSessionId data = Some sid -> P sid) ->
    stamped P (events_of (on_all_parsed results st) w)
    /\ P (Gemini.sessionId (result_of (on_all_parsed results st) w)).
Proof.
  induction results as [|parsed rest IH]; intros st w HP Hload.
  - split; [constructor|done].
  - cbn [Gemini.on_all_parsed]. rewrite events_of_bind, result_of_bind.
    destruct (on_parsed_stamped P parsed st w HP) as [H1 HP1].
    { intros data sid -> Hl. apply (Hload data); [by left|done]. }
    destruct (IH _ (world_after (on_parsed parsed st) w) HP1) as [H2 HP2].
    { intros data sid Hin. apply Hload. by right. }
    split; [by apply stamped_app|done].
Qed.

Lemma run_catch_stamped (P : jsstring -> Prop) (abortRequested : bool)
    (err : thrown) (st : RunState) (w : World) :
  P (Gemini.sessionId st) ->
  stamped P
    (events_of
       (run_catch clock uuid env toolConfig options startTime abortRequested
          err st) w).
Proof.
  intros HP. unfold run_catch. rewrite events_of_bind.
  pose proof (ensure_init_stamped P Undefined st w HP) as Hinit.
  pose proof (ensure_init_sessionId Undefined st w) as Hsid.
  rewrite <- Hsid in HP.
  generalize dependent (result_of (ensure_init Undefined st) w).
  intros st2 HP2 _.
  generalize (world_after (ensure_init Undefined st) w). intros w2.
  apply stamped_app; [done|].
  destruct (doneYielded st2), abortRequested; run_gen; stamp.
Qed.

(** The lines [run] gets to see: none when the settings or the spawn fail or
    the process has no [stdout]. *)
Definition parsed_lines : list NDJSONParseResult :=
  match createSettingsOverride env, spawnProcess env with
  | None, inl child =>
      match stdout child with
      | Some stream =>
          fst (parseNDJSON JSON_parse utf8_toString String_of stream)
      | None => []
      end
  | _, _ => []
  end.

Lemma run_try_stamped (P : jsstring -> Prop) (abortRequested : bool)
    (st : RunState) (w : World) :
  P (Gemini.sessionId st) ->
  (forall data sid,
     Ok data ∈ parsed_lines -> loadSessionId data = Some sid -> P sid) ->
  let m := run_try JSON_parse utf8_toString String_of clock uuid env
             toolConfig options startTime abortRequested st in
  stamped P (events_of m w) /\ P (Gemini.sessionId (fst (result_of m w))).
Proof.
  intros HP Hload. unfold run_try. unfold parsed_lines in Hload.
  destruct (createSettingsOverride env); [split; [constructor|done]|].
  destruct (spawnProcess env) as [child|]; [|split; [constructor|done]].
  destruct (stdout child) as [stream|]; [|split; [constructor|done]].
  destruct (parseNDJSON _ _ _ stream) as [results failure].
  cbn [fst] in Hload.
  cbv zeta. rewrite events_of_bind, result_of_bind.
  destruct (on_all_parsed_stamped P results st w HP Hload) as [Hloop HP1].
  generalize dependent (result_of (on_all_parsed results st) w).
  generalize (world_after (on_all_parsed results st) w).
  intros w1 st1 HP1.
  destruct failure.
  { cbn. rewrite app_nil_r. by split. }
  destruct (closePromise child) as [close|].
  2:{ cbn. rewrite app_nil_r. by split. }
  rewrite events_of_bind, result_of_bind.
  pose proof (ensure_init_stamped P Undefined st1 w1 HP1) as Hinit.
  pose proof (ensure_init_sessionId Undefined st1 w1) as Hsid.
  rewrite <- Hsid in HP1.
  generalize dependent (result_of (ensure_init Undefined st1) w1).
  generalize (world_after (ensure_init Undefined st1) w1).
  intros w2 st2 HP2 _.
  rewrite events_of_bind, result_of_bind.
  cbn [ret events_of result_of fst snd]. rewrite app_nil_r.
  split; [|done]. apply stamped_app; [done|]. apply stamped_app; [done|].
  destruct (doneYielded st2); run_gen; stamp.
Qed.

End Run.

(** X13.  Every run of [GeminiAdapter.run] yields exactly one
    [done] event, and it is the last event of the stream: whatever the
    process writes (lines after a [result] line are not reported), however it
    exits, whether the settings, the spawn or the reading fail, and whether
    the run is cancelled. *)
Theorem run_one_done (JSON_parse : jsstring -> value + thrown)
    (utf8_toString : list N -> jsstring) (String_of : value -> jsstring)
    (clock : nat -> Z) (uuid : nat -> jsstring) (env : Environment)
    (options : option AgentOptions) (w : World) :
  let out :=
    events_of
      (run JSON_parse utf8_toString String_of clock uuid env options) w in
  one_done out /\ EngineFacts.count_done out = 1%nat.
Proof.
  assert (one_done
            (events_of
               (run JSON_parse utf8_toString String_of clock uuid env options)
               w)) as Hone.
  2:{ split; [done|]. destruct Hone as (pre & d & -> & Hd & Hpre).
      by apply EngineFacts.terminal_count. }
  unfold run. cbv zeta.
  rewrite events_of_bind. cbn [events_of Date_now fst snd app].
  rewrite events_of_bind.
  assert (events_of
            match options ≫= resume with
            | Some r => ret r
            | None => generateSessionId (O:=AgentEvent) uuid
            end (world_after (Date_now clock) w) = []) as ->
    by (by destruct (options ≫= resume)).
  cbn [app]. rewrite events_of_bind.
  set (st := {| Gemini.sessionId := _; doneYielded := false;
                initYielded := false |}).
  set (w1 := world_after _ (world_after (Date_now clock) w)).
  set (start := result_of (Date_now clock) w).
  set (flag := opt_aborted (signal_of options) end_instant).
  destruct (run_try_closed JSON_parse utf8_toString String_of clock uuid env
              (toolConfig_of options) options start flag st w1) as [Hc Hinv];
    [done|].
  cbv zeta in Hc, Hinv.
  set (w2 := world_after (run_try _ _ _ _ _ _ _ _ _ _ st) w1).
  destruct (result_of (run_try _ _ _ _ _ _ _ _ _ _ st) w1) as [st' [err|]].
  - pose proof (run_catch_closed clock uuid env (toolConfig_of options)
                  options start (flag || flag) err st' w2 Hinv) as Hcatch.
    pose proof (closed_app _ _ _ _ _ Hc Hcatch) as [[? _]|[_ H]];
      [done|exact H].
  - cbn [fst snd] in *. cbn [events_of ret fst snd]. rewrite app_nil_r.
    destruct Hc as [[? _]|[_ H]]; [done|exact H].
Qed.

(** X14.  How the exit of the process ends the stream.  When the
    process was spawned, its output was read to the end and held no line of
    type [result], and the process closed, the stream ends with a [done]
    event (and holds no other) whose status is [interrupted] when the run
    was cancelled or the process was ended by SIGTERM, and otherwise
    [success] for exit code 0, [max_turns] for exit code 53 and [error] for
    any other code or none; its usage is zeroed, and its [result] is the
    trimmed text of [stderr] when the status is [error] and that text is not
    empty, and absent otherwise. *)
Theorem run_exit_status (JSON_parse : jsstring -> value + thrown)
    (utf8_toString : list N -> jsstring) (String_of : value -> jsstring)
    (clock : nat -> Z) (uuid : nat -> jsstring) (env : Environment)
    (options : option AgentOptions) (w : World)
    (child : ChildProcess) (stream : Readable) (close : CloseResult) :
  createSettingsOverride env = None ->
  spawnProcess env = inl child ->
  stdout child = Some stream ->
  failure stream = None ->
  closePromise child = inl close ->
  Forall (fun parsed => ~ is_result parsed)
    (fst (parseNDJSON JSON_parse utf8_toString String_of stream)) ->
  let status :=
    if opt_aborted (signal_of options) end_instant
       || bool_decide (signal close = Some (lit "SIGTERM"))
    then interrupted
    else if bool_decide (code close = Some 0) then success
    else if bool_decide (code close = Some 53) then max_turns
    else error in
  exists pre d duration,
    events_of (run JSON_parse utf8_toString String_of clock uuid env options) w
    = pre ++ [d]
    /\ Forall (fun e => ~ is_done e) pre
    /\ type d = lit "done"
    /\ payload d
       = DonePayload status
           (if bool_decide (status = error)
               && (0 <? length (trim (stderr child)))%nat
            then Some (trim (stderr child))
            else None)
           DEFAULT_DONE_USAGE duration.
Proof.
  intros Hset Hspawn Hout Hfail Hclose Hno status.
  assert (mapExitCodeToDoneStatus close
            (opt_aborted (signal_of options) end_instant) = status) as Hstatus.
  { subst status. unfold mapExitCodeToDoneStatus.
    by repeat case_match. }
  unfold run. cbv zeta.
  rewrite events_of_bind. cbn [events_of Date_now fst snd app].
  rewrite events_of_bind.
  assert (events_of
            match options ≫= resume with
            | Some r => ret r
            | None => generateSessionId (O:=AgentEvent) uuid
            end (world_after (Date_now clock) w) = []) as ->
    by (by destruct (options ≫= resume)).
  cbn [app]. rewrite events_of_bind.
  set (st := {| Gemini.sessionId := _; doneYielded := false;
                initYielded := false |}).
  set (w1 := world_after _ (world_after (Date_now clock) w)).
  set (start := result_of (Date_now clock) w).
  destruct (run_try_exit JSON_parse utf8_toString String_of clock uuid env
              (toolConfig_of options) options start
              (opt_aborted (signal_of options) end_instant) st w1 child
              stream close Hset Hspawn Hout Hfail Hclose Hno)
    as (Hnone & pre & d & duration & Hev & Hpre & Hty & Hpay); [done|done|].
  cbv zeta in Hnone, Hev, Hpay. rewrite Hstatus in Hpay.
  destruct (result_of (run_try _ _ _ _ _ _ _ _ _ _ st) w1) as [st' r].
  cbn [snd] in Hnone. subst r. cbn [events_of ret fst snd].
  rewrite app_nil_r. by exists pre, d, duration.
Qed.

(** X15.  Every event of a run carries the adapter's name
    [gemini] and no metadata, and no session id is made up along the way:
    the session id of an event is the one the run started with ([resume]
    when it is given, else the one id generated at the start) or an id that
    some parsed line supplied.  When no line supplies one, every event of
    the run carries the id it started with. *)
Theorem run_stamp (JSON_parse : jsstring -> value + thrown)
    (utf8_toString : list N -> jsstring) (String_of : value -> jsstring)
    (clock : nat -> Z) (uuid : nat -> jsstring) (env : Environment)
    (options : option AgentOptions) (w : World) :
  let out :=
    events_of
      (run JSON_parse utf8_toString String_of clock uuid env options) w in
  let lines := parsed_lines JSON_parse utf8_toString String_of env in
  let started := default (uuid (uuid_reads w)) (options ≫= resume) in
  Forall (fun e =>
            agent e = AGENT /\ metadata e = None
            /\ (Events.sessionId e = started
                \/ exists data,
                     Ok data ∈ lines
                     /\ loadSessionId data = Some (Events.sessionId e)))
    out
  /\ ((forall data, Ok data ∈ lines -> loadSessionId data = None) ->
      Forall (fun e => Events.sessionId e = started) out).
Proof.
  intros out lines started.
  assert (Forall (fun e =>
                    agent e = AGENT /\ metadata e = None
                    /\ (Events.sessionId e = started
                        \/ exists data,
                             Ok data ∈ lines
                             /\ loadSessionId data = Some (Events.sessionId e)))
            out) as Hall.
  2:{ split; [done|]. intros Hnone. eapply Forall_impl; [exact Hall|].
      intros e (_ & _ & [?|(data & Hin & Hl)]); [done|].
      by rewrite (Hnone data Hin) in Hl. }
  set (P := fun sid : jsstring =>
              sid = started
              \/ exists data, Ok data ∈ lines /\ loadSessionId data = Some sid).
  change (stamped P out). subst out.
  unfold run. cbv zeta.
  rewrite events_of_bind. cbn [events_of Date_now fst snd app].
  rewrite events_of_bind.
  assert (events_of
            match options ≫= resume with
            | Some r => ret r
            | None => generateSessionId (O:=AgentEvent) uuid
            end (world_after (Date_now clock) w) = []) as ->
    by (by destruct (options ≫= resume)).
  cbn [app]. rewrite events_of_bind.
  set (st := {| Gemini.sessionId := _; doneYielded := false;
                initYielded := false |}).
  assert (P (Gemini.sessionId st)) as HP.
  { left. subst st started. cbn. by destruct (options ≫= resume). }
  set (w1 := world_after _ (world_after (Date_now clock) w)).
  set (start := result_of (Date_now clock) w).
  set (flag := opt_aborted (signal_of options) end_instant).
  destruct (run_try_stamped JSON_parse utf8_toString String_of clock uuid env
              (toolConfig_of options) options start P flag st w1 HP)
    as [Htry HP'].
  { intros data sid Hin Hl. right. by exists data. }
  cbv zeta in Htry, HP'.
  set (w2 := world_after (run_try _ _ _ _ _ _ _ _ _ _ st) w1).
  destruct (result_of (run_try _ _ _ _ _ _ _ _ _ _ st) w1) as [st' [err|]].
  - apply stamped_app; [done|]. by apply run_catch_stamped.
  - cbn [events_of ret fst snd]. by rewrite app_nil_r.
Qed.

(** An [init] line, then exit code 53. *)
Lemma run_exit_status_witness :
  exists pre d duration,
    sample_stream [init_line ++ [LF]] 53 = pre ++ [d]
    /\ Forall (fun e => ~ EngineFacts.is_done e) pre
    /\ type d = lit "done"
    /\ payload d = DonePayload max_turns None DEFAULT_DONE_USAGE duration.
Proof.
  apply (run_exit_status init_line_parse (fun b => b) (fun _ => [])
           (fun n => 1000 + Z.of_nat n) (fun _ => lit "sid")
           (exits_with [init_line ++ [LF]] 53) None world0
           {| stdout := Some {| chunks := StringChunk <$> [init_line ++ [LF]];
                                failure := None |};
              stderr := [];
              closePromise := inl {| code := Some 53; signal := None |} |}
           {| chunks := StringChunk <$> [init_line ++ [LF]];
              failure := None |}
           {| code := Some 53; signal := None |}).
  - reflexivity.
  - reflexivity.
  - reflexivity.
  - reflexivity.
  - reflexivity.
  - vm_compute. repeat constructor. intros H. discriminate H.
Defined.

End GeminiLaws.

(* ===================================================================== *)
(** * The tool configuration of the Gemini adapter *)
(* ===================================================================== *)

Module GeminiToolFacts.

Import Gemini.

(** ** Sets of tool names *)

Lemma elem_of_set_add (s : list jsstring) (y x : jsstring) :
  x ∈ set_add s y <-> x ∈ s \/ x = y.
Proof.
  unfold set_add. case_bool_decide as Hy.
  - split; [by left|]. intros [?| ->]; done.
  - rewrite elem_of_app, list_elem_of_singleton. done.
Qed.

Lemma NoDup_set_add (s : list jsstring) (y : jsstring) :
  NoDup s -> NoDup (set_add s y).
Proof.
  intros Hs. unfold set_add. case_bool_decide as Hy; [done|].
  apply NoDup_app. split; [done|]. split; [|apply NoDup_singleton].
  intros x Hx. rewrite list_elem_of_singleton. by intros ->.
Qed.

Lemma elem_of_set_adds (l s : list jsstring) (x : jsstring) :
  x ∈ foldl set_add s l <-> x ∈ s \/ x ∈ l.
Proof.
  revert s. induction l as [|y l IH]; intros s; cbn [foldl].
  - rewrite elem_of_nil. tauto.
  - rewrite IH, elem_of_set_add, elem_of_cons. tauto.
Qed.

Lemma NoDup_set_adds (l s : list jsstring) :
  NoDup s -> NoDup (foldl set_add s l).
Proof.
  revert s. induction l as [|y l IH]; intros s Hs; cbn [foldl]; [done|].
  by apply IH, NoDup_set_add.
Qed.

Lemma elem_of_set_deletes (l s : list jsstring) (x : jsstring) :
  x ∈ foldl set_delete s l <-> x ∈ s /\ x ∉ l.
Proof.
  revert s. induction l as [|y l IH]; intros s; cbn [foldl].
  - split; [intros ?; split; [done|apply not_elem_of_nil]|by intros [? _]].
  - rewrite IH. unfold set_delete. rewrite list_elem_of_filter, not_elem_of_cons.
    tauto.
Qed.

Lemma NoDup_set_deletes (l s : list jsstring) :
  NoDup s -> NoDup (foldl set_delete s l).
Proof.
  revert s. induction l as [|y l IH]; intros s Hs; cbn [foldl]; [done|].
  apply IH. by apply NoDup_filter.
Qed.

(** ** The order of code units *)

Lemma code_unit_lt_irrefl (a : jsstring) : code_unit_lt a a = false.
Proof.
  induction a as [|x a IH]; [done|]. cbn [code_unit_lt].
  by rewrite N.ltb_irrefl.
Qed.

Lemma code_unit_lt_trans (a b c : jsstring) :
  code_unit_lt a b = true -> code_unit_lt b c = true ->
  code_unit_lt a c = true.
Proof.
  revert b c. induction a as [|x a IH]; intros [|y b] [|z c]; cbn; try done.
  destruct (N.ltb_spec x y), (N.ltb_spec y x), (N.ltb_spec y z),
    (N.ltb_spec z y), (N.ltb_spec x z), (N.ltb_spec z x);
    try done; try lia.
  apply IH.
Qed.

Lemma code_unit_lt_total (a b : jsstring) :
  code_unit_lt a b = false -> a <> b -> code_unit_lt b a = true.
Proof.
  revert b. induction a as [|x a IH]; intros [|y b]; cbn; try done.
  destruct (N.ltb_spec x y), (N.ltb_spec y x); try done; try lia.
  intros Hlt Hne. apply IH; [done|]. intros ->. apply Hne. f_equal. lia.
Qed.

(** Strictly ascending by code units. *)
Definition ascending (l : list jsstring) : Prop :=
  StronglySorted (fun a b => code_unit_lt a b = true) l.

Lemma elem_of_insert_sorted (y : jsstring) (l : list jsstring) (x : jsstring) :
  x ∈ insert_sorted y l <-> x = y \/ x ∈ l.
Proof.
  induction l as [|z l IH]; cbn [insert_sorted].
  - rewrite list_elem_of_singleton, elem_of_nil. tauto.
  - destruct (code_unit_lt z y); rewrite !elem_of_cons, ?IH; tauto.
Qed.

Lemma ascending_insert_sorted (y : jsstring) (l : list jsstring) :
  ascending l -> y ∉ l -> ascending (insert_sorted y l).
Proof.
  unfold ascending. induction 1 as [|z l Hl IH Hz]; intros Hy;
    cbn [insert_sorted].
  - repeat constructor.
  - apply not_elem_of_cons in Hy as [Hne Hy].
    destruct (code_unit_lt z y) eqn:Hzy.
    + constructor; [by apply IH|].
      apply Forall_forall. intros x Hx.
      apply elem_of_insert_sorted in Hx as [->|Hx]; [done|].
      rewrite Forall_forall in Hz. by apply Hz.
    + assert (code_unit_lt y z = true) as Hyz
        by (by apply code_unit_lt_total).
      constructor; [by constructor|].
      constructor; [done|].
      eapply Forall_impl; [exact Hz|]. intros x Hx.
      by apply (code_unit_lt_trans y z x).
Qed.

Lemma elem_of_sort (l : list jsstring) (x : jsstring) : x ∈ sort l <-> x ∈ l.
Proof.
  unfold sort. induction l as [|y l IH]; cbn [foldr]; [done|].
  rewrite elem_of_insert_sorted, elem_of_cons, IH. tauto.
Qed.

Lemma ascending_sort (l : list jsstring) : NoDup l -> ascending (sort l).
Proof.
  unfold sort. induction 1 as [|y l Hy _ IH]; cbn [foldr]; [constructor|].
  apply ascending_insert_sorted; [done|]. by rewrite elem_of_sort.
Qed.

(** An ascending list has no repeats. *)
Lemma ascending_NoDup (l : list jsstring) : ascending l -> NoDup l.
Proof.
  induction 1 as [|z l _ IH Hz]; constructor; [|done].
  intros Hin. rewrite Forall_forall in Hz. specialize (Hz z Hin).
  by rewrite code_unit_lt_irrefl in Hz.
Qed.

(** X16.  The tool configuration, as sets.  A tool is disallowed
    exactly when the caller disallowed it or it belongs to a capability
    whose level is [deny] ([edit] for [fileWrite], [ShellTool] for
    [shellExecute], [webfetch] for [networkAccess]; an absent level counts as
    [ask]).  A tool is allowed exactly when the caller allowed it or it
    belongs to a capability whose level is [allow], and it is not
    disallowed: deny overrides allow, so no tool is on both lists.  Both
    lists are strictly ascending by code units, hence free of repeats, and
    the command line gets [--allowed-tools] with the allowed list joined by
    commas exactly when that list is not empty. *)
Theorem mapPermissionsToGeminiToolConfig_sets
    (policy : option PermissionPolicy)
    (allowedTools disallowedTools : option (list jsstring)) :
  let cfg :=
    mapPermissionsToGeminiToolConfig policy allowedTools disallowedTools in
  let level capability := default ask (policy ≫= capability) in
  let by_level (wanted : PermissionLevel) (x : jsstring) :=
    (x = lit "edit" /\ level fileWrite = wanted)
    \/ (x = lit "ShellTool" /\ level shellExecute = wanted)
    \/ (x = lit "webfetch" /\ level networkAccess = wanted) in
  let denied x := x ∈ default [] disallowedTools \/ by_level deny x in
  let granted x := x ∈ default [] allowedTools \/ by_level allow x in
  (forall x, x ∈ tc_disallowedTools cfg <-> denied x)
  /\ (forall x, x ∈ tc_allowedTools cfg <-> granted x /\ ~ denied x)
  /\ (forall x, x ∈ tc_allowedTools cfg -> x ∉ tc_disallowedTools cfg)
  /\ ascending (tc_allowedTools cfg)
  /\ ascending (tc_disallowedTools cfg)
  /\ tc_args cfg
     = match tc_allowedTools cfg with
       | [] => []
       | _ :: _ => [lit "--allowed-tools"; join_comma (tc_allowedTools cfg)]
       end.
Proof.
  intros cfg level by_level denied granted.
  set (user_allowed := foldl set_add [] (default [] allowedTools)).
  set (user_disallowed := foldl set_add [] (default [] disallowedTools)).
  set (sets :=
         foldl (fun sets group =>
                  match level (fst group) with
                  | allow => (foldl set_add (fst sets) (snd group), snd sets)
                  | deny => (fst sets, foldl set_add (snd sets) (snd group))
                  | ask => sets
                  end)
           (user_allowed, user_disallowed) CAPABILITY_TOOL_GROUPS).
  assert (NoDup user_allowed /\ NoDup user_disallowed) as [Hna Hnd]
    by (split; apply NoDup_set_adds; constructor).
  assert (forall x, x ∈ user_allowed <-> x ∈ default [] allowedTools) as Hua.
  { intros x. subst user_allowed. rewrite elem_of_set_adds, elem_of_nil. tauto. }
  assert (forall x, x ∈ user_disallowed <-> x ∈ default [] disallowedTools)
    as Hud.
  { intros x. subst user_disallowed. rewrite elem_of_set_adds, elem_of_nil.
    tauto. }
  assert ((forall x, x ∈ fst sets <-> granted x)
          /\ (forall x, x ∈ snd sets <-> denied x)
          /\ NoDup (fst sets) /\ NoDup (snd sets)) as (Hg & Hd & Hng & Hnd').
  { subst sets granted denied by_level. unfold CAPABILITY_TOOL_GROUPS.
    cbn [foldl fst snd].
    destruct (level fileWrite), (level shellExecute), (level networkAccess);
      cbn [fst snd foldl];
      (split_and!;
       [intros x; rewrite ?elem_of_set_add, Hua; intuition discriminate
       |intros x; rewrite ?elem_of_set_add, Hud; intuition discriminate
       |repeat apply NoDup_set_add; done
       |repeat apply NoDup_set_add; done]). }
  assert (cfg =
          let allowed :=
            if (0 <? length (fst sets))%nat
            then foldl set_delete (fst sets) (snd sets) else fst sets in
          {| tc_allowedTools := sort allowed;
             tc_disallowedTools := sort (snd sets);
             tc_args := if (0 <? length (sort allowed))%nat
                        then [lit "--allowed-tools"; join_comma (sort allowed)]
                        else [] |}) as ->.
  { subst cfg sets user_allowed user_disallowed level.
    unfold mapPermissionsToGeminiToolConfig. cbv beta zeta.
    match goal with
    | |- context [foldl ?f ?init CAPABILITY_TOOL_GROUPS] =>
        by destruct (foldl f init CAPABILITY_TOOL_GROUPS)
    end. }
  cbv zeta. cbn [tc_allowedTools tc_disallowedTools tc_args].
  set (allowed := if (0 <? length (fst sets))%nat
                  then foldl set_delete (fst sets) (snd sets) else fst sets).
  assert (forall x, x ∈ allowed <-> granted x /\ ~ denied x) as Hallowed.
  { intros x. subst allowed. destruct (fst sets) as [|t ts] eqn:Hfs.
    - cbn. rewrite <- Hg, elem_of_nil. tauto.
    - cbn [length Nat.ltb Nat.leb]. rewrite elem_of_set_deletes, Hg, Hd. done. }
  assert (NoDup allowed) as Hnal.
  { subst allowed. destruct (0 <? length (fst sets))%nat; [|done].
    by apply NoDup_set_deletes. }
  split_and!.
  - intros x. by rewrite elem_of_sort.
  - intros x. by rewrite elem_of_sort.
  - intros x. rewrite !elem_of_sort, Hallowed, Hd. tauto.
  - by apply ascending_sort.
  - by apply ascending_sort.
  - by destruct (sort allowed).
Qed.

End GeminiToolFacts.

(* ===================================================================== *)
(** * Properties of the Codex adapter's stream *)
(* ===================================================================== *)

Module CodexAdapterFacts.

Import CodexAdapter.
Import GeminiFacts GeminiLaws.

Local Abbreviation is_done := EngineFacts.is_done.

(** A raw event of type [turn.completed]. *)
Definition is_turn_completed (rawEvent : value) : Prop :=
  Gemini.asString (Gemini.get (Gemini.asRecord rawEvent) "type")
  = Some (lit "turn.completed").

#[global] Instance is_turn_completed_dec (rawEvent : value) :
  Decision (is_turn_completed rawEvent).
Proof. unfold is_turn_completed. apply _. Defined.

#[local] Arguments lit : simpl never.

Ltac run_gen :=
  unfold events_of, result_of, world_after, bind, yield, ret, createEvent,
    Date_now, generateSessionId;
  cbn.

Ltac not_init :=
  repeat constructor; unfold is_init; cbn;
  let H := fresh in intros H; vm_compute in H; discriminate H.

Ltac not_done :=
  repeat constructor; unfold EngineFacts.is_done; cbn;
  let H := fresh in intros H; vm_compute in H; discriminate H.

(** Neither an [init] nor a [done]. *)
Definition plain (e : AgentEvent) : Prop := ~ is_init e /\ ~ is_done e.

Section Run.

Variable JSON_parse : jsstring -> value + thrown.
Variable clock : nat -> Z.
Variable uuid : nat -> jsstring.
Variable env : Environment.
Variable options : option AgentOptions.
Variable startTime : Z.

Local Abbreviation ensure_init := (ensure_init clock uuid env options).
Local Abbreviation yield_items := (yield_items clock uuid).
Local Abbreviation on_event :=
  (on_event JSON_parse clock uuid env options startTime).
Local Abbreviation on_events :=
  (on_events JSON_parse clock uuid env options startTime).
Local Abbreviation after_loop :=
  (after_loop clock uuid env options startTime).
Local Abbreviation run_catch :=
  (run_catch clock uuid env options startTime).

Lemma ensure_init_run (sourceEvent : value) (st : RunState) (w : World) :
  let st' := result_of (ensure_init sourceEvent st) w in
  guarded (initYielded st) (events_of (ensure_init sourceEvent st) w) true
  /\ Forall (fun e => ~ is_done e) (events_of (ensure_init sourceEvent st) w)
  /\ initYielded st' = true
  /\ sessionId st' = sessionId st.
Proof.
  unfold CodexAdapter.ensure_init. destruct (initYielded st) eqn:Hi; cbn.
  - split; [by split|]. by split.
  - split; [|split; [not_done|done]].
    right. split; [done|]. eexists _, []. by split_and!.
Qed.

Lemma yield_items_plain (itemEvents : list NormalizedItemEvent)
    (sid : jsstring) :
  forall w, Forall plain (events_of (yield_items itemEvents sid) w).
Proof.
  induction itemEvents as [|itemEvent rest IH]; intros w; [constructor|].
  cbn [CodexAdapter.yield_items]. rewrite !events_of_bind.
  apply Forall_app. split.
  { destruct itemEvent; run_gen; constructor. }
  apply Forall_app. split; [|apply IH].
  destruct itemEvent; run_gen; repeat constructor; unfold is_init, is_done;
    cbn; intros H; vm_compute in H; discriminate H.
Qed.

Ltac plain_events :=
  repeat constructor; unfold is_init, EngineFacts.is_done; cbn;
  let H := fresh in intros H; vm_compute in H; discriminate H.

(** Reading an item yields nothing. *)
Lemma toolUseId_of_silent (source : value) (w : World) :
  events_of (toolUseId_of (O:=AgentEvent) uuid source) w = [].
Proof. unfold toolUseId_of. by case_match. Qed.

Lemma pushToolUse_silent (source : value) (w : World) :
  events_of (pushToolUse (O:=AgentEvent) JSON_parse uuid source) w = [].
Proof.
  unfold pushToolUse. rewrite events_of_bind, toolUseId_of_silent. done.
Qed.

Lemma pushToolResult_silent (source : value) (w : World) :
  events_of (pushToolResult (O:=AgentEvent) uuid source) w = [].
Proof.
  unfold pushToolResult. cbv zeta.
  rewrite events_of_bind, toolUseId_of_silent. done.
Qed.

Lemma parseBlocks_silent (content : list value) :
  forall (flag : bool) (w : World),
    events_of (parseBlocks (O:=AgentEvent) JSON_parse uuid content flag) w
    = [].
Proof.
  induction content as [|blockRaw rest IH]; intros flag w; [done|].
  cbn [parseBlocks]. cbv zeta. rewrite !events_of_bind, IH.
  cbn [ret events_of fst snd]. rewrite !app_nil_r.
  repeat case_match; try done;
    rewrite events_of_bind, ?pushToolUse_silent, ?pushToolResult_silent;
    done.
Qed.

Lemma parseItemCompleted_silent (itemRaw : value) (w : World) :
  events_of (parseItemCompleted (O:=AgentEvent) JSON_parse uuid itemRaw) w
  = [].
Proof.
  unfold parseItemCompleted. cbv zeta.
  destruct (negb _).
  - rewrite !events_of_bind. cbn [ret events_of fst snd].
    rewrite !app_nil_r.
    assert (forall (b : bool) (m : Gen AgentEvent NormalizedItemEvent) w0,
              (forall w1, events_of m w1 = []) ->
              events_of (if b then bind m (fun e => ret [e]) else ret []) w0
              = []) as Hif.
    { intros b m w0 Hm. destruct b; [|done].
      by rewrite events_of_bind, Hm. }
    rewrite !Hif; [done|apply pushToolResult_silent|apply pushToolUse_silent].
  - rewrite events_of_bind, parseBlocks_silent. cbn [app].
    by destruct (result_of _ _).
Qed.

(** One raw event: the [init] if it is still due, then events that are
    neither [init] nor [done], and last a [done] exactly when the loop is
    left by [return], which happens exactly at [turn.completed]. *)
Lemma on_event_run (rawEvent : value) (st : RunState) (w : World) :
  let r := result_of (on_event rawEvent st) w in
  exists first rest,
    events_of (on_event rawEvent st) w = first ++ rest
    /\ guarded (initYielded st) first true
    /\ Forall (fun e => ~ is_done e) first
    /\ initYielded (fst r) = true
    /\ (snd r = true <-> is_turn_completed rawEvent)
    /\ if snd r
       then exists d, rest = [d] /\ is_done d /\ ~ is_init d
       else Forall plain rest.
Proof.
  unfold CodexAdapter.on_event. cbv zeta.
  set (st1 := {| sessionId := _; initYielded := initYielded st |}).
  change (initYielded st) with (initYielded st1). clearbody st1.
  rewrite events_of_bind, result_of_bind.
  destruct (ensure_init_run (Gemini.asRecord rawEvent) st1 w)
    as (Hg & Hnd & Hi & _). cbv zeta in Hi.
  exists (events_of (ensure_init (Gemini.asRecord rawEvent) st1) w).
  generalize dependent (result_of (ensure_init (Gemini.asRecord rawEvent) st1) w).
  generalize (world_after (ensure_init (Gemini.asRecord rawEvent) st1) w).
  intros w2 st2 Hi. unfold is_turn_completed.
  destruct (Gemini.asString
              (Gemini.get (Gemini.asRecord rawEvent) "type"))
    as [eventType|].
  2:{ exists []. cbn. split_and!; first [done|constructor]. }
  destruct (decide (eventType = lit "item.completed")) as [->|Hn1].
  { eexists. split; [reflexivity|]. split; [done|]. split; [done|].
    rewrite !result_of_bind. cbn [ret result_of fst snd].
    split; [done|]. split; [split; [done|intros [= H]; vm_compute in H; done]|].
    rewrite !events_of_bind. cbn [ret events_of fst snd].
    rewrite app_nil_r, parseItemCompleted_silent. apply yield_items_plain. }
  destruct (_ || _) eqn:Hfc.
  { eexists. split; [reflexivity|]. split; [done|]. split; [done|].
    run_gen. split; [done|]. split; [|plain_events].
    split; [done|]. intros [= ->]. vm_compute in Hfc. done. }
  destruct (decide (eventType = lit "error")) as [->|Hn2].
  { eexists. split; [reflexivity|]. split; [done|]. split; [done|].
    run_gen. split; [done|]. split; [|plain_events].
    split; [done|intros [= H]; vm_compute in H; done]. }
  destruct (decide (eventType = lit "turn.completed")) as [->|Hn3].
  { eexists. split; [reflexivity|]. split; [done|]. split; [done|].
    rewrite !result_of_bind. cbn [ret result_of fst snd].
    split; [done|]. split; [done|].
    rewrite !events_of_bind. cbn [ret events_of fst snd yield].
    rewrite app_nil_r.
    match goal with
    | |- context [events_of ?m w2] =>
        assert (events_of m w2 = []) as -> by (by case_match)
    end.
    cbn [app]. eexists. split; [run_gen; reflexivity|].
    split; [done|]. unfold is_init. cbn. intros H. vm_compute in H. done. }
  exists []. cbn [ret events_of result_of fst snd].
  split; [done|]. split; [done|]. split; [done|]. split; [done|].
  split; [|constructor]. split; [done|]. by intros [= ->].
Qed.

(** The loop: the stream opens with the [init] as soon as an event arrives;
    no [done] is yielded unless the loop is left by [return], and then the
    [done] is the last event. *)
Lemma on_events_run (rawEvents : list value) :
  forall (st : RunState) (w : World),
    let r := result_of (on_events rawEvents st) w in
    let out := events_of (on_events rawEvents st) w in
    guarded (initYielded st) out (initYielded (fst r))
    /\ (snd r = true <-> Exists is_turn_completed rawEvents)
    /\ if snd r
       then exists pre d,
              out = pre ++ [d] /\ is_done d /\ ~ is_init d
              /\ Forall (fun e => ~ is_done e) pre
              /\ initYielded (fst r) = true
       else Forall (fun e => ~ is_done e) out.
Proof.
  induction rawEvents as [|rawEvent rest IH]; intros st w.
  - cbn. split; [apply guarded_nil|]. split; [|constructor].
    split; [done|]. by inversion 1.
  - cbn [CodexAdapter.on_events]. cbv zeta.
    rewrite events_of_bind, result_of_bind.
    destruct (on_event_run rawEvent st w)
      as (first & rest' & Hev & Hg & Hnd & Hi & Htc & Hrest).
    cbv zeta in Hi, Htc, Hrest. rewrite Hev.
    generalize dependent (result_of (on_event rawEvent st) w).
    generalize (world_after (on_event rawEvent st) w).
    intros w1 [st1 returned] Hi Htc Hrest. cbn [fst snd] in *.
    destruct returned.
    + cbn [ret events_of result_of fst snd]. rewrite app_nil_r.
      destruct Hrest as (d & -> & Hd & Hdi).
      split.
      { rewrite Hi. eapply guarded_app; [exact Hg|].
        split; [done|]. by repeat constructor. }
      split.
      { split; [|done]. intros _. left. by apply Htc. }
      by exists first, d.
    + destruct (IH st1 w1) as (Hg' & Htc' & Hout').
      cbv zeta in Hg', Htc', Hout'.
      assert (Forall (fun e => ~ is_init e) rest' /\
              Forall (fun e => ~ is_done e) rest') as [Hri Hrd].
      { split; (eapply Forall_impl; [exact Hrest|]); by intros e [? ?]. }
      split.
      { rewrite <- app_assoc. eapply guarded_app; [exact Hg|].
        eapply guarded_app; [|rewrite Hi in Hg'; exact Hg']. by split. }
      split.
      { rewrite Htc'. split; [by right|]. intros Hex.
        inversion Hex as [? ? Hhere|]; subst; [|done].
        apply Htc in Hhere. done. }
      destruct (snd (result_of (on_events rest st1) w1)).
      * destruct Hout' as (pre & d & -> & Hd & Hdi & Hpre & Hi').
        exists ((first ++ rest') ++ pre), d. rewrite <- !app_assoc.
        split; [done|]. split; [done|]. split; [done|]. split; [|done].
        by rewrite !Forall_app.
      * by rewrite !Forall_app.
Qed.

(** The two synthesized endings. *)
Lemma yield_interrupted_run (st : RunState) (w : World) :
  exists d,
    events_of (yield_interrupted clock uuid startTime st) w = [d]
    /\ is_done d /\ ~ is_init d
    /\ exists duration,
         payload d = DonePayload interrupted None DEFAULT_DONE_USAGE duration.
Proof.
  eexists. split; [run_gen; reflexivity|]. split; [done|].
  split; [|by eexists]. unfold is_init. cbn. intros H. vm_compute in H. done.
Qed.

Lemma yield_failed_run (code message : jsstring) (st : RunState) (w : World) :
  exists e d,
    events_of (yield_failed clock uuid startTime code message st) w = [e; d]
    /\ type e = lit "error"
    /\ payload e = ErrorPayload (Some code) message false
    /\ is_done d /\ ~ is_init d
    /\ exists duration,
         payload d = DonePayload error None DEFAULT_DONE_USAGE duration.
Proof.
  eexists _, _. split; [run_gen; reflexivity|]. split_and!; try done.
  by eexists.
Qed.

(** How a stream that did not deliver [turn.completed] is closed: by
    [done{interrupted}] when the run was cancelled, else by an error event
    with the given code and message and [done{error}]. *)
Definition closing_tail (aborted : bool) (code message : jsstring)
    (tail : list AgentEvent) : Prop :=
  if aborted then
    exists d duration,
      tail = [d] /\ is_done d
      /\ payload d = DonePayload interrupted None DEFAULT_DONE_USAGE duration
  else
    exists e d duration,
      tail = [e; d]
      /\ type e = lit "error"
      /\ payload e = ErrorPayload (Some code) message false
      /\ is_done d
      /\ payload d = DonePayload error None DEFAULT_DONE_USAGE duration.

Lemma closing_tail_one_done aborted code message tail :
  closing_tail aborted code message tail ->
  one_done tail.
Proof.
  unfold closing_tail. destruct aborted.
  - intros (d & duration & -> & Hd & _). exists [], d. by split_and!.
  - intros (e & d & duration & -> & He & _ & Hd & _). exists [e], d.
    split_and!; [done|done|]. repeat constructor.
    unfold EngineFacts.is_done. rewrite He. intros H. vm_compute in H. done.
Qed.

Lemma ending_run (aborted : bool) (code message : jsstring) (st : RunState)
    (w : World) :
  let m :=
    bind (ensure_init Undefined st)
      (fun st =>
         if aborted then yield_interrupted clock uuid startTime st
         else yield_failed clock uuid startTime code message st) in
  exists first tail,
    events_of m w = first ++ tail
    /\ guarded (initYielded st) first true
    /\ Forall (fun e => ~ is_done e) first
    /\ Forall (fun e => ~ is_init e) tail
    /\ closing_tail aborted code message tail
    /\ (initYielded st = true -> first = []).
Proof.
  cbv zeta. rewrite events_of_bind.
  destruct (ensure_init_run Undefined st w) as (Hg & Hnd & _ & _).
  assert (initYielded st = true ->
          events_of (ensure_init Undefined st) w = []) as Hnil.
  { intros Hi. unfold CodexAdapter.ensure_init. by rewrite Hi. }
  eexists _, _. split; [reflexivity|]. split; [done|]. split; [done|].
  unfold closing_tail. destruct aborted.
  - destruct (yield_interrupted_run
                (result_of (ensure_init Undefined st) w)
                (world_after (ensure_init Undefined st) w))
      as (d & -> & Hd & Hdi & duration & Hp).
    split; [by repeat constructor|]. split; [by exists d, duration|done].
  - destruct (yield_failed_run code message
                (result_of (ensure_init Undefined st) w)
                (world_after (ensure_init Undefined st) w))
      as (e & d & -> & He & Hpe & Hd & Hdi & duration & Hp).
    split; [|split; [by exists e, d, duration|done]].
    repeat constructor; [|done]. unfold is_init. rewrite He.
    intros H. vm_compute in H. done.
Qed.

End Run.

(** ** What [run] uses of its environment

    Once the stream is open, the environment matters only through the
    working directory that the [init] event reports. *)

Section Environments.

Variable JSON_parse : jsstring -> value + thrown.
Variable clock : nat -> Z.
Variable uuid : nat -> jsstring.
Variables env env' : Environment.
Variable options : option AgentOptions.
Variable startTime : Z.
Hypothesis same_cwd : process_cwd env = process_cwd env'.

Lemma ensure_init_env (sourceEvent : value) (st : RunState) :
  ensure_init clock uuid env options sourceEvent st
  = ensure_init clock uuid env' options sourceEvent st.
Proof using same_cwd.
  unfold ensure_init, buildInitPayload. by rewrite same_cwd.
Qed.

Lemma on_event_env (rawEvent : value) (st : RunState) :
  on_event JSON_parse clock uuid env options startTime rawEvent st
  = on_event JSON_parse clock uuid env' options startTime rawEvent st.
Proof using same_cwd. unfold on_event. by rewrite ensure_init_env. Qed.

Lemma on_events_env (rawEvents : list value) :
  forall st w,
    on_events JSON_parse clock uuid env options startTime rawEvents st w
    = on_events JSON_parse clock uuid env' options startTime rawEvents st w.
Proof using same_cwd.
  induction rawEvents as [|rawEvent rest IH]; intros st w; [done|].
  cbn [on_events]. unfold bind. rewrite on_event_env.
  destruct (on_event _ _ _ _ _ _ rawEvent st w) as [[r out] w1].
  destruct (snd r); [done|]. by rewrite IH.
Qed.

Lemma after_loop_env (aborted : bool) (st : RunState) :
  after_loop clock uuid env options startTime aborted st
  = after_loop clock uuid env' options startTime aborted st.
Proof using same_cwd. unfold after_loop. by rewrite ensure_init_env. Qed.

Lemma run_catch_env (aborted : bool) (err : thrown) (st : RunState) :
  run_catch clock uuid env options startTime aborted err st
  = run_catch clock uuid env' options startTime aborted err st.
Proof using same_cwd. unfold run_catch. by rewrite ensure_init_env. Qed.

End Environments.

(** What follows a [turn.completed] in the stream plays no part. *)
Lemma on_events_return JSON_parse clock uuid env options startTime
    (tc : value) (post post' : list value) :
  is_turn_completed tc ->
  forall (pre : list value) st w,
    on_events JSON_parse clock uuid env options startTime (pre ++ tc :: post)
      st w
    = on_events JSON_parse clock uuid env options startTime
        (pre ++ tc :: post') st w.
Proof.
  intros Htc. induction pre as [|rawEvent pre IH]; intros st w.
  - cbn [app on_events]. unfold bind.
    destruct (on_event_run JSON_parse clock uuid env options startTime tc st w)
      as (_ & _ & _ & _ & _ & _ & Hret & _).
    cbv zeta in Hret. apply Hret in Htc. unfold result_of in Htc.
    destruct (on_event _ _ _ _ _ _ tc st w) as [[r out] w1].
    cbn [fst snd] in Htc. by rewrite Htc.
  - cbn [app on_events]. unfold bind.
    destruct (on_event _ _ _ _ _ _ rawEvent st w) as [[r out] w1].
    destruct (snd r); [done|]. by rewrite IH.
Qed.

Section Laws.

Variable JSON_parse : jsstring -> value + thrown.
Variable clock : nat -> Z.
Variable uuid : nat -> jsstring.

(** The stream of [run] once the raw events are at hand. *)
Lemma run_open (env : Environment) (options : option AgentOptions)
    (rawEvents : list value) (ending : Completion) (closing : option thrown)
    (w : World) :
  open_stream env options = inl (rawEvents, ending, closing) ->
  exists st w1 start,
    initYielded st = false
    /\ let aborted := opt_aborted (signal_of options) end_instant in
       let loop :=
         on_events JSON_parse clock uuid env options start rawEvents st in
       events_of (run JSON_parse clock uuid env options) w
       = events_of loop w1 ++
           events_of
             (if snd (result_of loop w1) then
                match closing with
                | None => ret tt
                | Some err =>
                    run_catch clock uuid env options start aborted err
                      (fst (result_of loop w1))
                end
              else
                match ending with
                | Returns =>
                    after_loop clock uuid env options start aborted
                      (fst (result_of loop w1))
                | Throws err =>
                    run_catch clock uuid env options start aborted err
                      (fst (result_of loop w1))
                end)
             (world_after loop w1).
Proof.
  intros Hopen. unfold run. rewrite Hopen. cbv zeta.
  rewrite events_of_bind.
  assert (events_of
            match options ≫= resume with
            | Some r => ret r
            | None => generateSessionId (O:=AgentEvent) uuid
            end w = []) as -> by (by destruct (options ≫= resume)).
  cbn [app]. rewrite events_of_bind. cbn [events_of Date_now fst snd app].
  eexists {| sessionId := _; initYielded := false |}, _, _.
  split; [done|].
  rewrite events_of_bind. f_equal.
  rewrite events_of_bind. cbn [ret events_of fst snd]. rewrite app_nil_r.
  cbn [mapAgentOptionsToCodexOptions threadOptions to_abortSignal to_signal].
  by rewrite orb_diag.
Qed.

(** The code and the message of the error that closes a stream which ended
    without [turn.completed]. *)
Definition ending_error (ending : Completion) : jsstring * jsstring :=
  match ending with
  | Returns =>
      (lit "MISSING_TURN_DONE",
       lit "Protocol violation: Codex stream ended without turn.completed")
  | Throws (ErrorObject message) => (lit "SDK_STREAM_ERROR", message)
  | Throws (NonError _) =>
      (lit "SDK_STREAM_ERROR", lit "Codex adapter failed during stream")
  end.

(** X18.  Once its stream is open, every run of
    [CodexAdapter.run] yields a stream that opens with its only [init]
    event, whatever the SDK delivers.  When closing the SDK stream does not
    throw, or no [turn.completed] arrives, the stream also holds exactly one
    [done] event, and it is the last event. *)
Theorem run_protocol (env : Environment) (options : option AgentOptions)
    (rawEvents : list value) (ending : Completion) (closing : option thrown)
    (w : World) :
  open_stream env options = inl (rawEvents, ending, closing) ->
  let out := events_of (run JSON_parse clock uuid env options) w in
  init_first out
  /\ (closing = None \/ ~ Exists is_turn_completed rawEvents ->
      one_done out /\ EngineFacts.count_done out = 1%nat).
Proof.
  intros Hopen out.
  destruct (run_open env options rawEvents ending closing w Hopen)
    as (st & w1 & start & Hst & Hout). cbv zeta in Hout.
  subst out. rewrite Hout. clear Hout.
  destruct (on_events_run JSON_parse clock uuid env options start rawEvents
              st w1) as (Hg & Htc & Hloop).
  cbv zeta in Hg, Htc, Hloop. rewrite Hst in Hg.
  set (aborted := opt_aborted (signal_of options) end_instant).
  generalize dependent
    (result_of (on_events JSON_parse clock uuid env options start rawEvents st)
       w1).
  generalize (world_after
                (on_events JSON_parse clock uuid env options start rawEvents st)
                w1).
  generalize (events_of
                (on_events JSON_parse clock uuid env options start rawEvents st)
                w1).
  intros out1 w2 [st2 returned] Hg Htc Hloop. cbn [fst snd] in *.
  assert (forall code message err,
            (run_catch clock uuid env options start aborted err st2
             = bind (ensure_init clock uuid env options Undefined st2)
                 (fun st =>
                    if aborted then yield_interrupted clock uuid start st
                    else yield_failed clock uuid start code message st)) ->
            init_first
              (out1 ++ events_of
                         (run_catch clock uuid env options start aborted err
                            st2) w2)) as Hcatch_init.
  { intros code message err ->.
    destruct (ending_run clock uuid env options start aborted code message
                st2 w2) as (first & tail & -> & Hgf & _ & Hti & _ & _).
    pose proof (guarded_app _ _ _ _ _ Hg Hgf) as Hall.
    pose proof (guarded_app _ _ _ (tail) true Hall
                  ltac:(by split)) as [[? _]|[_ H]]; [done|].
    by rewrite <- app_assoc in H. }
  assert (forall err, exists code message,
            run_catch clock uuid env options start aborted err st2
            = bind (ensure_init clock uuid env options Undefined st2)
                (fun st =>
                   if aborted then yield_interrupted clock uuid start st
                   else yield_failed clock uuid start code message st))
    as Hcatch.
  { intros err. by eexists _, _. }
  split.
  - destruct returned.
    + destruct Hloop as (pre & d & -> & Hd & Hdi & Hpre & Hi).
      rewrite Hi in Hg. destruct closing as [err|].
      * destruct (Hcatch err) as (code & message & Heq).
        by apply (Hcatch_init code message).
      * cbn [ret events_of fst snd]. rewrite app_nil_r.
        by destruct Hg as [[? _]|[_ H]].
    + destruct ending as [|err].
      * unfold after_loop.
        destruct (ending_run clock uuid env options start aborted
                    (lit "MISSING_TURN_DONE")
                    (lit "Protocol violation: Codex stream ended without turn.completed")
                    st2 w2) as (first & tail & -> & Hgf & _ & Hti & _ & _).
        pose proof (guarded_app _ _ _ _ _ Hg Hgf) as Hall.
        pose proof (guarded_app _ _ _ (tail) true Hall
                      ltac:(by split)) as [[? _]|[_ H]]; [done|].
        by rewrite <- app_assoc in H.
      * destruct (Hcatch err) as (code & message & Heq).
        by apply (Hcatch_init code message).
  - intros Hsafe.
    assert (one_done
              (out1 ++
               events_of
                 (if returned
                  then match closing with
                       | Some err =>
                           run_catch clock uuid env options start aborted err
                             st2
                       | None => ret tt
                       end
                  else match ending with
                       | Returns =>
                           after_loop clock uuid env options start aborted st2
                       | Throws err =>
                           run_catch clock uuid env options start aborted err
                             st2
                       end) w2)) as Hone.
    2:{ split; [done|]. destruct Hone as (pre & d & -> & Hd & Hpre).
        by apply EngineFacts.terminal_count. }
    assert (forall code message,
              one_done
                (out1 ++
                 events_of
                   (bind (ensure_init clock uuid env options Undefined st2)
                      (fun st =>
                         if aborted then yield_interrupted clock uuid start st
                         else yield_failed clock uuid start code message st))
                   w2) \/ returned = true) as Hend.
    { intros code message. destruct returned; [by right|left].
      destruct (ending_run clock uuid env options start aborted code message
                  st2 w2) as (first & tail & -> & _ & Hfd & _ & Htail & _).
      apply closing_tail_one_done in Htail as (pre & d & -> & Hd & Hpre).
      exists (out1 ++ first ++ pre), d. rewrite <- !app_assoc.
      split; [done|]. split; [done|]. by rewrite !Forall_app. }
    destruct returned.
    + destruct Hloop as (pre & d & -> & Hd & Hdi & Hpre & Hi).
      destruct Hsafe as [->|Hno]; [|exfalso; by apply Hno, Htc].
      cbn [ret events_of fst snd]. rewrite app_nil_r. by exists pre, d.
    + destruct ending as [|err].
      * by destruct (Hend (lit "MISSING_TURN_DONE")
                       (lit "Protocol violation: Codex stream ended without turn.completed")).
      * destruct (Hcatch err) as (code & message & ->).
        by destruct (Hend code message).
Qed.

(** X19.  The first [turn.completed] ends the run.  Two SDK
    streams that agree up to and including a [turn.completed] event give the
    same run, whatever either of them would have delivered afterwards and
    however either of them would have ended: what follows a
    [turn.completed] is never read. *)
Theorem run_stops_at_turn_completed (env env' : Environment)
    (options : option AgentOptions) (pre : list value) (tc : value)
    (post post' : list value) (ending ending' : Completion)
    (closing : option thrown) (w : World) :
  process_cwd env = process_cwd env' ->
  open_stream env options = inl (pre ++ tc :: post, ending, closing) ->
  open_stream env' options = inl (pre ++ tc :: post', ending', closing) ->
  is_turn_completed tc ->
  run JSON_parse clock uuid env options w
  = run JSON_parse clock uuid env' options w.
Proof.
  intros Hcwd Hopen Hopen' Htc. unfold run. rewrite Hopen, Hopen'.
  cbv zeta. unfold bind at 1 5.
  destruct (match options ≫= resume with
            | Some r => ret r
            | None => generateSessionId (O:=AgentEvent) uuid
            end w) as [[sid out0] w0].
  unfold bind at 1 4. cbn [Date_now]. unfold bind at 1 3.
  rewrite <- (on_events_env JSON_parse clock uuid env env' options _ Hcwd).
  rewrite (on_events_return JSON_parse clock uuid env options _ tc post post'
             Htc pre).
  pose proof (on_events_run JSON_parse clock uuid env options
                (clock (clock_reads w0)) (pre ++ tc :: post')
                {| sessionId := sid; initYielded := false |}
                {| clock_reads := S (clock_reads w0);
                   uuid_reads := uuid_reads w0; run_calls := run_calls w0 |})
    as (_ & Hret & _).
  cbv zeta in Hret. unfold result_of in Hret.
  destruct (on_events _ _ _ _ _ _ (pre ++ tc :: post') _ _)
    as [[r out1] w1].
  cbn [fst snd] in Hret.
  rewrite (proj2 Hret)
    by (apply Exists_app; right; by left).
  unfold bind. destruct closing as [err|]; [|done].
  by rewrite (run_catch_env clock uuid env env' options _ Hcwd).
Qed.

(** X20.  How a stream without [turn.completed] is closed.  When
    the SDK stream delivers no [turn.completed], the run closes the session
    itself, after the events it made of the stream (none of them a [done]):
    with [done{interrupted}] when the run was cancelled; else with an error
    event that is not recoverable, followed by [done{error}] with zeroed
    usage.  The error has the code MISSING_TURN_DONE and the message
    "Protocol violation: Codex stream ended without turn.completed" when the
    SDK stream just ended, and the code SDK_STREAM_ERROR with the message of
    the exception (a fixed text when what was thrown is not an [Error]) when
    the SDK stream threw. *)
Theorem run_stream_end (env : Environment) (options : option AgentOptions)
    (rawEvents : list value) (ending : Completion) (closing : option thrown)
    (w : World) :
  open_stream env options = inl (rawEvents, ending, closing) ->
  ~ Exists is_turn_completed rawEvents ->
  exists pre tail,
    events_of (run JSON_parse clock uuid env options) w = pre ++ tail
    /\ Forall (fun e => ~ is_done e) pre
    /\ closing_tail (opt_aborted (signal_of options) end_instant)
         (fst (ending_error ending)) (snd (ending_error ending)) tail.
Proof.
  intros Hopen Hno.
  destruct (run_open env options rawEvents ending closing w Hopen)
    as (st & w1 & start & Hst & Hout). cbv zeta in Hout. rewrite Hout.
  clear Hout.
  destruct (on_events_run JSON_parse clock uuid env options start rawEvents
              st w1) as (_ & Htc & Hloop).
  cbv zeta in Htc, Hloop.
  set (aborted := opt_aborted (signal_of options) end_instant).
  generalize dependent
    (result_of (on_events JSON_parse clock uuid env options start rawEvents st)
       w1).
  generalize (world_after
                (on_events JSON_parse clock uuid env options start rawEvents st)
                w1).
  generalize (events_of
                (on_events JSON_parse clock uuid env options start rawEvents st)
                w1).
  intros out1 w2 [st2 returned] Htc Hloop. cbn [fst snd] in *.
  destruct returned; [exfalso; by apply Hno, Htc|].
  assert (match ending with
          | Returns => after_loop clock uuid env options start aborted st2
          | Throws err =>
              run_catch clock uuid env options start aborted err st2
          end
          = bind (ensure_init clock uuid env options Undefined st2)
              (fun st =>
                 if aborted then yield_interrupted clock uuid start st
                 else yield_failed clock uuid start (fst (ending_error ending))
                        (snd (ending_error ending)) st)) as ->.
  { by destruct ending as [|[message|rendering]]. }
  destruct (ending_run clock uuid env options start aborted
              (fst (ending_error ending)) (snd (ending_error ending)) st2 w2)
    as (first & tail & -> & _ & Hfd & _ & Htail & _).
  exists (out1 ++ first), tail. rewrite <- app_assoc.
  split; [done|]. split; [by apply Forall_app|done].
Qed.

(** X21.  A second [done].  When a [turn.completed] arrives and
    closing the SDK stream then throws, the exception is caught after the
    [done] of the turn has been yielded, and the run closes the session a
    second time: the stream holds two [done] events, the [done] of the turn
    being followed by [done{interrupted}] when the run was cancelled and
    else by an SDK_STREAM_ERROR error event and [done{error}]. *)
Theorem run_second_done (env : Environment) (options : option AgentOptions)
    (rawEvents : list value) (ending : Completion) (err : thrown)
    (w : World) :
  open_stream env options = inl (rawEvents, ending, Some err) ->
  Exists is_turn_completed rawEvents ->
  let out := events_of (run JSON_parse clock uuid env options) w in
  EngineFacts.count_done out = 2%nat
  /\ exists pre d tail,
       out = pre ++ [d] ++ tail
       /\ Forall (fun e => ~ is_done e) pre
       /\ is_done d
       /\ closing_tail (opt_aborted (signal_of options) end_instant)
            (lit "SDK_STREAM_ERROR") (snd (ending_error (Throws err))) tail.
Proof.
  intros Hopen Hex out.
  assert (exists pre d tail,
            out = pre ++ [d] ++ tail
            /\ Forall (fun e => ~ is_done e) pre
            /\ is_done d
            /\ closing_tail (opt_aborted (signal_of options) end_instant)
                 (lit "SDK_STREAM_ERROR") (snd (ending_error (Throws err)))
                 tail) as Hshape.
  2:{ split; [|done]. destruct Hshape as (pre & d & tail & -> & Hpre & Hd & Ht).
      apply closing_tail_one_done in Ht as (pre' & d' & -> & Hd' & Hpre').
      rewrite !EngineFacts.count_done_app.
      rewrite (EngineFacts.count_done_none pre Hpre),
        (EngineFacts.count_done_none pre' Hpre').
      unfold EngineFacts.count_done. by rewrite !filter_cons_True. }
  subst out.
  destruct (run_open env options rawEvents ending (Some err) w Hopen)
    as (st & w1 & start & Hst & Hout). cbv zeta in Hout. rewrite Hout.
  clear Hout.
  destruct (on_events_run JSON_parse clock uuid env options start rawEvents
              st w1) as (_ & Htc & Hloop).
  cbv zeta in Htc, Hloop.
  set (aborted := opt_aborted (signal_of options) end_instant).
  generalize dependent
    (result_of (on_events JSON_parse clock uuid env options start rawEvents st)
       w1).
  generalize (world_after
                (on_events JSON_parse clock uuid env options start rawEvents st)
                w1).
  generalize (events_of
                (on_events JSON_parse clock uuid env options start rawEvents st)
                w1).
  intros out1 w2 [st2 returned] Htc Hloop. cbn [fst snd] in *.
  rewrite (proj2 Htc Hex) in Hloop |- *.
  destruct Hloop as (pre & d & -> & Hd & _ & Hpre & Hi).
  assert (run_catch clock uuid env options start aborted err st2
          = bind (ensure_init clock uuid env options Undefined st2)
              (fun st =>
                 if aborted then yield_interrupted clock uuid start st
                 else yield_failed clock uuid start (lit "SDK_STREAM_ERROR")
                        (snd (ending_error (Throws err))) st)) as ->.
  { by destruct err. }
  destruct (ending_run clock uuid env options start aborted
              (lit "SDK_STREAM_ERROR") (snd (ending_error (Throws err))) st2 w2)
    as (first & tail & -> & _ & _ & _ & Htail & Hfirst).
  rewrite (Hfirst Hi). exists pre, d, tail. by rewrite <- app_assoc.
Qed.

End Laws.

(** ** Sample runs *)

(** An SDK whose thread, started or resumed, streams [rawEvents]. *)
Definition streaming (rawEvents : list value) (ending : Completion)
    (closing : option thrown) : Environment :=
  let thread :=
    {| runStreamed := Some (inl (AsyncIterable rawEvents ending closing));
       thread_run := None |} in
  {| loadSdk :=
       inl {| new_Codex :=
                inl {| startThread := inl thread;
                       resumeThread := Some (inl thread) |} |};
     process_cwd := lit "/w" |}.

(** [{type: 'item.completed', item: {text: 'hello'}}] *)
Definition message_item : value :=
  Obj [ (lit "type", Str (lit "item.completed"));
        (lit "item", Obj [(lit "text", Str (lit "hello"))]) ].

(** [{type: 'turn.completed', status: 'completed'}] *)
Definition turn_completed : value :=
  Obj [ (lit "type", Str (lit "turn.completed"));
        (lit "status", Str (lit "completed")) ].

Definition sample_run (env : Environment) : list AgentEvent :=
  events_of
    (run (fun _ => inr (ErrorObject (lit "Unexpected token")))
       (fun n => 1000 + Z.of_nat n) (fun _ => lit "sid") env None)
    world0.

Example message_then_turn :
  (fun e => (type e, payload e)) <$>
    sample_run (streaming [message_item; turn_completed] Returns None)
  = [ (lit "init",
       InitPayload (lit "unknown") (lit "/w") []
         (Some (Obj [ (lit "toolsKnown", Bool false);
                      (lit "toolsSource", Str (lit "unavailable")) ])));
      (lit "text", TextPayload (lit "hello"));
      (lit "done", DonePayload success None DEFAULT_DONE_USAGE 3) ].
Proof. vm_compute. reflexivity. Qed.

(** The [done] of the turn, then the [catch] block: two [done] events. *)
Example closing_throws :
  type <$>
    sample_run
      (streaming [turn_completed] Returns (Some (ErrorObject (lit "late"))))
  = [lit "init"; lit "done"; lit "error"; lit "done"].
Proof. vm_compute. reflexivity. Qed.

Example sdk_missing :
  run (fun _ => inr (ErrorObject (lit "Unexpected token")))
    (fun n => 1000 + Z.of_nat n) (fun _ => lit "sid")
    {| loadSdk := inr (ErrorObject (lit "Cannot find module"));
       process_cwd := lit "/w" |}
    None world0
  = (Throws
       (ErrorObject
          (lit "CodexAdapter requires @openai/codex-sdk. Install it to use this adapter.")),
     [], world0).
Proof. vm_compute. reflexivity. Qed.

Lemma run_protocol_witness :
  let out :=
    sample_run (streaming [message_item; turn_completed] Returns None) in
  init_first out
  /\ (@None thrown = None
      \/ ~ Exists is_turn_completed [message_item; turn_completed] ->
      one_done out /\ EngineFacts.count_done out = 1%nat).
Proof.
  apply (run_protocol (fun _ => inr (ErrorObject (lit "Unexpected token")))
           (fun n => 1000 + Z.of_nat n) (fun _ => lit "sid")
           (streaming [message_item; turn_completed] Returns None) None
           [message_item; turn_completed] Returns None world0).
  reflexivity.
Defined.

(** What comes after the [turn.completed], here one more item and a throw,
    is not read. *)
Lemma run_stops_at_turn_completed_witness :
  run (fun _ => inr (ErrorObject (lit "Unexpected token")))
    (fun n => 1000 + Z.of_nat n) (fun _ => lit "sid")
    (streaming ([message_item] ++ turn_completed :: [message_item])
       (Throws (ErrorObject (lit "late"))) None)
    None world0
  = run (fun _ => inr (ErrorObject (lit "Unexpected token")))
      (fun n => 1000 + Z.of_nat n) (fun _ => lit "sid")
      (streaming ([message_item] ++ turn_completed :: []) Returns None)
      None world0.
Proof.
  apply (run_stops_at_turn_completed
           (fun _ => inr (ErrorObject (lit "Unexpected token")))
           (fun n => 1000 + Z.of_nat n) (fun _ => lit "sid")
           (streaming ([message_item] ++ turn_completed :: [message_item])
              (Throws (ErrorObject (lit "late"))) None)
           (streaming ([message_item] ++ turn_completed :: []) Returns None)
           None [message_item] turn_completed [message_item] []
           (Throws (ErrorObject (lit "late"))) Returns None world0).
  - reflexivity.
  - reflexivity.
  - reflexivity.
  - reflexivity.
Defined.

Lemma run_stream_end_witness :
  exists pre tail,
    sample_run (streaming [message_item] Returns None) = pre ++ tail
    /\ Forall (fun e => ~ EngineFacts.is_done e) pre
    /\ closing_tail false (lit "MISSING_TURN_DONE")
         (lit "Protocol violation: Codex stream ended without turn.completed")
         tail.
Proof.
  apply (run_stream_end (fun _ => inr (ErrorObject (lit "Unexpected token")))
           (fun n => 1000 + Z.of_nat n) (fun _ => lit "sid")
           (streaming [message_item] Returns None) None
           [message_item] Returns None world0).
  - reflexivity.
  - apply (bool_decide_unpack _). vm_compute. exact I.
Defined.

Lemma run_second_done_witness :
  EngineFacts.count_done
    (sample_run
       (streaming [turn_completed] Returns (Some (ErrorObject (lit "late")))))
  = 2%nat.
Proof.
  apply (run_second_done (fun _ => inr (ErrorObject (lit "Unexpected token")))
           (fun n => 1000 + Z.of_nat n) (fun _ => lit "sid")
           (streaming [turn_completed] Returns
              (Some (ErrorObject (lit "late"))))
           None [turn_completed] Returns (ErrorObject (lit "late")) world0).
  - reflexivity.
  - apply (bool_decide_unpack _). vm_compute. exact I.
Defined.

End CodexAdapterFacts.

(* ===================================================================== *)
(** * Properties of the registry class *)
(* ===================================================================== *)

Module RegistryFacts.

Import RegistryClass.

(** The finite map the drivers consult. *)
Definition adapters_of (adapters : RegistryClass.t) : AdapterRegistry.t :=
  list_to_map adapters.

Lemma Map_has_spec (adapters : RegistryClass.t) (key : jsstring) :
  Map_has adapters key = true <-> key ∈ RegistryClass.list adapters.
Proof. unfold Map_has, RegistryClass.list. apply bool_decide_eq_true. Qed.

Lemma Map_get_Some (adapters : RegistryClass.t) (key : jsstring) :
  is_Some (Map_get adapters key) <-> key ∈ RegistryClass.list adapters.
Proof.
  unfold RegistryClass.list.
  induction adapters as [|[k v] rest IH]; cbn [Map_get fmap list_fmap fst].
  - rewrite elem_of_nil. split; [by intros [? ?]|done].
  - rewrite elem_of_cons. destruct (decide (k = key)) as [->|Hne].
    + split; [by left|by eexists].
    + rewrite IH. split; [by right|]. by intros [?|?].
Qed.

Lemma Map_get_app (a b : RegistryClass.t) (key : jsstring) :
  Map_get (a ++ b) key
  = match Map_get a key with
    | Some v => Some v
    | None => Map_get b key
    end.
Proof.
  induction a as [|[k v] a IH]; cbn [app Map_get]; [done|].
  by destruct (decide (k = key)).
Qed.

Lemma Map_get_filter (adapters : RegistryClass.t) (gone key : jsstring) :
  Map_get (filter (fun entry => entry.1 <> gone) adapters) key
  = if decide (key = gone) then None else Map_get adapters key.
Proof.
  induction adapters as [|[k v] rest IH]; cbn [Map_get].
  - by destruct (decide _).
  - destruct (decide (k = gone)) as [->|Hk].
    + rewrite filter_cons_False by (cbn; tauto). rewrite IH.
      destruct (decide (key = gone)) as [->|Hne]; [done|].
      by rewrite decide_False.
    + rewrite filter_cons_True by done. cbn [Map_get]. rewrite IH.
      destruct (decide (k = key)) as [->|Hne]; [|done].
      by rewrite decide_False.
Qed.

Lemma adapters_of_get (adapters : RegistryClass.t) (agent : jsstring) :
  AdapterRegistry.get (adapters_of adapters) agent
  = RegistryClass.get adapters agent.
Proof.
  unfold AdapterRegistry.get, adapters_of, RegistryClass.get.
  induction adapters as [|[k v] rest IH]; cbn [list_to_map foldr Map_get].
  - apply lookup_empty.
  - cbn. destruct (decide (k = agent)) as [->|Hne].
    + by rewrite lookup_insert_eq.
    + by rewrite lookup_insert_ne.
Qed.

(** ** Calls on a registry *)

Inductive Call :=
| Register (adapter : AgentAdapter)
| Unregister (agent : jsstring).

(** One call, made on a registry; a [register] that throws leaves it as it
    was. *)
Definition call (adapters : RegistryClass.t) (c : Call) : RegistryClass.t :=
  match c with
  | Register adapter =>
      match register adapters adapter with
      | inl adapters' => adapters'
      | inr _ => adapters
      end
  | Unregister agent => (unregister adapters agent).2
  end.

(** The registry after a sequence of calls on a new one. *)
Definition after (calls : Datatypes.list Call) : RegistryClass.t :=
  foldl call [] calls.

(** Keys are unique and every adapter sits under its own name. *)
Definition well_formed (adapters : RegistryClass.t) : Prop :=
  NoDup (RegistryClass.list adapters)
  /\ Forall (fun entry => adapter_agent entry.2 = entry.1) adapters.

Lemma call_well_formed (adapters : RegistryClass.t) (c : Call) :
  well_formed adapters -> well_formed (call adapters c).
Proof.
  intros [Hnd Hown]. destruct c as [adapter|agent]; cbn [call].
  - unfold register. destruct (Map_has _ _) eqn:Hhas; [done|].
    unfold Map_set. rewrite Hhas. unfold well_formed, RegistryClass.list.
    rewrite fmap_app. split.
    + apply NoDup_app. split; [done|]. split; [|apply NoDup_singleton].
      intros x Hx. cbn. rewrite list_elem_of_singleton. intros ->.
      apply Map_has_spec in Hx. congruence.
    + apply Forall_app. split; [done|]. by repeat constructor.
  - unfold unregister, Map_delete. cbn [snd]. split.
    + unfold RegistryClass.list. apply NoDup_fmap_2_strong.
      * intros [k1 v1] [k2 v2] H1 H2 Heq. cbn in Heq. subst k2.
        apply list_elem_of_filter in H1 as [_ H1], H2 as [_ H2].
        apply list_elem_of_lookup in H1 as [i Hi], H2 as [j Hj].
        assert (i = j) as ->.
        { apply (NoDup_lookup _ i j k1 Hnd); unfold RegistryClass.list;
            rewrite list_lookup_fmap; [by rewrite Hi|by rewrite Hj]. }
        congruence.
      * apply NoDup_filter.
        clear Hown. revert Hnd. unfold RegistryClass.list.
        induction adapters as [|[k v] rest IH]; [constructor|].
        cbn. rewrite !NoDup_cons. intros [Hk Hrest]. split; [|by apply IH].
        intros Hin. apply Hk. by apply (list_elem_of_fmap_2 fst) in Hin.
    + apply Forall_forall. intros entry Hin.
      apply list_elem_of_filter in Hin as [_ Hin].
      rewrite Forall_forall in Hown. by apply Hown.
Qed.

Lemma after_well_formed (calls : Datatypes.list Call) :
  well_formed (after calls).
Proof.
  unfold after.
  assert (well_formed []) as Hnil by (split; constructor).
  revert Hnil. generalize (@nil (jsstring * AgentAdapter)).
  induction calls as [|c calls IH]; intros adapters Hwf; [done|].
  cbn [foldl]. by apply IH, call_well_formed.
Qed.

(** X22.  After any sequence of [register] and
    [unregister] calls on a new registry, whether they succeed or not:
    [list()] names no agent twice; it names exactly the agents for which
    [get] answers; and the adapter [get] returns for a name is an adapter of
    that name. *)
Theorem registry_invariant (calls : Datatypes.list Call) :
  let adapters := after calls in
  NoDup (RegistryClass.list adapters)
  /\ (forall agent,
        agent ∈ RegistryClass.list adapters
        <-> is_Some (RegistryClass.get adapters agent))
  /\ (forall agent adapter,
        RegistryClass.get adapters agent = Some adapter ->
        adapter_agent adapter = agent).
Proof.
  intros adapters. destruct (after_well_formed calls) as [Hnd Hown].
  fold adapters in Hnd, Hown. split; [done|]. split.
  - intros agent. symmetry. apply Map_get_Some.
  - intros agent adapter. unfold RegistryClass.get. clear Hnd.
    induction Hown as [|[k v] rest Hk _ IH]; cbn [Map_get]; [done|].
    destruct (decide (k = agent)) as [->|Hne]; [|done].
    by intros [= ->].
Qed.

(** What [register] does. *)
Lemma register_outcome (adapters : RegistryClass.t) (adapter : AgentAdapter) :
  match register adapters adapter with
  | inr err =>
      adapter_agent adapter ∈ RegistryClass.list adapters
      /\ err = ErrorObject
                 (lit "Adapter already registered for agent: "
                    ++ adapter_agent adapter)
  | inl adapters' =>
      (adapter_agent adapter ∉ RegistryClass.list adapters)
      /\ RegistryClass.list adapters'
         = RegistryClass.list adapters ++ [adapter_agent adapter]
      /\ RegistryClass.get adapters' (adapter_agent adapter) = Some adapter
      /\ forall agent,
           agent <> adapter_agent adapter ->
           RegistryClass.get adapters' agent = RegistryClass.get adapters agent
  end.
Proof.
  unfold register. destruct (Map_has _ _) eqn:Hhas.
  - split; [by apply Map_has_spec|done].
  - assert (adapter_agent adapter ∉ RegistryClass.list adapters) as Hnot.
    { intros Hin. apply Map_has_spec in Hin. congruence. }
    unfold Map_set. rewrite Hhas. split; [done|].
    split; [unfold RegistryClass.list; by rewrite fmap_app|].
    unfold RegistryClass.get. split.
    + rewrite Map_get_app.
      destruct (Map_get adapters (adapter_agent adapter)) eqn:Hg.
      * exfalso. apply Hnot, Map_get_Some. by eexists.
      * cbn. by rewrite decide_True.
    + intros agent Hne. rewrite Map_get_app.
      destruct (Map_get adapters agent); [done|].
      cbn. by rewrite decide_False.
Qed.

(** X23.  [register] in full: it throws exactly when the
    adapter's name is already listed, with the message "Adapter already
    registered for agent: <name>"; otherwise the name goes to the end of the
    list, [get] of that name returns the adapter, and [get] of every other
    name is as before. *)
Theorem register_law (adapters : RegistryClass.t) (adapter : AgentAdapter) :
  match register adapters adapter with
  | inr err =>
      adapter_agent adapter ∈ RegistryClass.list adapters
      /\ err = ErrorObject
                 (lit "Adapter already registered for agent: "
                    ++ adapter_agent adapter)
  | inl adapters' =>
      (adapter_agent adapter ∉ RegistryClass.list adapters)
      /\ RegistryClass.list adapters'
         = RegistryClass.list adapters ++ [adapter_agent adapter]
      /\ RegistryClass.get adapters' (adapter_agent adapter) = Some adapter
      /\ forall agent,
           agent <> adapter_agent adapter ->
           RegistryClass.get adapters' agent = RegistryClass.get adapters agent
  end.
Proof. exact (register_outcome adapters adapter). Qed.

(** What [unregister] does. *)
Lemma unregister_outcome (adapters : RegistryClass.t) (agent : jsstring) :
  let (found, adapters') := unregister adapters agent in
  (found = true <-> agent ∈ RegistryClass.list adapters)
  /\ RegistryClass.get adapters' agent = None
  /\ RegistryClass.list adapters'
     = filter (fun name => name <> agent) (RegistryClass.list adapters)
  /\ (forall other,
        other <> agent ->
        RegistryClass.get adapters' other = RegistryClass.get adapters other)
  /\ (unregister adapters' agent).1 = false.
Proof.
  unfold unregister, Map_delete. split; [apply Map_has_spec|].
  unfold RegistryClass.get. split.
  { rewrite Map_get_filter. by rewrite decide_True. }
  split.
  { unfold RegistryClass.list. clear.
    induction adapters as [|[k v] rest IH]; [done|].
    cbn [fmap list_fmap fst]. destruct (decide (k = agent)) as [->|Hne].
    - rewrite !filter_cons_False by (cbn; tauto). exact IH.
    - rewrite !filter_cons_True by done. cbn [fmap list_fmap fst].
      by rewrite <- IH. }
  split.
  { intros other Hne. rewrite Map_get_filter. by rewrite decide_False. }
  cbn [fst]. apply not_true_is_false. intros Hhas.
  apply Map_has_spec, Map_get_Some in Hhas as [v Hv].
  rewrite Map_get_filter, decide_True in Hv by done. done.
Qed.

(** X24.  [unregister] in full: it returns whether the
    name was listed; afterwards [get] of that name returns nothing, the list
    is the old list without that name, in the same order, [get] of every
    other name is as before, and a second [unregister] of the name returns
    false. *)
Theorem unregister_law (adapters : RegistryClass.t) (agent : jsstring) :
  let (found, adapters') := unregister adapters agent in
  (found = true <-> agent ∈ RegistryClass.list adapters)
  /\ RegistryClass.get adapters' agent = None
  /\ RegistryClass.list adapters'
     = filter (fun name => name <> agent) (RegistryClass.list adapters)
  /\ (forall other,
        other <> agent ->
        RegistryClass.get adapters' other = RegistryClass.get adapters other)
  /\ (unregister adapters' agent).1 = false.
Proof. exact (unregister_outcome adapters agent). Qed.

End RegistryFacts.

(* ===================================================================== *)
(** * Properties of the event guard *)
(* ===================================================================== *)

Module EventGuardFacts.

Import EventGuard.

(** X26.  [isAgentEvent] accepts every object that [createEvent]
    returns, whatever the payload is, [undefined] included (the guard asks
    whether the property is there, not what it holds), and rejects what is
    not an object, arrays and every object that lacks one of [type],
    [agent], [timestamp], [sessionId]. *)
Theorem isAgentEvent_createEvent :
  (forall (e : AgentEvent) (payload : value),
     isAgentEvent (event_object e payload) = true)
  /\ (forall v,
        isAgentEvent v = true ->
        exists fields ty ag ts sid,
          v = Obj fields
          /\ Gemini.get v "type" = Str ty
          /\ Gemini.get v "agent" = Str ag
          /\ Gemini.get v "timestamp" = Num ts
          /\ Gemini.get v "sessionId" = Str sid
          /\ lit "payload" ∈ fields.*1).
Proof.
  split.
  - intros e payload. vm_compute. reflexivity.
  - intros v Hv. destruct v as [| | | | |items|fields]; try discriminate Hv.
    unfold isAgentEvent in Hv. rewrite !andb_true_iff in Hv.
    destruct Hv as ((((Ht & Ha) & Hts) & Hs) & Hp).
    unfold is_string, is_number in *.
    destruct (Gemini.get (Obj fields) "type") as [| | | |ty| |] eqn:E1;
      try discriminate Ht.
    destruct (Gemini.get (Obj fields) "agent") as [| | | |ag| |] eqn:E2;
      try discriminate Ha.
    destruct (Gemini.get (Obj fields) "timestamp") as [| | |ts| | |] eqn:E3;
      try discriminate Hts.
    destruct (Gemini.get (Obj fields) "sessionId") as [| | | |sid| |] eqn:E4;
      try discriminate Hs.
    exists fields, ty, ag, ts, sid. split_and!; try done.
    by apply bool_decide_eq_true in Hp.
Qed.

End EventGuardFacts.
